(** * The rule-based Cypher planner of [src/query/plan/rule_based_planner.cpp]

    A shallow embedding of the clause planner: the pattern reducer, the
    return-body classifier ([ReturnBodyContext]), [GenReturnBody], the filter
    store, the named-path builder and the CREATE / RETURN / WITH planners,
    followed by the properties proved about them.

    Conventions of the embedding.
    - [std::unordered_set<Symbol>] is a [gset Symbol]; where the code iterates
      over such a set the iteration order is that of [elements].
    - [std::unordered_map<Symbol, std::vector<Symbol>>] is an association list
      with distinct keys, in iteration order (the order in which the planner
      emits operators depends on it).
    - A pointer that may be [nullptr] is an [option]; a pointer the code
      dereferences unconditionally is the pointed value.
    - [DCHECK] is modelled as in a debug build: a failed check aborts.
    - State threaded by reference ([bound_symbols], [symbol_table], [storage],
      the fields of the visitor) is passed in and returned explicitly. *)

From stdpp Require Import base option list gmap strings sorting.

Open Scope string_scope.
Open Scope nat_scope.
Open Scope list_scope.

#[local] Set Warnings "-register-all".

(** ** Outcomes of a planner call *)

(** Why a call did not return. *)
Inductive AbortCause :=
| Fatal (msg : string)          (* LOG(FATAL) << msg *)
| CheckFailed (msg : string)    (* a DCHECK that does not hold *)
| MissingSymbol (uid : nat)     (* SymbolTable::at on a node without a symbol *)
| Undefined (what : string).    (* back() / pop_back() on an empty container *)

(** Modelled from the spec: section 7 distinguishes contract errors, which
    abort the process, from typed planner errors which the query engine can
    tell apart by kind. [PlannerError] stands for the second category; the
    first one is [Abort]. *)
Inductive Outcome (A : Type) :=
| Done (a : A)
| PlannerError (kind : string)
| Abort (cause : AbortCause).
Arguments Done {A} a.
Arguments PlannerError {A} kind.
Arguments Abort {A} cause.

#[global] Instance Outcome_ret : MRet Outcome := λ A a, Done a.
#[global] Instance Outcome_bind : MBind Outcome := λ A B f m,
  match m with
  | Done a => f a
  | PlannerError k => PlannerError k
  | Abort c => Abort c
  end.

Definition DCHECK (cond : bool) (msg : string) : Outcome unit :=
  if cond then Done tt else Abort (CheckFailed msg).

Definition is_done {A} (r : Outcome A) : bool :=
  match r with Done _ => true | _ => false end.
Definition is_abort {A} (r : Outcome A) : bool :=
  match r with Abort _ => true | _ => false end.
Definition is_planner_error {A} (r : Outcome A) : bool :=
  match r with PlannerError _ => true | _ => false end.

(** ** Symbols and the symbol table *)

Inductive SymbolType := ANY | VERTEX | EDGE | PATH | NUMBER | EDGE_LIST.

(** Modelled from the spec: [Symbol] is declared outside the sources; section 3
    gives it a name, a kind, a user-declared flag and a token position. *)
Record Symbol := mkSymbol {
  name : string;
  position : nat;
  user_declared : bool;
  type_ : SymbolType
}.

#[global] Instance SymbolType_eq_dec : EqDecision SymbolType.
Proof. solve_decision. Defined.
#[global] Instance Symbol_eq_dec : EqDecision Symbol.
Proof. solve_decision. Defined.

Definition SymbolType_to_nat (t : SymbolType) : nat :=
  match t with
  | ANY => 0 | VERTEX => 1 | EDGE => 2 | PATH => 3 | NUMBER => 4 | EDGE_LIST => 5
  end.
Definition SymbolType_of_nat (n : nat) : SymbolType :=
  match n with
  | 0 => ANY | 1 => VERTEX | 2 => EDGE | 3 => PATH | 4 => NUMBER | _ => EDGE_LIST
  end.

#[global] Instance SymbolType_countable : Countable SymbolType.
Proof.
  apply (inj_countable' SymbolType_to_nat SymbolType_of_nat). by intros [].
Defined.
#[global] Instance Symbol_countable : Countable Symbol.
Proof.
  apply (inj_countable'
           (λ s, (name s, position s, user_declared s, type_ s))
           (λ '(n, p, u, t), mkSymbol n p u t)).
  by intros [].
Defined.

(** Modelled from the spec: the symbol table maps the identity of an AST node
    (its uid) to a symbol; [at] fails on a node that has none, [operator[]]
    assigns. *)
Abbreviation SymbolTable := (gmap nat Symbol).

Definition SymbolTable_at (symbol_table : SymbolTable) (uid : nat)
  : Outcome Symbol :=
  match symbol_table !! uid with
  | Some s => Done s
  | None => Abort (MissingSymbol uid)
  end.

(** ** The AST *)

Record Identifier := mkIdentifier {
  Identifier_uid : nat;
  Identifier_name_ : string;
  Identifier_user_declared_ : bool
}.

Inductive BinaryOperatorKind :=
| OrOperator | XorOperator | AndOperator | AdditionOperator
| SubtractionOperator | MultiplicationOperator | DivisionOperator
| ModOperator | NotEqualOperator | EqualOperator | LessOperator
| GreaterOperator | LessEqualOperator | GreaterEqualOperator
| InListOperator | ListMapIndexingOperator.

Inductive UnaryOperatorKind :=
| NotOperator | UnaryPlusOperator | UnaryMinusOperator | IsNullOperator.

Inductive AggregationOp :=
| COUNT | MIN | MAX | SUM | AVG | COLLECT_LIST | COLLECT_MAP.

#[global] Instance AggregationOp_eq_dec : EqDecision AggregationOp.
Proof. solve_decision. Defined.

(** Modelled from the spec: the expression nodes of section 3, each with the
    uid that identifies it. The sixteen binary operators the classifier
    treats alike share one constructor; so do the unary ones. The [Where] of
    an [All] is stored inline as its uid and its expression. *)
Inductive Expression :=
| PrimitiveLiteral (uid : nat)
| ListLiteral (uid : nat) (elements_ : list Expression)
| MapLiteral (uid : nat) (elements_ : list (string * Expression))
| IdentifierExpr (ident : Identifier)
| ParameterLookup (uid : nat)
| PropertyLookup (uid : nat) (expression_ : Expression) (property : string)
| UnaryOperator (uid : nat) (kind : UnaryOperatorKind)
    (expression_ : Expression)
| BinaryOperator (uid : nat) (kind : BinaryOperatorKind)
    (expression1_ expression2_ : Expression)
| ListSlicingOperator (uid : nat) (list_ : Expression)
    (lower_bound_ upper_bound_ : option Expression)
| IfOperator (uid : nat)
    (condition_ then_expression_ else_expression_ : Expression)
| FunctionCall (uid : nat) (function_name : string)
    (arguments_ : list Expression)
| Aggregation (uid : nat) (op_ : AggregationOp)
    (expression1_ expression2_ : option Expression)
| All (uid : nat) (identifier_ : Identifier) (list_expression_ : Expression)
    (where_uid : nat) (where_expression_ : Expression).

Record NamedExpression := mkNamedExpression {
  NamedExpression_uid : nat;
  name_ : string;
  expression_of : Expression
}.

Record Where := mkWhere {
  Where_uid : nat;
  Where_expression_ : Expression
}.

Inductive Ordering := ASC | DESC.

Record ReturnBody := mkReturnBody {
  distinct : bool;
  all_identifiers : bool;
  named_expressions : list NamedExpression;
  order_by : list (Ordering * Expression);
  skip : option Expression;
  limit : option Expression
}.

Record NodeAtom := mkNodeAtom {
  NodeAtom_uid : nat;
  NodeAtom_identifier_ : Identifier;
  NodeAtom_labels_ : list string
}.

Record EdgeAtom := mkEdgeAtom {
  EdgeAtom_uid : nat;
  EdgeAtom_identifier_ : Identifier;
  EdgeAtom_edge_types_ : list string
}.

(** [dynamic_cast<NodeAtom *>] and [dynamic_cast<EdgeAtom *>] on a
    [PatternAtom *] become a match on this sum. *)
Inductive PatternAtom :=
| PatternNode (node : NodeAtom)
| PatternEdge (edge : EdgeAtom).

Definition PatternAtom_identifier_ (atom : PatternAtom) : Identifier :=
  match atom with
  | PatternNode n => NodeAtom_identifier_ n
  | PatternEdge e => EdgeAtom_identifier_ e
  end.

Record Pattern := mkPattern {
  Pattern_identifier_ : Identifier;
  atoms_ : list PatternAtom
}.

(** Modelled from the spec: [AstTreeStorage] is declared outside the sources.
    [Create] allocates a node under an identity no earlier node has; here the
    storage is the next free uid. A created [Identifier] is user declared. *)
Record AstTreeStorage := mkStorage { next_uid_ : nat }.

Definition Create_Identifier (storage : AstTreeStorage) (nm : string)
  : Identifier * AstTreeStorage :=
  (mkIdentifier (next_uid_ storage) nm true,
   mkStorage (S (next_uid_ storage))).

Definition Create_NamedExpression (storage : AstTreeStorage) (nm : string)
    (e : Expression) : NamedExpression * AstTreeStorage :=
  (mkNamedExpression (next_uid_ storage) nm e,
   mkStorage (S (next_uid_ storage))).

Definition Create_AndOperator (storage : AstTreeStorage)
    (e1 e2 : Expression) : Expression * AstTreeStorage :=
  (BinaryOperator (next_uid_ storage) AndOperator e1 e2,
   mkStorage (S (next_uid_ storage))).

(** ** Logical operators *)

(** [Aggregate::Element{expression1_, expression2_, op_, symbol}]. *)
Record AggregateElement := mkElement {
  Element_value : option Expression;
  Element_key : option Expression;
  Element_op : AggregationOp;
  Element_output_sym : Symbol
}.

(** The members an operator has besides its input. *)
Inductive Operator :=
| ScanAll (output_symbol : Symbol)
| CreateNode (node_atom : NodeAtom)
| CreateExpand (node_atom : NodeAtom) (edge_atom : EdgeAtom)
    (input_symbol : Symbol) (existing_node : bool)
| Filter (expression : Expression)
| Produce (named_exprs : list NamedExpression)
| Accumulate (symbols : list Symbol) (advance_command : bool)
| Aggregate (aggregations : list AggregateElement)
    (group_by : list Expression) (remember : list Symbol)
| Skip (expression : Expression)
| Limit (expression : Expression)
| OrderBy (order : list (Ordering * Expression)) (output_symbols : list Symbol)
| Distinct (value_symbols : list Symbol)
| ConstructNamedPath (path_symbol : Symbol) (path_elements : list Symbol).

(** Every operator of the plans built here owns exactly one input, so a
    plan is a chain: [NoInput] is the [nullptr] below the first operator and
    [New op input] is [new Op(std::shared_ptr<LogicalOperator>(input), ...)]. *)
Inductive LogicalOperator :=
| NoInput
| New (op : Operator) (input : LogicalOperator).

(** The operators of a plan, topmost first. *)
Fixpoint operators (plan : LogicalOperator) : list Operator :=
  match plan with
  | NoInput => []
  | New op input => op :: operators input
  end.

Inductive OperatorKind :=
| KScanAll | KCreateNode | KCreateExpand | KFilter | KProduce | KAccumulate
| KAggregate | KSkip | KLimit | KOrderBy | KDistinct | KConstructNamedPath.

#[global] Instance OperatorKind_eq_dec : EqDecision OperatorKind.
Proof. solve_decision. Defined.

Definition kind_of (op : Operator) : OperatorKind :=
  match op with
  | ScanAll _ => KScanAll
  | CreateNode _ => KCreateNode
  | CreateExpand _ _ _ _ => KCreateExpand
  | Filter _ => KFilter
  | Produce _ => KProduce
  | Accumulate _ _ => KAccumulate
  | Aggregate _ _ _ => KAggregate
  | Skip _ => KSkip
  | Limit _ => KLimit
  | OrderBy _ _ => KOrderBy
  | Distinct _ => KDistinct
  | ConstructNamedPath _ _ => KConstructNamedPath
  end.

(** ** Containers of the standard library used by the planner *)

Definition emplace_back {A} (l : list A) (x : A) : list A := l ++ [x].

(** [std::sort(first, last, comp)]: the range ends up ordered by [comp]; the
    relative order of equivalent elements is unspecified, here the one of an
    insertion sort. *)
Fixpoint sort_insert {A} (comp : A → A → bool) (x : A) (l : list A) : list A :=
  match l with
  | [] => [x]
  | y :: l' => if comp x y then x :: y :: l' else y :: sort_insert comp x l'
  end.

Definition std_sort {A} (comp : A → A → bool) (l : list A) : list A :=
  foldr (sort_insert comp) [] l.

(** A loop body run over a range, threading the state and stopping at the
    first failure. *)
Fixpoint for_each {A S} (body : S → A → Outcome S) (l : list A) (s : S)
  : Outcome S :=
  match l with
  | [] => Done s
  | x :: l' => s' ← body s x; for_each body l' s'
  end.

(** ** The return-body classifier *)

Record ReturnBodyContext := mkReturnBodyContext {
  body_ : ReturnBody;
  symbol_table_ : SymbolTable;
  bound_symbols_ : gset Symbol;
  storage_ : AstTreeStorage;
  where_ : option Where;
  used_symbols_ : gset Symbol;
  output_symbols_ : list Symbol;
  aggregations_ : list AggregateElement;
  group_by_ : list Expression;
  has_aggregation_ : list bool;
  named_expressions_ : list NamedExpression
}.

Definition set_symbol_table_ (v : SymbolTable) (c : ReturnBodyContext) :=
  mkReturnBodyContext (body_ c) v (bound_symbols_ c) (storage_ c) (where_ c)
    (used_symbols_ c) (output_symbols_ c) (aggregations_ c) (group_by_ c)
    (has_aggregation_ c) (named_expressions_ c).
Definition set_storage_ (v : AstTreeStorage) (c : ReturnBodyContext) :=
  mkReturnBodyContext (body_ c) (symbol_table_ c) (bound_symbols_ c) v
    (where_ c) (used_symbols_ c) (output_symbols_ c) (aggregations_ c)
    (group_by_ c) (has_aggregation_ c) (named_expressions_ c).
Definition set_used_symbols_ (v : gset Symbol) (c : ReturnBodyContext) :=
  mkReturnBodyContext (body_ c) (symbol_table_ c) (bound_symbols_ c)
    (storage_ c) (where_ c) v (output_symbols_ c) (aggregations_ c)
    (group_by_ c) (has_aggregation_ c) (named_expressions_ c).
Definition set_output_symbols_ (v : list Symbol) (c : ReturnBodyContext) :=
  mkReturnBodyContext (body_ c) (symbol_table_ c) (bound_symbols_ c)
    (storage_ c) (where_ c) (used_symbols_ c) v (aggregations_ c)
    (group_by_ c) (has_aggregation_ c) (named_expressions_ c).
Definition set_aggregations_ (v : list AggregateElement)
    (c : ReturnBodyContext) :=
  mkReturnBodyContext (body_ c) (symbol_table_ c) (bound_symbols_ c)
    (storage_ c) (where_ c) (used_symbols_ c) (output_symbols_ c) v
    (group_by_ c) (has_aggregation_ c) (named_expressions_ c).
Definition set_group_by_ (v : list Expression) (c : ReturnBodyContext) :=
  mkReturnBodyContext (body_ c) (symbol_table_ c) (bound_symbols_ c)
    (storage_ c) (where_ c) (used_symbols_ c) (output_symbols_ c)
    (aggregations_ c) v (has_aggregation_ c) (named_expressions_ c).
Definition set_has_aggregation_ (v : list bool) (c : ReturnBodyContext) :=
  mkReturnBodyContext (body_ c) (symbol_table_ c) (bound_symbols_ c)
    (storage_ c) (where_ c) (used_symbols_ c) (output_symbols_ c)
    (aggregations_ c) (group_by_ c) v (named_expressions_ c).
Definition set_named_expressions_ (v : list NamedExpression)
    (c : ReturnBodyContext) :=
  mkReturnBodyContext (body_ c) (symbol_table_ c) (bound_symbols_ c)
    (storage_ c) (where_ c) (used_symbols_ c) (output_symbols_ c)
    (aggregations_ c) (group_by_ c) (has_aggregation_ c) v.

(** A visitor method: the updated visitor and the method's [bool]. *)
Definition Visitor := ReturnBodyContext → Outcome (bool * ReturnBodyContext).

(** [has_aggregation_.emplace_back(flag)] *)
Definition push_flag (flag : bool) (c : ReturnBodyContext) : ReturnBodyContext :=
  set_has_aggregation_ (emplace_back (has_aggregation_ c) flag) c.

(** [has_aggregation_.back()] *)
Definition back_flag (c : ReturnBodyContext) : Outcome bool :=
  match last (has_aggregation_ c) with
  | Some b => Done b
  | None => Abort (Undefined "back() of an empty has_aggregation_")
  end.

(** [has_aggregation_.pop_back()] *)
Definition pop_flag (c : ReturnBodyContext) : Outcome ReturnBodyContext :=
  match has_aggregation_ c with
  | [] => Abort (Undefined "pop_back() of an empty has_aggregation_")
  | _ :: _ => Done (set_has_aggregation_ (removelast (has_aggregation_ c)) c)
  end.

(** [has_aggregation_.back() = flag] *)
Definition set_back_flag (flag : bool) (c : ReturnBodyContext)
  : Outcome ReturnBodyContext :=
  match has_aggregation_ c with
  | [] => Abort (Undefined "back() of an empty has_aggregation_")
  | _ :: _ =>
      Done (set_has_aggregation_
              (emplace_back (removelast (has_aggregation_ c)) flag) c)
  end.

(** [group_by_.emplace_back(e)] *)
Definition push_group_by (e : Expression) (c : ReturnBodyContext)
  : ReturnBodyContext :=
  set_group_by_ (emplace_back (group_by_ c) e) c.

(** The loop shared, word for word, by the [PostVisit] of [ListLiteral],
    [MapLiteral] and [Function]: the last [n] flags are or-ed and erased, and
    the result is pushed. *)
Definition fold_last_flags (n : nat) (msg : string) : Visitor := λ c,
  _ ← DCHECK (bool_decide (n ≤ length (has_aggregation_ c))) msg;
  let it := length (has_aggregation_ c) - n in
  let has_aggr :=
    foldl (λ has_aggr flag, has_aggr || flag) false
      (drop it (has_aggregation_ c)) in
  Done (true,
    set_has_aggregation_
      (emplace_back (take it (has_aggregation_ c)) has_aggr) c).

Definition Visit_PrimitiveLiteral : Visitor := λ c,
  Done (true, push_flag false c).

Definition PostVisit_ListLiteral (elements_ : list Expression) : Visitor :=
  fold_last_flags (length elements_)
    "Expected has_aggregation_ flags as much as there are list elements.".

Definition PostVisit_MapLiteral (elements_ : list (string * Expression))
  : Visitor :=
  fold_last_flags (length elements_)
    "Expected has_aggregation_ flags as much as there are map elements.".

Definition PostVisit_Function (arguments_ : list Expression) : Visitor :=
  fold_last_flags (length arguments_)
    "Expected has_aggregation_ flags as much as there are function arguments.".

Definition PostVisit_All (identifier_ : Identifier) : Visitor := λ c,
  symbol ← SymbolTable_at (symbol_table_ c) (Identifier_uid identifier_);
  let c := set_used_symbols_ (used_symbols_ c ∖ {[symbol]}) c in
  _ ← DCHECK (bool_decide (3 ≤ length (has_aggregation_ c)))
        "Expected 3 has_aggregation_ flags for ALL arguments";
  let has_aggr := false in
  b ← back_flag c; let has_aggr := has_aggr || b in c ← pop_flag c;
  b ← back_flag c; let has_aggr := has_aggr || b in c ← pop_flag c;
  b ← back_flag c; let has_aggr := has_aggr || b in c ← pop_flag c;
  Done (true, push_flag has_aggr c).

Definition Visit_Identifier (ident : Identifier) : Visitor := λ c,
  symbol ← SymbolTable_at (symbol_table_ c) (Identifier_uid ident);
  let c :=
    if bool_decide (symbol ∈ output_symbols_ c) then c
    else set_used_symbols_ ({[symbol]} ∪ used_symbols_ c) c in
  Done (true, push_flag false c).

Definition PostVisit_BinaryOperator (expression1_ expression2_ : Expression)
  : Visitor := λ c,
  _ ← DCHECK (bool_decide (2 ≤ length (has_aggregation_ c)))
        "Expected at least 2 has_aggregation_ flags.";
  aggr2 ← back_flag c; c ← pop_flag c;
  aggr1 ← back_flag c; c ← pop_flag c;
  let has_aggr := aggr1 || aggr2 in
  let c :=
    if has_aggr && negb (aggr1 && aggr2)
    then push_group_by (if aggr1 then expression2_ else expression1_) c
    else c in
  Done (true, push_flag has_aggr c).

Definition PostVisit_Aggregation (uid : nat) (op_ : AggregationOp)
    (expression1_ expression2_ : option Expression) : Visitor := λ c,
  symbol ← SymbolTable_at (symbol_table_ c) uid;
  let c :=
    set_aggregations_
      (emplace_back (aggregations_ c)
         (mkElement expression1_ expression2_ op_ symbol)) c in
  c ← (if bool_decide (op_ = COLLECT_MAP) then pop_flag c else Done c);
  c ← match expression1_ with
      | Some _ => set_back_flag true c
      | None => Done (push_flag true c)
      end;
  Done (true, c).

Definition PostVisit_NamedExpression (named_expr : NamedExpression)
  : Visitor := λ c,
  _ ← DCHECK (bool_decide (length (has_aggregation_ c) = 1))
        "Expected to reduce has_aggregation_ to single boolean.";
  b ← back_flag c;
  let c :=
    match b with
    | true => c
    | false => push_group_by (expression_of named_expr) c
    end in
  c ← pop_flag c;
  Done (true, c).

Definition Visit_ParameterLookup : Visitor := λ c,
  Done (true, push_flag false c).

(** [PreVisit(ListSlicingOperator &)] and [PreVisit(IfOperator &)] visit the
    children themselves and return [false]; [Accept] is the traversal below. *)
Definition PreVisit_ListSlicingOperator (Accept : Expression → Visitor)
    (list_ : Expression) (lower_bound_ upper_bound_ : option Expression)
  : Visitor := λ c,
  '(_, c) ← Accept list_ c;
  list_has_aggr ← back_flag c;
  c ← pop_flag c;
  let has_aggr : bool := list_has_aggr in
  '(has_aggr, c) ←
    match lower_bound_ with
    | Some lower_bound_ =>
        '(_, c) ← Accept lower_bound_ c;
        b ← back_flag c;
        c ← pop_flag c;
        Done (has_aggr || b, c)
    | None => Done (has_aggr, c)
    end;
  '(has_aggr, c) ←
    match upper_bound_ with
    | Some upper_bound_ =>
        '(_, c) ← Accept upper_bound_ c;
        b ← back_flag c;
        c ← pop_flag c;
        Done (has_aggr || b, c)
    | None => Done (has_aggr, c)
    end;
  let c :=
    if has_aggr && negb list_has_aggr then push_group_by list_ c else c in
  Done (false, push_flag has_aggr c).

Definition PreVisit_IfOperator (Accept : Expression → Visitor)
    (condition_ then_expression_ else_expression_ : Expression)
  : Visitor := λ c,
  '(_, c) ← Accept condition_ c;
  has_aggr ← back_flag c;
  c ← pop_flag c;
  '(_, c) ← Accept then_expression_ c;
  b ← back_flag c;
  let has_aggr : bool := has_aggr || b in
  c ← pop_flag c;
  '(_, c) ← Accept else_expression_ c;
  b ← back_flag c;
  let has_aggr : bool := has_aggr || b in
  c ← pop_flag c;
  let c := push_flag has_aggr c in
  _ ← DCHECK (negb has_aggr) "Currently aggregations in CASE are not allowed";
  Done (false, c).

(** Children visited in order until one returns [false]
    ([a->Accept(v) && b->Accept(v)], or the [for ... break] of the literals). *)
Definition accept_each {A} (accept : A → Visitor) : list A → Visitor :=
  fix go l c :=
    match l with
    | [] => Done (true, c)
    | x :: l' =>
        '(cont, c) ← accept x c;
        if cont : bool then go l' c else Done (false, c)
    end.

(** Modelled from the spec: the AST visitor framework (the [Accept] methods of
    the nodes and the defaults of [HierarchicalTreeVisitor]) is declared
    outside the sources. A leaf calls [Visit]; an inner node calls
    [PreVisit], descends into its children in order if that returned [true],
    stopping at the first child that returns [false], and returns the result
    of [PostVisit]. A method the classifier does not override returns [true]
    and changes nothing. *)
Fixpoint Accept (e : Expression) : Visitor := λ c,
  match e with
  | PrimitiveLiteral _ => Visit_PrimitiveLiteral c
  | ListLiteral _ elements_ =>
      '(_, c) ← accept_each Accept elements_ c;
      PostVisit_ListLiteral elements_ c
  | MapLiteral _ elements_ =>
      '(_, c) ← accept_each (λ pair, Accept (snd pair)) elements_ c;
      PostVisit_MapLiteral elements_ c
  | IdentifierExpr ident => Visit_Identifier ident c
  | ParameterLookup _ => Visit_ParameterLookup c
  | PropertyLookup _ expression_ _ =>
      '(_, c) ← Accept expression_ c;
      Done (true, c)
  | UnaryOperator _ _ expression_ =>
      '(_, c) ← Accept expression_ c;
      Done (true, c)
  | BinaryOperator _ _ expression1_ expression2_ =>
      '(cont, c) ← Accept expression1_ c;
      '(_, c) ← (if cont : bool then Accept expression2_ c else Done (false, c));
      PostVisit_BinaryOperator expression1_ expression2_ c
  | ListSlicingOperator _ list_ lower_bound_ upper_bound_ =>
      '(_, c) ← PreVisit_ListSlicingOperator Accept list_ lower_bound_
                  upper_bound_ c;
      Done (true, c)
  | IfOperator _ condition_ then_expression_ else_expression_ =>
      '(_, c) ← PreVisit_IfOperator Accept condition_ then_expression_
                  else_expression_ c;
      Done (true, c)
  | FunctionCall _ _ arguments_ =>
      '(_, c) ← accept_each Accept arguments_ c;
      PostVisit_Function arguments_ c
  | Aggregation uid op_ expression1_ expression2_ =>
      '(_, c) ← match expression1_ with
                | Some e1 => Accept e1 c
                | None => Done (true, c)
                end;
      '(_, c) ← match expression2_ with
                | Some e2 => Accept e2 c
                | None => Done (true, c)
                end;
      PostVisit_Aggregation uid op_ expression1_ expression2_ c
  | All _ identifier_ list_expression_ _ where_expression_ =>
      '(cont, c) ← Visit_Identifier identifier_ c;
      '(cont, c) ← (if cont : bool then Accept list_expression_ c
                    else Done (false, c));
      '(_, c) ← (if cont : bool
                 then '(_, c) ← Accept where_expression_ c; Done (true, c)
                 else Done (false, c));
      PostVisit_All identifier_ c
  end.

Definition Accept_NamedExpression (named_expr : NamedExpression) : Visitor :=
  λ c,
  '(_, c) ← Accept (expression_of named_expr) c;
  PostVisit_NamedExpression named_expr c.

Definition Accept_Where (where_clause : Where) : Visitor := λ c,
  '(_, c) ← Accept (Where_expression_ where_clause) c;
  Done (true, c).

(** The body of the loop of [ExpandUserSymbols] over [bound_symbols_]. *)
Definition ExpandUserSymbols_body (c : ReturnBodyContext) (symbol : Symbol)
  : ReturnBodyContext :=
  if negb (user_declared symbol) then c
  else
    let '(ident, storage) := Create_Identifier (storage_ c) (name symbol) in
    let c := set_storage_ storage c in
    let c :=
      set_symbol_table_
        (<[Identifier_uid ident := symbol]> (symbol_table_ c)) c in
    let '(named_expr, storage) :=
      Create_NamedExpression (storage_ c) (name symbol)
        (IdentifierExpr ident) in
    let c := set_storage_ storage c in
    let c :=
      set_symbol_table_
        (<[NamedExpression_uid named_expr := symbol]> (symbol_table_ c)) c in
    let c :=
      set_named_expressions_
        (emplace_back (named_expressions_ c) named_expr) c in
    let c := set_output_symbols_ (emplace_back (output_symbols_ c) symbol) c in
    let c := set_used_symbols_ ({[symbol]} ∪ used_symbols_ c) c in
    push_group_by (IdentifierExpr ident) c.

(** [ReturnBodyContext::ExpandUserSymbols] *)
Definition ExpandUserSymbols (c : ReturnBodyContext)
  : Outcome ReturnBodyContext :=
  _ ← DCHECK (bool_decide (named_expressions_ c = []))
        "ExpandUserSymbols should be first to fill named_expressions_";
  _ ← DCHECK (bool_decide (output_symbols_ c = []))
        "ExpandUserSymbols should be first to fill output_symbols_";
  let c := foldl ExpandUserSymbols_body c (elements (bound_symbols_ c)) in
  let c :=
    set_output_symbols_
      (std_sort (λ a b, String.ltb (name a) (name b)) (output_symbols_ c)) c in
  let c :=
    set_named_expressions_
      (std_sort (λ a b, String.ltb (name_ a) (name_ b)) (named_expressions_ c))
      c in
  Done c.

(** The body of the loop over [body_.named_expressions] in the constructor. *)
Definition visit_named_expression (c : ReturnBodyContext)
    (named_expr : NamedExpression) : Outcome ReturnBodyContext :=
  symbol ← SymbolTable_at (symbol_table_ c) (NamedExpression_uid named_expr);
  let c := set_output_symbols_ (emplace_back (output_symbols_ c) symbol) c in
  '(_, c) ← Accept_NamedExpression named_expr c;
  Done (set_named_expressions_
          (emplace_back (named_expressions_ c) named_expr) c).

(** The constructor up to the comment [// Collect aggregations.]: the
    expansion of [*] and the visit of the named expressions. *)
Definition collect_named_expressions (body : ReturnBody)
    (symbol_table : SymbolTable) (bound_symbols : gset Symbol)
    (storage : AstTreeStorage) (where_clause : option Where)
  : Outcome ReturnBodyContext :=
  let c :=
    mkReturnBodyContext body symbol_table bound_symbols storage where_clause
      ∅ [] [] [] [] [] in
  c ← (if all_identifiers body then ExpandUserSymbols c else Done c);
  for_each visit_named_expression (named_expressions body) c.

(** The block guarded by [if (aggregations_.empty())]. *)
Definition visit_order_by_and_where (body : ReturnBody)
    (where_clause : option Where) (c : ReturnBodyContext)
  : Outcome ReturnBodyContext :=
  c ← for_each (λ c order_pair, '(_, c) ← Accept (snd order_pair) c; Done c)
        (order_by body) c;
  c ← match where_clause with
      | Some w => '(_, c) ← Accept_Where w c; Done c
      | None => Done c
      end;
  _ ← DCHECK (bool_decide (aggregations_ c = []))
        "Unexpected aggregations in ORDER BY or WHERE";
  Done c.

(** [ReturnBodyContext::ReturnBodyContext] *)
Definition ReturnBodyContext_new (body : ReturnBody)
    (symbol_table : SymbolTable) (bound_symbols : gset Symbol)
    (storage : AstTreeStorage) (where_clause : option Where)
  : Outcome ReturnBodyContext :=
  c ← collect_named_expressions body symbol_table bound_symbols storage
        where_clause;
  if bool_decide (aggregations_ c = [])
  then visit_order_by_and_where body where_clause c
  else Done c.

(** ** GenReturnBody *)

Definition GenReturnBody (input_op : LogicalOperator) (advance_command : bool)
    (body : ReturnBodyContext) (accumulate : bool) : LogicalOperator :=
  let used_symbols := elements (used_symbols_ body) in
  let last_op := input_op in
  let last_op :=
    if accumulate
    then New (Accumulate used_symbols advance_command) last_op
    else last_op in
  let last_op :=
    if negb (bool_decide (aggregations_ body = []))
    then New (Aggregate (aggregations_ body) (group_by_ body) used_symbols)
           last_op
    else last_op in
  let last_op := New (Produce (named_expressions_ body)) last_op in
  let last_op :=
    if distinct (body_ body)
    then New (Distinct (output_symbols_ body)) last_op
    else last_op in
  let last_op :=
    if negb (bool_decide (order_by (body_ body) = []))
    then New (OrderBy (order_by (body_ body)) (output_symbols_ body)) last_op
    else last_op in
  let last_op :=
    match skip (body_ body) with
    | Some e => New (Skip e) last_op
    | None => last_op
    end in
  let last_op :=
    match limit (body_ body) with
    | Some e => New (Limit e) last_op
    | None => last_op
    end in
  let last_op :=
    match where_ body with
    | Some w => New (Filter (Where_expression_ w)) last_op
    | None => last_op
    end in
  last_op.

(** ** The filter store *)

(** Modelled from the spec: [FilterInfo] and [Filters] are declared outside
    the sources; the store holds a list of filters, each an expression with
    the set of symbols it uses. *)
Record FilterInfo := mkFilterInfo {
  FilterInfo_expression : Expression;
  FilterInfo_used_symbols : gset Symbol
}.

Definition HasBoundFilterSymbols (bound_symbols : gset Symbol)
    (filter : FilterInfo) : bool :=
  forallb (λ symbol, bool_decide (symbol ∈ bound_symbols))
    (elements (FilterInfo_used_symbols filter)).

(** Modelled from the spec: [impl::BoolJoin<AndOperator>] is declared outside
    the sources; it joins two predicates with a new AND node, and a null
    first predicate yields the second one unchanged. *)
Definition BoolJoin_AndOperator (storage : AstTreeStorage)
    (expr1 : option Expression) (expr2 : Expression)
  : Expression * AstTreeStorage :=
  match expr1 with
  | Some e1 => Create_AndOperator storage e1 expr2
  | None => (expr2, storage)
  end.

(** The loop of [ExtractFilters]: [kept] are the filters before [filters_it],
    [from_it] the ones from [filters_it] to the end. *)
Fixpoint ExtractFilters_loop (bound_symbols : gset Symbol)
    (kept from_it : list FilterInfo) (filter_expr : option Expression)
    (storage : AstTreeStorage)
  : option Expression * list FilterInfo * AstTreeStorage :=
  match from_it with
  | [] => (filter_expr, kept, storage)
  | f :: rest =>
      if HasBoundFilterSymbols bound_symbols f
      then
        let '(e, storage) :=
          BoolJoin_AndOperator storage filter_expr (FilterInfo_expression f) in
        ExtractFilters_loop bound_symbols kept rest (Some e) storage
      else
        ExtractFilters_loop bound_symbols (kept ++ [f]) rest filter_expr storage
  end.

Definition ExtractFilters (bound_symbols : gset Symbol)
    (filters : list FilterInfo) (storage : AstTreeStorage)
  : option Expression * list FilterInfo * AstTreeStorage :=
  ExtractFilters_loop bound_symbols [] filters None storage.

Definition GenFilters (last_op : LogicalOperator) (bound_symbols : gset Symbol)
    (filters : list FilterInfo) (storage : AstTreeStorage)
  : LogicalOperator * list FilterInfo * AstTreeStorage :=
  let '(filter_expr, filters, storage) :=
    ExtractFilters bound_symbols filters storage in
  match filter_expr with
  | Some e => (New (Filter e) last_op, filters, storage)
  | None => (last_op, filters, storage)
  end.

(** ** The named-path builder *)

Definition all_are_bound (bound_symbols : gset Symbol) (syms : list Symbol)
  : bool :=
  forallb (λ sym, bool_decide (sym ∈ bound_symbols)) syms.

(** The loop of [GenNamedPaths]: [kept] are the entries before
    [named_path_it], [from_it] the ones from it to the end. *)
Fixpoint GenNamedPaths_loop (last_op : LogicalOperator)
    (bound_symbols : gset Symbol)
    (kept from_it : list (Symbol * list Symbol))
  : LogicalOperator * gset Symbol * list (Symbol * list Symbol) :=
  match from_it with
  | [] => (last_op, bound_symbols, kept)
  | named_path :: rest =>
      if all_are_bound bound_symbols (snd named_path)
      then
        GenNamedPaths_loop
          (New (ConstructNamedPath (fst named_path) (snd named_path)) last_op)
          ({[fst named_path]} ∪ bound_symbols) kept rest
      else
        GenNamedPaths_loop last_op bound_symbols (kept ++ [named_path]) rest
  end.

Definition GenNamedPaths (last_op : LogicalOperator)
    (bound_symbols : gset Symbol) (named_paths : list (Symbol * list Symbol))
  : LogicalOperator * gset Symbol * list (Symbol * list Symbol) :=
  GenNamedPaths_loop last_op bound_symbols [] named_paths.

(** ** The pattern reducer *)

Section ReducePattern.
Context {T S : Type}.
(** [base] and [collect] are closures over state of the caller, [S]. *)
Variable base : NodeAtom → S → Outcome (T * S).
Variable collect :
  T → NodeAtom → EdgeAtom → NodeAtom → S → Outcome (T * S).

(** The [while (atoms_it != pattern.atoms_.end())] loop. *)
Fixpoint ReducePattern_loop (atoms_it : list PatternAtom)
    (current_node : NodeAtom) (last_res : T) (s : S) : Outcome (T * S) :=
  match atoms_it with
  | [] => Done (last_res, s)
  | PatternNode _ :: _ =>
      Abort (CheckFailed "Expected an edge atom in pattern.")
  | PatternEdge edge :: [] =>
      Abort (CheckFailed "Edge atom should not end the pattern.")
  | PatternEdge edge :: PatternEdge _ :: _ =>
      Abort (CheckFailed "Expected a node atom in pattern.")
  | PatternEdge edge :: PatternNode node :: atoms_it =>
      let prev_node := current_node in
      let current_node := node in
      '(last_res, s) ← collect last_res prev_node edge current_node s;
      ReducePattern_loop atoms_it current_node last_res s
  end.

Definition ReducePattern (pattern : Pattern) (s : S) : Outcome (T * S) :=
  match atoms_ pattern with
  | [] => Abort (CheckFailed "Missing atoms in pattern")
  | PatternEdge _ :: _ => Abort (CheckFailed "First pattern atom is not a node")
  | PatternNode current_node :: atoms_it =>
      '(last_res, s) ← base current_node s;
      ReducePattern_loop atoms_it current_node last_res s
  end.
End ReducePattern.

(** ** CREATE *)

(** [bound_symbols.insert(symbol)]: the set afterwards, and [.second]. *)
Definition insert_symbol (symbol : Symbol) (bound_symbols : gset Symbol)
  : gset Symbol * bool :=
  ({[symbol]} ∪ bound_symbols, negb (bool_decide (symbol ∈ bound_symbols))).

Definition GenCreateForPattern_base (input_op : LogicalOperator)
    (symbol_table : SymbolTable) (node : NodeAtom)
    (bound_symbols : gset Symbol) : Outcome (LogicalOperator * gset Symbol) :=
  symbol ← SymbolTable_at symbol_table
             (Identifier_uid (NodeAtom_identifier_ node));
  let '(bound_symbols, inserted) := insert_symbol symbol bound_symbols in
  if inserted
  then Done (New (CreateNode node) input_op, bound_symbols)
  else Done (input_op, bound_symbols).

Definition GenCreateForPattern_collect (symbol_table : SymbolTable)
    (last_op : LogicalOperator) (prev_node : NodeAtom) (edge : EdgeAtom)
    (node : NodeAtom) (bound_symbols : gset Symbol)
  : Outcome (LogicalOperator * gset Symbol) :=
  input_symbol ← SymbolTable_at symbol_table
                   (Identifier_uid (NodeAtom_identifier_ prev_node));
  let node_existing := false in
  node_symbol ← SymbolTable_at symbol_table
                  (Identifier_uid (NodeAtom_identifier_ node));
  let '(bound_symbols, inserted) := insert_symbol node_symbol bound_symbols in
  let node_existing := if negb inserted then true else node_existing in
  edge_symbol ← SymbolTable_at symbol_table
                  (Identifier_uid (EdgeAtom_identifier_ edge));
  let '(bound_symbols, inserted) := insert_symbol edge_symbol bound_symbols in
  if negb inserted
  then Abort (Fatal "Symbols used for created edges cannot be redeclared.")
  else Done (New (CreateExpand node edge input_symbol node_existing) last_op,
             bound_symbols).

Definition GenCreateForPattern (pattern : Pattern)
    (input_op : LogicalOperator) (symbol_table : SymbolTable)
    (bound_symbols : gset Symbol) : Outcome (LogicalOperator * gset Symbol) :=
  '(last_op, bound_symbols) ←
    ReducePattern (GenCreateForPattern_base input_op symbol_table)
      (GenCreateForPattern_collect symbol_table) pattern bound_symbols;
  if Identifier_user_declared_ (Pattern_identifier_ pattern)
  then
    path_elements ←
      for_each (λ path_elements atom,
          symbol ← SymbolTable_at symbol_table
                     (Identifier_uid (PatternAtom_identifier_ atom));
          Done (emplace_back path_elements symbol))
        (atoms_ pattern) [];
    path_symbol ← SymbolTable_at symbol_table
                    (Identifier_uid (Pattern_identifier_ pattern));
    Done (New (ConstructNamedPath path_symbol path_elements) last_op,
          bound_symbols)
  else Done (last_op, bound_symbols).

Record Create := mkCreate { patterns_ : list Pattern }.

Definition GenCreate (create : Create) (input_op : LogicalOperator)
    (symbol_table : SymbolTable) (bound_symbols : gset Symbol)
  : Outcome (LogicalOperator * gset Symbol) :=
  for_each (λ '(last_op, bound_symbols) pattern,
      GenCreateForPattern pattern last_op symbol_table bound_symbols)
    (patterns_ create) (input_op, bound_symbols).

(** ** RETURN and WITH *)

Record Return := mkReturn { Return_body_ : ReturnBody }.

Record With := mkWith {
  With_body_ : ReturnBody;
  With_where_ : option Where
}.

(** The plan, and the symbol table and storage the classifier wrote to. *)
Definition GenReturn (ret : Return) (input_op : LogicalOperator)
    (symbol_table : SymbolTable) (is_write : bool)
    (bound_symbols : gset Symbol) (storage : AstTreeStorage)
  : Outcome (LogicalOperator * SymbolTable * AstTreeStorage) :=
  let accumulate := is_write in
  let advance_command := false in
  body ← ReturnBodyContext_new (Return_body_ ret) symbol_table bound_symbols
           storage None;
  Done (GenReturnBody input_op advance_command body accumulate,
        symbol_table_ body, storage_ body).

(** The plan, the bound symbols afterwards, and the symbol table and storage
    the classifier wrote to. *)
Definition GenWith (with_ : With) (input_op : LogicalOperator)
    (symbol_table : SymbolTable) (is_write : bool)
    (bound_symbols : gset Symbol) (storage : AstTreeStorage)
  : Outcome (LogicalOperator * gset Symbol * SymbolTable * AstTreeStorage) :=
  let accumulate := is_write in
  let advance_command := is_write in
  body ← ReturnBodyContext_new (With_body_ with_) symbol_table bound_symbols
           storage (With_where_ with_);
  let last_op := GenReturnBody input_op advance_command body accumulate in
  let bound_symbols : gset Symbol := ∅ in
  let bound_symbols :=
    foldl (λ bound_symbols symbol, {[symbol]} ∪ bound_symbols) bound_symbols
      (output_symbols_ body) in
  Done (last_op, bound_symbols, symbol_table_ body, storage_ body).

(** * Specifications *)

(** ** The pipeline of a return body, as the specification lists it *)

Definition when (cond : bool) (op : Operator) : list Operator :=
  if cond then [op] else [].

Definition when_some {A} (o : option A) (op : A → Operator) : list Operator :=
  match o with
  | Some a => [op a]
  | None => []
  end.

(** The operators of section 4.5 (RETURN), bottom-up, with the members the
    planner gives them. *)
Definition return_body_pipeline (advance_command : bool)
    (body : ReturnBodyContext) (accumulate : bool) : list Operator :=
  let used := elements (used_symbols_ body) in
  when accumulate (Accumulate used advance_command)
  ++ when (bool_decide (aggregations_ body ≠ []))
       (Aggregate (aggregations_ body) (group_by_ body) used)
  ++ [Produce (named_expressions_ body)]
  ++ when (distinct (body_ body)) (Distinct (output_symbols_ body))
  ++ when (bool_decide (order_by (body_ body) ≠ []))
       (OrderBy (order_by (body_ body)) (output_symbols_ body))
  ++ when_some (skip (body_ body)) Skip
  ++ when_some (limit (body_ body)) Limit
  ++ when_some (where_ body) (λ w, Filter (Where_expression_ w)).

(** The condition under which the specification has an operator of the
    given kind in the pipeline of a return body. *)
Definition in_return_body (body : ReturnBodyContext) (accumulate : bool)
    (k : OperatorKind) : bool :=
  match k with
  | KAccumulate => accumulate
  | KAggregate => bool_decide (aggregations_ body ≠ [])
  | KProduce => true
  | KDistinct => distinct (body_ body)
  | KOrderBy => bool_decide (order_by (body_ body) ≠ [])
  | KSkip => bool_decide (is_Some (skip (body_ body)))
  | KLimit => bool_decide (is_Some (limit (body_ body)))
  | KFilter => bool_decide (is_Some (where_ body))
  | _ => false
  end.

Definition return_body_order : list OperatorKind :=
  [KAccumulate; KAggregate; KProduce; KDistinct; KOrderBy; KSkip; KLimit;
   KFilter].

(** ** The filter store, as the specification words it *)

(** A filter can be extracted when its free symbols are all bound. *)
Definition bound_filter (bound_symbols : gset Symbol) (f : FilterInfo) : Prop :=
  FilterInfo_used_symbols f ⊆ bound_symbols.

#[global] Instance bound_filter_dec bound_symbols f :
  Decision (bound_filter bound_symbols f).
Proof. unfold bound_filter. apply _. Defined.

(** The AND-join of predicates in list order: the first predicate alone, or
    [((e1 AND e2) AND e3) ...] with one new AND node per further predicate;
    nothing for no predicate. *)
Definition AndJoin (storage : AstTreeStorage) (es : list Expression)
  : option Expression * AstTreeStorage :=
  match es with
  | [] => (None, storage)
  | e :: es =>
      let '(joined, storage) :=
        foldl (λ '(joined, storage) e, Create_AndOperator storage joined e)
          (e, storage) es in
      (Some joined, storage)
  end.

(** ** CREATE patterns, as the specification describes them *)

(** The atoms of the pattern [first (e1 n1) (e2 n2) ...]. *)
Fixpoint triples_atoms (triples : list (EdgeAtom * NodeAtom))
  : list PatternAtom :=
  match triples with
  | [] => []
  | (e, n) :: triples => PatternEdge e :: PatternNode n :: triples_atoms triples
  end.

Definition chain_atoms (first : NodeAtom)
    (triples : list (EdgeAtom * NodeAtom)) : list PatternAtom :=
  PatternNode first :: triples_atoms triples.

(** The symbols of the atoms of the triples, given per triple as (edge
    symbol, node symbol), in pattern order. *)
Fixpoint pair_symbols (tsyms : list (Symbol * Symbol)) : list Symbol :=
  match tsyms with
  | [] => []
  | (es, ns) :: tsyms => es :: ns :: pair_symbols tsyms
  end.

(** The symbol table gives the edge and the node of each triple the
    symbols [tsyms]. *)
Definition triples_symbols (symbol_table : SymbolTable)
    (triples : list (EdgeAtom * NodeAtom)) (tsyms : list (Symbol * Symbol))
  : Prop :=
  Forall2 (λ t ts,
      symbol_table !! Identifier_uid (EdgeAtom_identifier_ t.1) = Some ts.1
      ∧ symbol_table !! Identifier_uid (NodeAtom_identifier_ t.2) = Some ts.2)
    triples tsyms.

(** The symbols bound when CREATE reaches the triple of index [i]: the
    ones bound before the pattern, the first node's, and those of the
    earlier triples. *)
Definition bound_before_triple (bound_symbols : gset Symbol) (s0 : Symbol)
    (tsyms : list (Symbol * Symbol)) (i : nat) : gset Symbol :=
  bound_symbols ∪ {[s0]} ∪ list_to_set (pair_symbols (take i tsyms)).

(** The edge of the triple of index [i] re-declares a symbol: its symbol is
    that of the triple's own node or is bound when the triple is reached. *)
Definition edge_redeclared (bound_symbols : gset Symbol) (s0 : Symbol)
    (tsyms : list (Symbol * Symbol)) (i : nat) : Prop :=
  ∃ es ns, tsyms !! i = Some (es, ns)
           ∧ (es = ns ∨ es ∈ bound_before_triple bound_symbols s0 tsyms i).

Definition edge_redeclaration_msg : string :=
  "Symbols used for created edges cannot be redeclared.".

(** ** Auxiliary notions for the proofs *)

(** What the loop of [ExtractFilters] has joined so far, continued with
    further predicates. *)
Definition join_onto (acc : option Expression * AstTreeStorage)
    (es : list Expression) : option Expression * AstTreeStorage :=
  foldl (λ '(filter_expr, storage) e,
      let '(joined, storage) := BoolJoin_AndOperator storage filter_expr e in
      (Some joined, storage))
    acc es.

(** The members of the classifier that no visitor method writes to. *)
Definition same_outputs (c c' : ReturnBodyContext) : Prop :=
  body_ c' = body_ c
  ∧ symbol_table_ c' = symbol_table_ c
  ∧ bound_symbols_ c' = bound_symbols_ c
  ∧ storage_ c' = storage_ c
  ∧ where_ c' = where_ c
  ∧ output_symbols_ c' = output_symbols_ c
  ∧ named_expressions_ c' = named_expressions_ c.

(** A visitor method that leaves those members alone. *)
Definition keeps_outputs (v : Visitor) : Prop :=
  ∀ c b c', v c = Done (b, c') → same_outputs c c'.

(** Induction on expressions that reaches the children held in lists and
    options. *)
Section Expression_induction.
Variable P : Expression → Prop.
Hypothesis HPrimitiveLiteral : ∀ uid, P (PrimitiveLiteral uid).
Hypothesis HListLiteral :
  ∀ uid elements_, Forall P elements_ → P (ListLiteral uid elements_).
Hypothesis HMapLiteral :
  ∀ uid elements_,
    Forall (λ pair, P (snd pair)) elements_ → P (MapLiteral uid elements_).
Hypothesis HIdentifier : ∀ ident, P (IdentifierExpr ident).
Hypothesis HParameterLookup : ∀ uid, P (ParameterLookup uid).
Hypothesis HPropertyLookup :
  ∀ uid e property, P e → P (PropertyLookup uid e property).
Hypothesis HUnaryOperator :
  ∀ uid kind e, P e → P (UnaryOperator uid kind e).
Hypothesis HBinaryOperator :
  ∀ uid kind e1 e2, P e1 → P e2 → P (BinaryOperator uid kind e1 e2).
Hypothesis HListSlicingOperator :
  ∀ uid list_ lower upper,
    P list_ → from_option P True lower → from_option P True upper →
    P (ListSlicingOperator uid list_ lower upper).
Hypothesis HIfOperator :
  ∀ uid e1 e2 e3, P e1 → P e2 → P e3 → P (IfOperator uid e1 e2 e3).
Hypothesis HFunctionCall :
  ∀ uid nm arguments_,
    Forall P arguments_ → P (FunctionCall uid nm arguments_).
Hypothesis HAggregation :
  ∀ uid op_ e1 e2,
    from_option P True e1 → from_option P True e2 →
    P (Aggregation uid op_ e1 e2).
Hypothesis HAll :
  ∀ uid ident e wuid w, P e → P w → P (All uid ident e wuid w).

Fixpoint Expression_induction (e : Expression) : P e :=
  let on_option (o : option Expression) : from_option P True o :=
    match o with
    | Some e' => Expression_induction e'
    | None => I
    end in
  match e with
  | PrimitiveLiteral uid => HPrimitiveLiteral uid
  | ListLiteral uid elements_ =>
      HListLiteral uid elements_
        ((fix go l : Forall P l :=
            match l with
            | [] => Forall_nil_2 P
            | x :: l' => Forall_cons_2 P x l' (Expression_induction x) (go l')
            end) elements_)
  | MapLiteral uid elements_ =>
      HMapLiteral uid elements_
        ((fix go l : Forall (λ pair, P (snd pair)) l :=
            match l with
            | [] => Forall_nil_2 _
            | x :: l' =>
                Forall_cons_2 (λ pair, P (snd pair)) x l'
                  (Expression_induction (snd x)) (go l')
            end) elements_)
  | IdentifierExpr ident => HIdentifier ident
  | ParameterLookup uid => HParameterLookup uid
  | PropertyLookup uid e' property =>
      HPropertyLookup uid e' property (Expression_induction e')
  | UnaryOperator uid kind e' =>
      HUnaryOperator uid kind e' (Expression_induction e')
  | BinaryOperator uid kind e1 e2 =>
      HBinaryOperator uid kind e1 e2 (Expression_induction e1)
        (Expression_induction e2)
  | ListSlicingOperator uid list_ lower upper =>
      HListSlicingOperator uid list_ lower upper (Expression_induction list_)
        (on_option lower) (on_option upper)
  | IfOperator uid e1 e2 e3 =>
      HIfOperator uid e1 e2 e3 (Expression_induction e1)
        (Expression_induction e2) (Expression_induction e3)
  | FunctionCall uid nm arguments_ =>
      HFunctionCall uid nm arguments_
        ((fix go l : Forall P l :=
            match l with
            | [] => Forall_nil_2 P
            | x :: l' => Forall_cons_2 P x l' (Expression_induction x) (go l')
            end) arguments_)
  | Aggregation uid op_ e1 e2 =>
      HAggregation uid op_ e1 e2 (on_option e1) (on_option e2)
  | All uid ident e' wuid w =>
      HAll uid ident e' wuid w (Expression_induction e')
        (Expression_induction w)
  end.
End Expression_induction.

(** ** The expansion of [*], as the specification describes it *)

(** The named expression made for the user-declared symbol of index [i]
    when the storage's next free uid was [n0]: a new identifier and a new
    named expression, both called like the symbol. *)
Definition expanded (n0 : nat) (i : nat) (symbol : Symbol) : NamedExpression :=
  mkNamedExpression (n0 + 2 * i + 1) (name symbol)
    (IdentifierExpr (mkIdentifier (n0 + 2 * i) (name symbol) true)).

Definition user_declared_symbols (bound_symbols : gset Symbol) : list Symbol :=
  filter (λ s, user_declared s = true) (elements bound_symbols).

(** Ascending by name. *)
Definition name_le (a b : Symbol) : Prop := String.le (name a) (name b).
Definition name__le (a b : NamedExpression) : Prop :=
  String.le (name_ a) (name_ b).

(** The classifier [c] as it would be had it been constructed for the return
    body [body] and the WHERE clause [w]: the two members hold what the
    constructor was given and no visitor method reads them. *)
Definition with_clauses (body : ReturnBody) (w : option Where)
    (c : ReturnBodyContext) : ReturnBodyContext :=
  mkReturnBodyContext body (symbol_table_ c) (bound_symbols_ c) (storage_ c) w
    (used_symbols_ c) (output_symbols_ c) (aggregations_ c) (group_by_ c)
    (has_aggregation_ c) (named_expressions_ c).

Definition rebased (body : ReturnBody) (w : option Where)
    (r : Outcome (bool * ReturnBodyContext))
  : Outcome (bool * ReturnBodyContext) :=
  '(b, c) ← r; Done (b, with_clauses body w c).

(** A visitor method that does not read the two members. *)
Definition ignores_clauses (v : Visitor) : Prop :=
  ∀ body w c, v (with_clauses body w c) = rebased body w (v c).

(** The return body [body] with another ORDER BY. *)
Definition with_order_by (body : ReturnBody)
    (order : list (Ordering * Expression)) : ReturnBody :=
  mkReturnBody (distinct body) (all_identifiers body) (named_expressions body)
    order (skip body) (limit body).

(** * Example queries *)

(** [CREATE (a)-[e:R]->(b)], the pattern anonymous. *)
Definition sym_a : Symbol := mkSymbol "a" 0 true VERTEX.
Definition sym_e : Symbol := mkSymbol "e" 1 true EDGE.
Definition sym_b : Symbol := mkSymbol "b" 2 true VERTEX.
Definition sym_path : Symbol := mkSymbol "anon1" 3 false PATH.

Definition node_a : NodeAtom := mkNodeAtom 2 (mkIdentifier 1 "a" true) [].
Definition edge_e : EdgeAtom := mkEdgeAtom 4 (mkIdentifier 3 "e" true) ["R"].
Definition node_b : NodeAtom := mkNodeAtom 6 (mkIdentifier 5 "b" true) [].

Definition create_pattern : Pattern :=
  mkPattern (mkIdentifier 7 "anon1" false)
    [PatternNode node_a; PatternEdge edge_e; PatternNode node_b].

Definition create_table : SymbolTable :=
  <[1 := sym_a]> (<[3 := sym_e]> (<[5 := sym_b]> (<[7 := sym_path]> ∅))).

(** [MATCH (n) RETURN n.k AS k, sum(n.v) AS s], and variants of the second
    column: [n.k + sum(n.v)], [[sum(n.v), n.k]], [f(sum(n.v), n.k)] and
    [{x: sum(n.v), y: n.k}]. *)
Definition sym_n : Symbol := mkSymbol "n" 0 true VERTEX.
Definition sym_k : Symbol := mkSymbol "k" 1 true ANY.
Definition sym_s : Symbol := mkSymbol "s" 2 true ANY.
Definition sym_sum : Symbol := mkSymbol "sum" 3 false NUMBER.

Definition n_k : Expression :=
  PropertyLookup 12 (IdentifierExpr (mkIdentifier 11 "n" true)) "k".
Definition n_v : Expression :=
  PropertyLookup 15 (IdentifierExpr (mkIdentifier 14 "n" true)) "v".
Definition sum_n_v : Expression := Aggregation 16 SUM (Some n_v) None.

Definition return_table : SymbolTable :=
  <[11 := sym_n]> (<[13 := sym_k]> (<[14 := sym_n]> (<[16 := sym_sum]>
    (<[17 := sym_s]> ∅)))).

Definition returning (second : Expression) : ReturnBody :=
  mkReturnBody false false
    [mkNamedExpression 13 "k" n_k; mkNamedExpression 17 "s" second]
    [] None None.

Definition return_k_sum : ReturnBody := returning sum_n_v.

Definition column_plus : Expression :=
  BinaryOperator 18 AdditionOperator n_k sum_n_v.
Definition column_list : Expression := ListLiteral 18 [sum_n_v; n_k].
Definition column_call : Expression := FunctionCall 18 "f" [sum_n_v; n_k].
Definition column_map : Expression :=
  MapLiteral 18 [("x", sum_n_v); ("y", n_k)].

(** The group-by list the classifier collects for a return body. *)
Definition group_by_of (body : ReturnBody) : Outcome (list Expression) :=
  c ← ReturnBodyContext_new body return_table {[sym_n]} (mkStorage 100) None;
  Done (group_by_ c).

(** [... WITH n AS m]: the new symbol [m] replaces what was bound. *)
Definition sym_m : Symbol := mkSymbol "m" 4 true VERTEX.

Definition with_n_as_m : With :=
  mkWith
    (mkReturnBody false false
       [mkNamedExpression 22 "m" (IdentifierExpr (mkIdentifier 21 "n" true))]
       [] None None)
    None.

Definition with_table : SymbolTable := <[21 := sym_n]> (<[22 := sym_m]> ∅).

(** * Notions used by the further properties *)

(** The triples [(prev, edge, node)] of the pattern [first (e1 n1) ...],
    each with the node before its edge. *)
Fixpoint triples_with_prev (prev : NodeAtom)
    (triples : list (EdgeAtom * NodeAtom))
  : list (NodeAtom * EdgeAtom * NodeAtom) :=
  match triples with
  | [] => []
  | (e, n) :: triples => (prev, e, n) :: triples_with_prev n triples
  end.

(** What [ReducePattern] does after [base] on a pattern
    [first (e1 n1) ...]: one call of [collect] per triple, in order, each
    on the result and the state the call before it left. *)
Fixpoint collect_triples {T St}
    (collect : T → NodeAtom → EdgeAtom → NodeAtom → St → Outcome (T * St))
    (triples : list (NodeAtom * EdgeAtom * NodeAtom)) (last_res : T) (s : St)
  : Outcome (T * St) :=
  match triples with
  | [] => Done (last_res, s)
  | (prev, edge, node) :: triples =>
      '(last_res, s) ← collect last_res prev edge node s;
      collect_triples collect triples last_res s
  end.

(** Closures that write every call, with its arguments, to a log they
    capture, and return the number of calls of [collect] so far. *)
Inductive ReduceCall :=
| BaseCall (node : NodeAtom)
| CollectCall (last_res : nat) (prev : NodeAtom) (edge : EdgeAtom)
    (node : NodeAtom).

Definition record_base (node : NodeAtom) (log : list ReduceCall)
  : Outcome (nat * list ReduceCall) :=
  Done (0, log ++ [BaseCall node]).
Definition record_collect (last_res : nat) (prev : NodeAtom) (edge : EdgeAtom)
    (node : NodeAtom) (log : list ReduceCall)
  : Outcome (nat * list ReduceCall) :=
  Done (last_res + 1, log ++ [CollectCall last_res prev edge node]).

(** The closures of the usage example in the comment on [ReducePattern]:
    counting the edge atoms. *)
Definition count_base (first : NodeAtom) (s : unit) : Outcome (nat * unit) :=
  Done (0, s).
Definition count_collect (accum : nat) (prev : NodeAtom) (edge : EdgeAtom)
    (node : NodeAtom) (s : unit) : Outcome (nat * unit) :=
  Done (accum + 1, s).

Definition is_edge_atom (atom : PatternAtom) : bool :=
  match atom with
  | PatternEdge _ => true
  | PatternNode _ => false
  end.

(** The operators CREATE can put on a plan. *)
Definition is_create_operator (op : Operator) : bool :=
  match op with
  | CreateNode _ | CreateExpand _ _ _ _ | ConstructNamedPath _ _ => true
  | _ => false
  end.

(** What a run of CREATE can do to the plan and the bound symbols. *)
Definition create_grows (input_op : LogicalOperator) (bound : gset Symbol)
    (r : LogicalOperator * gset Symbol) : Prop :=
  bound ⊆ r.2
  ∧ ∃ added, operators r.1 = added ++ operators input_op
             ∧ Forall (λ op, is_create_operator op = true) added.


(** The expression has an [Aggregation] node in it. *)
Fixpoint contains_aggregation (e : Expression) : bool :=
  match e with
  | PrimitiveLiteral _ | IdentifierExpr _ | ParameterLookup _ => false
  | ListLiteral _ elements_ => existsb contains_aggregation elements_
  | MapLiteral _ elements_ =>
      existsb (λ pair, contains_aggregation (snd pair)) elements_
  | PropertyLookup _ e' _ | UnaryOperator _ _ e' => contains_aggregation e'
  | BinaryOperator _ _ e1 e2 =>
      contains_aggregation e1 || contains_aggregation e2
  | ListSlicingOperator _ list_ lower upper =>
      contains_aggregation list_
      || from_option contains_aggregation false lower
      || from_option contains_aggregation false upper
  | IfOperator _ e1 e2 e3 =>
      contains_aggregation e1 || contains_aggregation e2
      || contains_aggregation e3
  | FunctionCall _ _ arguments_ => existsb contains_aggregation arguments_
  | Aggregation _ _ _ _ => true
  | All _ _ e' _ w => contains_aggregation e' || contains_aggregation w
  end.

(** The arity the comment in [PostVisit(Aggregation &)] relies on:
    [COLLECT_MAP] has its two expressions, every other aggregation has at
    most the first one (none for [COUNT( * )]). *)
Definition aggregation_arity (op_ : AggregationOp)
    (expression1_ expression2_ : option Expression) : bool :=
  if bool_decide (op_ = COLLECT_MAP)
  then bool_decide (is_Some expression1_) && bool_decide (is_Some expression2_)
  else bool_decide (expression2_ = None).

(** Every [Aggregation] node of the expression has that arity. *)
Fixpoint well_formed (e : Expression) : bool :=
  match e with
  | PrimitiveLiteral _ | IdentifierExpr _ | ParameterLookup _ => true
  | ListLiteral _ elements_ => forallb well_formed elements_
  | MapLiteral _ elements_ => forallb (λ pair, well_formed (snd pair)) elements_
  | PropertyLookup _ e' _ | UnaryOperator _ _ e' => well_formed e'
  | BinaryOperator _ _ e1 e2 => well_formed e1 && well_formed e2
  | ListSlicingOperator _ list_ lower upper =>
      well_formed list_ && from_option well_formed true lower
      && from_option well_formed true upper
  | IfOperator _ e1 e2 e3 => well_formed e1 && well_formed e2 && well_formed e3
  | FunctionCall _ _ arguments_ => forallb well_formed arguments_
  | Aggregation _ op_ e1 e2 =>
      aggregation_arity op_ e1 e2 && from_option well_formed true e1
      && from_option well_formed true e2
  | All _ _ e' _ w => well_formed e' && well_formed w
  end.

(** From [c] to [c'] the classifier has pushed the flags [flags], appended
    to the group-by list only expressions without aggregation, and appended
    aggregations exactly if [has] holds. *)
Definition extends (c c' : ReturnBodyContext) (flags : list bool) (has : bool)
  : Prop :=
  has_aggregation_ c' = has_aggregation_ c ++ flags
  ∧ (∃ gb, group_by_ c' = group_by_ c ++ gb
           ∧ Forall (λ g, contains_aggregation g = false) gb)
  ∧ (∃ aggs, aggregations_ c' = aggregations_ c ++ aggs
             ∧ (aggs = [] ↔ has = false)).

(** A visit of [e] went as the classifier's bookkeeping expects. *)
Definition visited (e : Expression) (v : Visitor) : Prop :=
  ∀ c b c', v c = Done (b, c') →
    b = true
    ∧ extends c c' [contains_aggregation e] (contains_aggregation e).

(** Every expression of the return body and of the WHERE clause is well
    formed. *)
Definition well_formed_body (body : ReturnBody) (w : option Where) : Prop :=
  Forall (λ ne, well_formed (expression_of ne) = true) (named_expressions body)
  ∧ Forall (λ p, well_formed (snd p) = true) (order_by body)
  ∧ from_option (λ w, well_formed (Where_expression_ w) = true) True w.

(** Some named expression of the body contains an aggregation. *)
Definition body_aggregates (body : ReturnBody) : bool :=
  existsb (λ ne, contains_aggregation (expression_of ne))
    (named_expressions body).

(** [... WITH *] and [... RETURN n.k AS k, n.v AS s ORDER BY n.v]. *)
Definition with_star : With :=
  mkWith (mkReturnBody false true [] [] None None) None.

Definition return_k_v_ordered : ReturnBody :=
  with_order_by (returning n_v) [(ASC, n_v)].

(** The CreateExpand operators of a plan, and the edge atoms of the
    patterns of a CREATE clause. *)
Definition is_CreateExpand (op : Operator) : bool :=
  match op with
  | CreateExpand _ _ _ _ => true
  | _ => false
  end.

Definition count_CreateExpand (op : LogicalOperator) : nat :=
  length (filter (λ o, is_CreateExpand o = true) (operators op)).

Definition count_edges (patterns : list Pattern) : nat :=
  length (filter (λ a, is_edge_atom a = true) (concat (atoms_ <$> patterns))).

(** * Notions for the visit of ORDER BY and WHERE *)

(** The expressions of the ORDER BY of a body and of a WHERE clause, in the
    order of the visit. *)
Definition clause_expressions (body : ReturnBody) (w : option Where)
  : list Expression :=
  (snd <$> order_by body) ++ from_option (λ w, [Where_expression_ w]) [] w.

(** What [Visit(Identifier &)] does to the used symbols: the symbol of the
    identifier gets in unless it is an output symbol. *)
Definition use_identifier (st : SymbolTable) (out : list Symbol)
    (ident : Identifier) (used : gset Symbol) : gset Symbol :=
  match st !! Identifier_uid ident with
  | Some symbol =>
      if bool_decide (symbol ∈ out) then used else {[symbol]} ∪ used
  | None => used
  end.

(** The used symbols after the visit of an expression: the identifiers are
    taken up in the order of the visit, and [PostVisit(All &)] erases the
    symbol the quantifier binds. *)
Fixpoint used_after (st : SymbolTable) (out : list Symbol) (e : Expression)
    (used : gset Symbol) : gset Symbol :=
  match e with
  | PrimitiveLiteral _ | ParameterLookup _ => used
  | IdentifierExpr ident => use_identifier st out ident used
  | ListLiteral _ l | FunctionCall _ _ l =>
      foldl (λ used e', used_after st out e' used) used l
  | MapLiteral _ l =>
      foldl (λ used pair, used_after st out (snd pair) used) used l
  | PropertyLookup _ e' _ | UnaryOperator _ _ e' => used_after st out e' used
  | BinaryOperator _ _ e1 e2 =>
      used_after st out e2 (used_after st out e1 used)
  | ListSlicingOperator _ list_ lower upper =>
      let used := used_after st out list_ used in
      let used := from_option (λ e', used_after st out e' used) used lower in
      from_option (λ e', used_after st out e' used) used upper
  | IfOperator _ e1 e2 e3 =>
      used_after st out e3 (used_after st out e2 (used_after st out e1 used))
  | Aggregation _ _ e1 e2 =>
      let used := from_option (λ e', used_after st out e' used) used e1 in
      from_option (λ e', used_after st out e' used) used e2
  | All _ ident list_ _ where_ =>
      let used := use_identifier st out ident used in
      let used := used_after st out list_ used in
      let used := used_after st out where_ used in
      match st !! Identifier_uid ident with
      | Some symbol => used ∖ {[symbol]}
      | None => used
      end
  end.

Definition used_after_each (st : SymbolTable) (out : list Symbol)
    (l : list Expression) (used : gset Symbol) : gset Symbol :=
  foldl (λ used e, used_after st out e used) used l.

(** An expression the classifier can visit after the named expressions
    brought no aggregation: it has no aggregation in it and every
    identifier of it has a symbol. *)
Fixpoint plain (st : SymbolTable) (e : Expression) : bool :=
  match e with
  | PrimitiveLiteral _ | ParameterLookup _ => true
  | IdentifierExpr ident => bool_decide (is_Some (st !! Identifier_uid ident))
  | ListLiteral _ l | FunctionCall _ _ l => forallb (plain st) l
  | MapLiteral _ l => forallb (λ pair, plain st (snd pair)) l
  | PropertyLookup _ e' _ | UnaryOperator _ _ e' => plain st e'
  | BinaryOperator _ _ e1 e2 => plain st e1 && plain st e2
  | ListSlicingOperator _ list_ lower upper =>
      plain st list_ && from_option (plain st) true lower
      && from_option (plain st) true upper
  | IfOperator _ e1 e2 e3 => plain st e1 && plain st e2 && plain st e3
  | Aggregation _ _ _ _ => false
  | All _ ident list_ _ where_ =>
      bool_decide (is_Some (st !! Identifier_uid ident))
      && plain st list_ && plain st where_
  end.

(** The identifiers of an expression, and whether it is free of
    quantifiers ([All]). *)
Fixpoint identifiers (e : Expression) : list Identifier :=
  match e with
  | PrimitiveLiteral _ | ParameterLookup _ => []
  | IdentifierExpr ident => [ident]
  | ListLiteral _ l | FunctionCall _ _ l => concat (identifiers <$> l)
  | MapLiteral _ l => concat ((λ pair, identifiers (snd pair)) <$> l)
  | PropertyLookup _ e' _ | UnaryOperator _ _ e' => identifiers e'
  | BinaryOperator _ _ e1 e2 => identifiers e1 ++ identifiers e2
  | ListSlicingOperator _ list_ lower upper =>
      identifiers list_ ++ from_option identifiers [] lower
      ++ from_option identifiers [] upper
  | IfOperator _ e1 e2 e3 =>
      identifiers e1 ++ identifiers e2 ++ identifiers e3
  | Aggregation _ _ e1 e2 =>
      from_option identifiers [] e1 ++ from_option identifiers [] e2
  | All _ ident list_ _ where_ =>
      ident :: identifiers list_ ++ identifiers where_
  end.

Fixpoint quantifier_free (e : Expression) : bool :=
  match e with
  | PrimitiveLiteral _ | ParameterLookup _ | IdentifierExpr _ => true
  | ListLiteral _ l | FunctionCall _ _ l => forallb quantifier_free l
  | MapLiteral _ l => forallb (λ pair, quantifier_free (snd pair)) l
  | PropertyLookup _ e' _ | UnaryOperator _ _ e' => quantifier_free e'
  | BinaryOperator _ _ e1 e2 => quantifier_free e1 && quantifier_free e2
  | ListSlicingOperator _ list_ lower upper =>
      quantifier_free list_ && from_option quantifier_free true lower
      && from_option quantifier_free true upper
  | IfOperator _ e1 e2 e3 =>
      quantifier_free e1 && quantifier_free e2 && quantifier_free e3
  | Aggregation _ _ e1 e2 =>
      from_option quantifier_free true e1
      && from_option quantifier_free true e2
  | All _ _ _ _ _ => false
  end.

(** The classifier [c] with the given used symbols and with flags pushed
    on [has_aggregation_]. *)
Definition at_state (c : ReturnBodyContext) (used : gset Symbol)
    (flags : list bool) : ReturnBodyContext :=
  mkReturnBodyContext (body_ c) (symbol_table_ c) (bound_symbols_ c)
    (storage_ c) (where_ c) used (output_symbols_ c) (aggregations_ c)
    (group_by_ c) (has_aggregation_ c ++ flags) (named_expressions_ c).
#[global] Arguments at_state : simpl never.

(** The visit of a plain expression, as a change of state. *)
Definition visits_plain (e : Expression) : Prop :=
  ∀ c used flags,
    plain (symbol_table_ c) e = true →
    Accept e (at_state c used flags)
    = Done (true,
            at_state c
              (used_after (symbol_table_ c) (output_symbols_ c) e used)
              (flags ++ [false])).

(** A visitor method that returns [true] and writes neither to the symbol
    table nor to [aggregations_]. *)
Definition quiet (v : Visitor) : Prop :=
  ∀ c b c', v c = Done (b, c') →
    b = true ∧ symbol_table_ c' = symbol_table_ c
    ∧ aggregations_ c' = aggregations_ c.

(** A visit that, when it returns, has gone through the whole expression:
    it has met an aggregation, and then [aggregations_] has grown, or the
    expression is plain. *)
Definition returns_plain (e : Expression) : Prop :=
  ∀ c b c', Accept e c = Done (b, c') →
    b = true ∧ symbol_table_ c' = symbol_table_ c
    ∧ ∃ aggs, aggregations_ c' = aggregations_ c ++ aggs
              ∧ (plain (symbol_table_ c) e = true ∨ aggs ≠ []).

(** [s] is the symbol of one of the identifiers and no output symbol. *)
Definition taken_up (st : SymbolTable) (out : list Symbol)
    (ids : list Identifier) (s : Symbol) : Prop :=
  (s ∉ out) ∧ ∃ ident, ident ∈ ids ∧ st !! Identifier_uid ident = Some s.

(** [MATCH (n), (m) RETURN n.k AS k ORDER BY m.v]. *)
Definition m_v : Expression :=
  PropertyLookup 32 (IdentifierExpr (mkIdentifier 31 "m" true)) "v".

Definition return_k_by_m : ReturnBody :=
  mkReturnBody false false [mkNamedExpression 13 "k" n_k] [(ASC, m_v)]
    None None.

Definition return_by_m_table : SymbolTable := <[31 := sym_m]> return_table.
(** * Properties *)

(** ** GenReturnBody *)

Lemma operators_GenReturnBody input_op advance_command body accumulate :
  operators (GenReturnBody input_op advance_command body accumulate) =
  rev (return_body_pipeline advance_command body accumulate)
  ++ operators input_op.
Proof.
  unfold GenReturnBody, return_body_pipeline, when, when_some.
  destruct accumulate, (aggregations_ body) as [|a l], (distinct (body_ body)),
    (order_by (body_ body)) as [|o l'], (skip (body_ body)),
    (limit (body_ body)), (where_ body); reflexivity.
Qed.

Lemma kinds_return_body_pipeline advance_command body accumulate :
  kind_of <$> return_body_pipeline advance_command body accumulate =
  filter (λ k, in_return_body body accumulate k = true) return_body_order.
Proof.
  unfold return_body_pipeline, return_body_order, when, when_some.
  destruct body as [[d ai ne ob sk li] st bs sto w us os ag gb ha nes]; simpl.
  destruct accumulate, ag, d, ob, sk, li, w; reflexivity.
Qed.

(** C1. The operators [GenReturnBody] puts above its input are, bottom-up,
    Accumulate, Aggregate, Produce, Distinct, OrderBy, Skip, Limit and
    Filter, in this order, where Produce is always there and each of the
    others is there exactly when its condition holds ([accumulate], a
    nonempty aggregation list, [distinct], a nonempty ORDER BY, a SKIP
    expression, a LIMIT expression, a WHERE clause); a Filter is the topmost
    operator of the result exactly when there is a WHERE clause. *)
Theorem GenReturnBody_order input_op advance_command body accumulate :
  let plan := GenReturnBody input_op advance_command body accumulate in
  let emitted := return_body_pipeline advance_command body accumulate in
  operators plan = rev emitted ++ operators input_op
  ∧ kind_of <$> emitted =
      filter (λ k, in_return_body body accumulate k = true) return_body_order
  ∧ (kind_of <$> head (operators plan) = Some KFilter ↔ is_Some (where_ body)).
Proof.
  split; [apply operators_GenReturnBody|].
  split; [apply kinds_return_body_pipeline|].
  unfold GenReturnBody.
  destruct (where_ body) as [w|]; simpl.
  { split; eauto. }
  split; [|by intros [? ?]].
  destruct (limit (body_ body)); [done|].
  destruct (skip (body_ body)); [done|].
  destruct (negb (bool_decide (order_by (body_ body) = []))); [done|].
  by destruct (distinct (body_ body)).
Qed.

(** ** The filter store *)

Lemma HasBoundFilterSymbols_subseteq bound_symbols f :
  HasBoundFilterSymbols bound_symbols f = true ↔ bound_filter bound_symbols f.
Proof.
  unfold HasBoundFilterSymbols, bound_filter.
  rewrite forallb_forall. split.
  - intros Hall s Hs. apply elem_of_elements, list_elem_of_In in Hs.
    apply Hall in Hs. by apply bool_decide_eq_true in Hs.
  - intros Hsub s Hs. apply bool_decide_eq_true_2, Hsub.
    by apply elem_of_elements, list_elem_of_In.
Qed.

Lemma join_onto_None storage es :
  join_onto (None, storage) es = AndJoin storage es.
Proof.
  destruct es as [|e es]; [done|]. simpl.
  generalize e storage. clear e storage.
  induction es as [|e' es IH]; intros e storage; [done|].
  simpl. by rewrite IH.
Qed.

Lemma ExtractFilters_loop_spec bound_symbols from_it :
  ∀ kept filter_expr storage,
    ExtractFilters_loop bound_symbols kept from_it filter_expr storage =
    let joined :=
      join_onto (filter_expr, storage)
        (FilterInfo_expression <$> filter (bound_filter bound_symbols) from_it)
    in
    (joined.1,
     kept ++ filter (λ f, ¬ bound_filter bound_symbols f) from_it,
     joined.2).
Proof.
  induction from_it as [|f rest IH]; intros kept filter_expr storage.
  { simpl. by rewrite app_nil_r. }
  simpl ExtractFilters_loop.
  destruct (HasBoundFilterSymbols bound_symbols f) eqn:Hf.
  - apply HasBoundFilterSymbols_subseteq in Hf.
    rewrite filter_cons_True by done.
    rewrite filter_cons_False by (by intros Hn).
    destruct (BoolJoin_AndOperator storage filter_expr
                (FilterInfo_expression f)) as [e storage'] eqn:Hjoin.
    rewrite IH. simpl. unfold join_onto at 3 4. simpl. by rewrite Hjoin.
  - assert (¬ bound_filter bound_symbols f) as Hn.
    { intros Hb. apply HasBoundFilterSymbols_subseteq in Hb. congruence. }
    rewrite filter_cons_False by done.
    rewrite filter_cons_True by done.
    rewrite IH. simpl. by rewrite <- app_assoc.
Qed.

Lemma AndJoin_None storage es : (AndJoin storage es).1 = None ↔ es = [].
Proof.
  destruct es as [|e es]; [done|]. simpl.
  destruct (foldl _ _ _). simpl. split; discriminate.
Qed.

Lemma no_bound_filter bound_symbols (filters : list FilterInfo) :
  (∀ f, f ∈ filters → ¬ bound_filter bound_symbols f) →
  filter (bound_filter bound_symbols) filters = [].
Proof.
  induction filters as [|f l IH]; intros Hall; [done|].
  rewrite filter_cons_False by (apply Hall; left).
  apply IH. intros g Hg. apply Hall. by right.
Qed.

(** C3. [ExtractFilters] removes from the store exactly the filters whose
    used symbols are all in the bound set, returns the AND-join of their
    expressions in list order, and leaves the other filters in the store,
    unchanged and in their order; it returns no predicate exactly when no
    stored filter qualified. *)
Theorem ExtractFilters_spec bound_symbols filters storage :
  let qualifying := filter (bound_filter bound_symbols) filters in
  let joined := AndJoin storage (FilterInfo_expression <$> qualifying) in
  ExtractFilters bound_symbols filters storage =
    (joined.1,
     filter (λ f, ¬ bound_filter bound_symbols f) filters,
     joined.2)
  ∧ ((ExtractFilters bound_symbols filters storage).1.1 = None
     ↔ ∀ f, f ∈ filters → ¬ bound_filter bound_symbols f).
Proof.
  intros qualifying joined.
  assert (ExtractFilters bound_symbols filters storage =
          (joined.1, filter (λ f, ¬ bound_filter bound_symbols f) filters,
           joined.2)) as Heq.
  { unfold ExtractFilters. rewrite ExtractFilters_loop_spec.
    simpl. by rewrite join_onto_None. }
  split; [done|].
  rewrite Heq. simpl. unfold joined. rewrite AndJoin_None.
  unfold qualifying. split.
  - intros Hnil%fmap_nil_inv f Hf Hb.
    by apply (filter_nil_not_elem_of _ _ f Hnil Hb).
  - intros Hall.
    by rewrite no_bound_filter.
Qed.

(** ** The named-path builder *)

Lemma all_are_bound_true bound_symbols syms :
  all_are_bound bound_symbols syms = true ↔ ∀ s, s ∈ syms → s ∈ bound_symbols.
Proof.
  unfold all_are_bound. rewrite forallb_forall. split.
  - intros Hall s Hs%list_elem_of_In. apply Hall in Hs.
    by apply bool_decide_eq_true in Hs.
  - intros Hall s Hs%list_elem_of_In. by apply bool_decide_eq_true_2, Hall.
Qed.

Lemma GenNamedPaths_loop_app l1 : ∀ l2 last_op bound_symbols kept,
  GenNamedPaths_loop last_op bound_symbols kept (l1 ++ l2) =
  let r := GenNamedPaths_loop last_op bound_symbols kept l1 in
  GenNamedPaths_loop r.1.1 r.1.2 r.2 l2.
Proof.
  induction l1 as [|x l1 IH]; intros l2 last_op bound_symbols kept; [done|].
  simpl. destruct (all_are_bound bound_symbols x.2); apply IH.
Qed.

Lemma GenNamedPaths_loop_kept l : ∀ last_op bound_symbols kept,
  GenNamedPaths_loop last_op bound_symbols kept l =
  let r := GenNamedPaths_loop last_op bound_symbols [] l in
  (r.1.1, r.1.2, kept ++ r.2).
Proof.
  induction l as [|x l IH]; intros last_op bound_symbols kept.
  { simpl. by rewrite app_nil_r. }
  simpl. destruct (all_are_bound bound_symbols x.2).
  - apply IH.
  - rewrite IH. rewrite (IH _ _ [x]). simpl. by rewrite <- app_assoc.
Qed.

(** What a run of the loop can do at most: push operators, bind path
    symbols of the entries it saw, and keep entries it saw. *)
Lemma GenNamedPaths_loop_grows l : ∀ last_op bound_symbols,
  let r := GenNamedPaths_loop last_op bound_symbols [] l in
  (∃ above, operators r.1.1 = above ++ operators last_op)
  ∧ bound_symbols ⊆ r.1.2
  ∧ (∀ s, s ∈ r.1.2 → s ∈ bound_symbols ∨ s ∈ l.*1)
  ∧ (∀ x, x ∈ r.2 → x ∈ l).
Proof.
  induction l as [|x l IH]; intros last_op bound_symbols.
  { simpl. split; [by exists []|]. split; [done|]. split; [by left|done]. }
  simpl. destruct (all_are_bound bound_symbols x.2).
  - destruct (IH (New (ConstructNamedPath x.1 x.2) last_op)
                ({[x.1]} ∪ bound_symbols)) as ([above Ha] & Hb & Hc & Hd).
    split.
    { exists (above ++ [ConstructNamedPath x.1 x.2]).
      rewrite Ha. simpl. by rewrite <- app_assoc. }
    split; [set_solver|]. split.
    + intros s Hs. destruct (Hc s Hs) as [H|H]; set_solver.
    + intros y Hy. right. by apply Hd.
  - rewrite GenNamedPaths_loop_kept. simpl.
    destruct (IH last_op bound_symbols) as (Ha & Hb & Hc & Hd).
    split; [done|]. split; [done|]. split.
    + intros s Hs. destruct (Hc s Hs) as [H|H]; set_solver.
    + intros y Hy. apply elem_of_cons in Hy as [->|Hy]; [left|right; auto].
Qed.

(** C10. Take any entry [(path, atoms)] of the pending map and let
    [bound_at] be the bound set when the loop of [GenNamedPaths] reaches it
    (the given set, plus the path symbols bound for earlier entries; the two
    agree on [atoms] when no atom is the path symbol of an earlier entry).
    If all atoms are bound, a ConstructNamedPath for the entry is put on top
    of the operators built so far, the path symbol is in the bound set
    afterwards, and the entry is gone from the pending map. If some atom is
    unbound, the entry stays pending, and the operator tail and the bound
    set are those of the run without the entry. *)
Theorem GenNamedPaths_entry last_op bound_symbols before path atoms after :
  NoDup ((before ++ (path, atoms) :: after).*1) →
  let at_entry := GenNamedPaths last_op bound_symbols before in
  let result :=
    GenNamedPaths last_op bound_symbols (before ++ (path, atoms) :: after) in
  let without := GenNamedPaths last_op bound_symbols (before ++ after) in
  let bound_at := at_entry.1.2 in
  (bound_symbols ⊆ bound_at ∧ bound_at ⊆ result.1.2)
  ∧ ((∀ s, s ∈ atoms → s ∉ before.*1) →
     ∀ s, s ∈ atoms → s ∈ bound_at ↔ s ∈ bound_symbols)
  ∧ ((∀ s, s ∈ atoms → s ∈ bound_at) →
     (∃ above,
        operators result.1.1 =
        above ++ ConstructNamedPath path atoms :: operators at_entry.1.1)
     ∧ path ∈ result.1.2
     ∧ path ∉ result.2.*1)
  ∧ (¬ (∀ s, s ∈ atoms → s ∈ bound_at) →
     (path, atoms) ∈ result.2
     ∧ result.1.1 = without.1.1
     ∧ result.1.2 = without.1.2
     ∧ ∃ rest, result.2 = at_entry.2 ++ (path, atoms) :: rest
               ∧ without.2 = at_entry.2 ++ rest).
Proof.
  intros Hnodup at_entry result without bound_at.
  unfold GenNamedPaths in *.
  assert (result =
          GenNamedPaths_loop at_entry.1.1 bound_at at_entry.2
            ((path, atoms) :: after)) as Hres.
  { unfold result. by rewrite GenNamedPaths_loop_app. }
  assert (without =
          GenNamedPaths_loop at_entry.1.1 bound_at at_entry.2 after) as Hwo.
  { unfold without. by rewrite GenNamedPaths_loop_app. }
  destruct (GenNamedPaths_loop_grows before last_op bound_symbols)
    as (_ & Hsub & Hfrom & Hkept). fold at_entry in Hsub, Hfrom, Hkept.
  fold bound_at in Hsub, Hfrom.
  rewrite fmap_app, fmap_cons in Hnodup. simpl in Hnodup.
  apply NoDup_app in Hnodup as (Hnd1 & Hnot & Hnd2).
  apply NoDup_cons in Hnd2 as [Hnotin Hnd2].
  simpl in Hres.
  destruct (all_are_bound bound_at atoms) eqn:Hall.
  - (* emitted *)
    rewrite GenNamedPaths_loop_kept in Hres. simpl in Hres.
    destruct (GenNamedPaths_loop_grows after
                (New (ConstructNamedPath path atoms) at_entry.1.1)
                ({[path]} ∪ bound_at)) as ([above Ha] & Hb & Hc & Hd).
    split; [split; [done|rewrite Hres; simpl; set_solver]|].
    split.
    { intros Hfresh s Hs. split; [|by apply Hsub].
      intros Hin. destruct (Hfrom s Hin) as [?|Hbad]; [done|].
      by destruct (Hfresh s Hs). }
    split.
    + intros _. rewrite Hres. simpl. split; [by exists above|].
      split; [set_solver|].
      rewrite fmap_app. intros [Hin|Hin]%elem_of_app.
      * apply list_elem_of_fmap in Hin as (x & -> & Hx).
        apply Hkept in Hx. apply (Hnot x.1); [|left].
        by apply list_elem_of_fmap_2.
      * apply list_elem_of_fmap in Hin as (x & Heq & Hx).
        apply Hd in Hx. apply Hnotin. rewrite Heq.
        by apply list_elem_of_fmap_2.
    + intros Hno. destruct Hno. by apply all_are_bound_true.
  - (* kept *)
    assert (¬ (∀ s, s ∈ atoms → s ∈ bound_at)) as Hno.
    { intros Hb. apply all_are_bound_true in Hb. fold bound_at in Hb.
      congruence. }
    rewrite GenNamedPaths_loop_kept in Hres, Hwo. simpl in Hres, Hwo.
    destruct (GenNamedPaths_loop_grows after at_entry.1.1 bound_at)
      as (_ & Hb & _ & _).
    split; [split; [done|by rewrite Hres]|].
    split.
    { intros Hfresh s Hs. split; [|by apply Hsub].
      intros Hin. destruct (Hfrom s Hin) as [?|Hbad]; [done|].
      by destruct (Hfresh s Hs). }
    split; [done|].
    intros _. rewrite Hres, Hwo. simpl.
    split; [set_solver|]. split; [done|]. split; [done|].
    eexists. split; [|done]. by rewrite <- app_assoc.
Qed.

(** ** CREATE *)

Lemma SymbolTable_at_Some (symbol_table : SymbolTable) uid s :
  symbol_table !! uid = Some s → SymbolTable_at symbol_table uid = Done s.
Proof. unfold SymbolTable_at. by intros ->. Qed.

Lemma GenCreateForPattern_base_eq input_op (st : SymbolTable) node bound s0 :
  st !! Identifier_uid (NodeAtom_identifier_ node) = Some s0 →
  GenCreateForPattern_base input_op st node bound =
  Done (if bool_decide (s0 ∈ bound) then input_op
        else New (CreateNode node) input_op,
        {[s0]} ∪ bound).
Proof.
  intros Hs. unfold GenCreateForPattern_base.
  rewrite (SymbolTable_at_Some _ _ _ Hs). simpl.
  by destruct (bool_decide (s0 ∈ bound)).
Qed.

Lemma GenCreateForPattern_collect_eq (st : SymbolTable) prev e n last_op
    bound cs es ns :
  st !! Identifier_uid (NodeAtom_identifier_ prev) = Some cs →
  st !! Identifier_uid (EdgeAtom_identifier_ e) = Some es →
  st !! Identifier_uid (NodeAtom_identifier_ n) = Some ns →
  GenCreateForPattern_collect st last_op prev e n bound =
  if bool_decide (es = ns ∨ es ∈ bound)
  then Abort (Fatal edge_redeclaration_msg)
  else Done (New (CreateExpand n e cs (bool_decide (ns ∈ bound))) last_op,
             {[es]} ∪ ({[ns]} ∪ bound)).
Proof.
  intros Hcs Hes Hns. unfold GenCreateForPattern_collect.
  rewrite (SymbolTable_at_Some _ _ _ Hcs), (SymbolTable_at_Some _ _ _ Hns),
    (SymbolTable_at_Some _ _ _ Hes). simpl.
  assert (bool_decide (es ∈ {[ns]} ∪ bound)
          = bool_decide (es = ns ∨ es ∈ bound)) as ->.
  { apply bool_decide_ext. rewrite elem_of_union, elem_of_singleton. done. }
  destruct (bool_decide (es = ns ∨ es ∈ bound)); simpl; [done|].
  by destruct (bool_decide (ns ∈ bound)).
Qed.

(** One turn of the loop of [ReducePattern] under the closures of
    [GenCreateForPattern]. *)
Lemma GenCreateForPattern_step (st : SymbolTable) rest cur e n
    last_op bound cs es ns :
  st !! Identifier_uid (NodeAtom_identifier_ cur) = Some cs →
  st !! Identifier_uid (EdgeAtom_identifier_ e) = Some es →
  st !! Identifier_uid (NodeAtom_identifier_ n) = Some ns →
  ReducePattern_loop (GenCreateForPattern_collect st)
    (PatternEdge e :: PatternNode n :: rest) cur last_op bound =
  if bool_decide (es = ns ∨ es ∈ bound)
  then Abort (Fatal edge_redeclaration_msg)
  else
    ReducePattern_loop (GenCreateForPattern_collect st) rest n
      (New (CreateExpand n e cs (bool_decide (ns ∈ bound))) last_op)
      ({[es]} ∪ ({[ns]} ∪ bound)).
Proof.
  intros Hcs Hes Hns. cbn [ReducePattern_loop].
  rewrite (GenCreateForPattern_collect_eq st cur e n last_op bound cs es ns)
    by done.
  by destruct (bool_decide (es = ns ∨ es ∈ bound)).
Qed.

Lemma path_elements_loop (st : SymbolTable) atoms : ∀ syms acc,
  Forall2 (λ a s, st !! Identifier_uid (PatternAtom_identifier_ a) = Some s)
    atoms syms →
  for_each (λ path_elements atom,
      symbol ← SymbolTable_at st
                 (Identifier_uid (PatternAtom_identifier_ atom));
      Done (emplace_back path_elements symbol)) atoms acc =
  Done (acc ++ syms).
Proof.
  induction atoms as [|a atoms IH]; intros syms acc Hall.
  { apply Forall2_nil_inv_l in Hall as ->. simpl. by rewrite app_nil_r. }
  apply Forall2_cons_inv_l in Hall as (s & syms' & Hs & Hall & ->).
  simpl. rewrite (SymbolTable_at_Some _ _ _ Hs). simpl.
  rewrite (IH syms'); [|done]. unfold emplace_back. by rewrite <- app_assoc.
Qed.

Lemma chain_atoms_symbols (st : SymbolTable) triples : ∀ tsyms,
  triples_symbols st triples tsyms →
  Forall2 (λ a s, st !! Identifier_uid (PatternAtom_identifier_ a) = Some s)
    (triples_atoms triples) (pair_symbols tsyms).
Proof.
  induction triples as [|[e n] triples IH]; intros tsyms Hall.
  { apply Forall2_nil_inv_l in Hall as ->. constructor. }
  apply Forall2_cons_inv_l in Hall as ([es ns] & tsyms' & [He Hn] & Hall & ->).
  simpl in *. repeat constructor; [done..|]. by apply IH.
Qed.

(** The loop on a pattern none of whose edges re-declares a symbol. *)
Lemma GenCreateForPattern_loop_ok (st : SymbolTable) triples :
  ∀ tsyms cur cs last_op bound,
    st !! Identifier_uid (NodeAtom_identifier_ cur) = Some cs →
    triples_symbols st triples tsyms →
    (∀ i es ns, tsyms !! i = Some (es, ns) →
       es ≠ ns ∧ es ∉ bound ∪ list_to_set (pair_symbols (take i tsyms))) →
    ∃ plan expands,
      ReducePattern_loop (GenCreateForPattern_collect st)
        (triples_atoms triples) cur last_op bound =
      Done (plan, bound ∪ list_to_set (pair_symbols tsyms))
      ∧ operators plan = rev expands ++ operators last_op
      ∧ length expands = length triples
      ∧ ∀ i e n es ns,
          triples !! i = Some (e, n) → tsyms !! i = Some (es, ns) →
          ∃ prev,
            (cs :: tsyms.*2) !! i = Some prev
            ∧ expands !! i =
              Some (CreateExpand n e prev
                      (bool_decide
                         (ns ∈ bound
                               ∪ list_to_set (pair_symbols (take i tsyms))))).
Proof.
  induction triples as [|[e n] triples IH];
    intros tsyms cur cs last_op bound Hcs Hall Hfresh.
  { apply Forall2_nil_inv_l in Hall as ->. exists last_op, []. simpl.
    split; [by rewrite union_empty_r_L|]. split; [done|]. split; [done|].
    intros i ????. by rewrite lookup_nil. }
  apply Forall2_cons_inv_l in Hall as ([es ns] & tsyms' & [He Hn] & Hall & ->).
  simpl in He, Hn.
  simpl triples_atoms.
  rewrite (GenCreateForPattern_step st _ cur e n last_op bound cs es ns)
    by done.
  destruct (Hfresh 0 es ns eq_refl) as [Hne Hnotin]. simpl in Hnotin.
  rewrite bool_decide_eq_false_2 by set_solver.
  destruct (IH tsyms' n ns
              (New (CreateExpand n e cs (bool_decide (ns ∈ bound))) last_op)
              ({[es]} ∪ ({[ns]} ∪ bound)) Hn Hall)
    as (plan & expands & Hrun & Hops & Hlen & Hith).
  { intros i es' ns' Hi. destruct (Hfresh (S i) es' ns' Hi) as [? Hni].
    split; [done|]. simpl in Hni. set_solver. }
  exists plan, (CreateExpand n e cs (bool_decide (ns ∈ bound)) :: expands).
  split.
  { rewrite Hrun. do 2 f_equal. simpl. set_solver. }
  split.
  { rewrite Hops. simpl. by rewrite <- app_assoc. }
  split; [simpl; by rewrite Hlen|].
  intros [|i] e' n' es' ns' Ht Hts; simpl in Ht, Hts.
  - injection Ht as <- <-. injection Hts as <- <-.
    exists cs. split; [done|]. simpl. do 2 f_equal.
    apply bool_decide_ext. set_solver.
  - destruct (Hith i e' n' es' ns' Ht Hts) as (prev & Hprev & Hexp).
    exists prev. split; [done|]. simpl. rewrite Hexp. do 2 f_equal.
    apply bool_decide_ext. set_solver.
Qed.

(** The loop on a pattern one of whose edges re-declares a symbol. *)
Lemma GenCreateForPattern_loop_fatal (st : SymbolTable) triples :
  ∀ tsyms cur cs last_op bound,
    st !! Identifier_uid (NodeAtom_identifier_ cur) = Some cs →
    triples_symbols st triples tsyms →
    (∃ i es ns, tsyms !! i = Some (es, ns)
       ∧ (es = ns
          ∨ es ∈ bound ∪ list_to_set (pair_symbols (take i tsyms)))) →
    ReducePattern_loop (GenCreateForPattern_collect st)
      (triples_atoms triples) cur last_op bound =
    Abort (Fatal edge_redeclaration_msg).
Proof.
  induction triples as [|[e n] triples IH];
    intros tsyms cur cs last_op bound Hcs Hall (i & es' & ns' & Hi & Hre).
  { apply Forall2_nil_inv_l in Hall as ->. by rewrite lookup_nil in Hi. }
  apply Forall2_cons_inv_l in Hall as ([es ns] & tsyms' & [He Hn] & Hall & ->).
  simpl in He, Hn. simpl triples_atoms.
  rewrite (GenCreateForPattern_step st _ cur e n last_op bound cs es ns)
    by done.
  destruct (bool_decide (es = ns ∨ es ∈ bound)) eqn:Hfirst; [done|].
  apply bool_decide_eq_false in Hfirst.
  destruct i as [|i]; simpl in Hi.
  { injection Hi as <- <-. simpl in Hre. destruct Hfirst. set_solver. }
  apply (IH tsyms' n ns); [done..|].
  exists i, es', ns'. split; [done|].
  destruct Hre as [?|Hre]; [by left|right]. simpl in Hre. set_solver.
Qed.

Lemma pair_symbols_snd tsyms s :
  s ∈ tsyms.*2 → s ∈ pair_symbols tsyms.
Proof.
  induction tsyms as [|[es ns] tsyms IH]; simpl; [done|].
  intros [->|Hin]%elem_of_cons; [set_solver|].
  right. right. by apply IH.
Qed.

(** C8. On a pattern [first (e1 n1) ... (ek nk)] whose atoms all have a
    symbol and none of whose edges re-declares a symbol,
    [GenCreateForPattern] returns a plan that consists, bottom-up above the
    input, of a CreateNode for the first node iff its symbol was not bound
    (otherwise the input is passed through), then one CreateExpand per
    triple, whose input symbol is the symbol of the previous node and whose
    node is marked existing iff its symbol was bound when the triple was
    reached, and last a ConstructNamedPath over the symbols of all atoms iff
    the identifier of the pattern is user declared; afterwards the symbols
    of all atoms are bound. *)
Theorem GenCreateForPattern_plan pattern input_op (st : SymbolTable) bound
    first triples s0 tsyms psym :
  atoms_ pattern = chain_atoms first triples →
  st !! Identifier_uid (NodeAtom_identifier_ first) = Some s0 →
  triples_symbols st triples tsyms →
  (Identifier_user_declared_ (Pattern_identifier_ pattern) = true →
   st !! Identifier_uid (Pattern_identifier_ pattern) = Some psym) →
  (∀ i, ¬ edge_redeclared bound s0 tsyms i) →
  ∃ plan expands,
    GenCreateForPattern pattern input_op st bound =
    Done (plan, bound ∪ {[s0]} ∪ list_to_set (pair_symbols tsyms))
    ∧ operators plan =
      when (Identifier_user_declared_ (Pattern_identifier_ pattern))
        (ConstructNamedPath psym (s0 :: pair_symbols tsyms))
      ++ rev expands
      ++ when (negb (bool_decide (s0 ∈ bound))) (CreateNode first)
      ++ operators input_op
    ∧ length expands = length triples
    ∧ ∀ i e n es ns,
        triples !! i = Some (e, n) → tsyms !! i = Some (es, ns) →
        ∃ prev,
          (s0 :: tsyms.*2) !! i = Some prev
          ∧ expands !! i =
            Some (CreateExpand n e prev
                    (bool_decide
                       (ns ∈ bound_before_triple bound s0 tsyms i))).
Proof.
  intros Hatoms Hs0 Hsyms Hpath Hfresh.
  destruct (GenCreateForPattern_loop_ok st triples tsyms first s0
              (if bool_decide (s0 ∈ bound) then input_op
               else New (CreateNode first) input_op)
              ({[s0]} ∪ bound) Hs0 Hsyms)
    as (plan & expands & Hrun & Hops & Hlen & Hith).
  { intros i es ns Hi.
    destruct (decide (es = ns)) as [->|Hne].
    { destruct (Hfresh i). exists ns, ns. auto. }
    split; [done|]. intros Hin. destruct (Hfresh i). exists es, ns.
    split; [done|]. right. unfold bound_before_triple. set_solver. }
  assert (ReducePattern (GenCreateForPattern_base input_op st)
            (GenCreateForPattern_collect st) pattern bound =
          Done (plan, bound ∪ {[s0]} ∪ list_to_set (pair_symbols tsyms)))
    as Hreduce.
  { unfold ReducePattern. rewrite Hatoms. unfold chain_atoms.
    rewrite (GenCreateForPattern_base_eq input_op st first bound s0 Hs0).
    simpl. rewrite Hrun. do 2 f_equal. set_solver. }
  assert (operators plan =
          rev expands ++ when (negb (bool_decide (s0 ∈ bound)))
                           (CreateNode first) ++ operators input_op)
    as Hops'.
  { rewrite Hops. by destruct (bool_decide (s0 ∈ bound)). }
  assert (∀ i e n es ns,
             triples !! i = Some (e, n) → tsyms !! i = Some (es, ns) →
             ∃ prev, (s0 :: tsyms.*2) !! i = Some prev
               ∧ expands !! i =
                 Some (CreateExpand n e prev
                         (bool_decide
                            (ns ∈ bound_before_triple bound s0 tsyms i))))
    as Hith'.
  { intros i e n es ns Ht Hts.
    destruct (Hith i e n es ns Ht Hts) as (prev & Hprev & Hexp).
    exists prev. split; [done|]. rewrite Hexp. do 2 f_equal.
    apply bool_decide_ext. unfold bound_before_triple. set_solver. }
  unfold GenCreateForPattern. rewrite Hreduce. simpl.
  destruct (Identifier_user_declared_ (Pattern_identifier_ pattern)) eqn:Hud.
  - rewrite (path_elements_loop st (atoms_ pattern) (s0 :: pair_symbols tsyms)).
    2:{ rewrite Hatoms. unfold chain_atoms. constructor; [done|].
        by apply chain_atoms_symbols. }
    simpl. rewrite (SymbolTable_at_Some _ _ _ (Hpath eq_refl)). simpl.
    eexists _, expands. split; [done|]. simpl. rewrite Hops'. done.
  - exists plan, expands. by rewrite Hops'.
Qed.

(** C5 as the code has it. On a pattern [first (e1 n1) ... (ek nk)] whose
    atoms all have a symbol, if the edge of some triple re-declares a symbol
    (its symbol is bound when the triple is reached, or is the one of the
    triple's node), [GenCreateForPattern] does not return: it aborts the
    process with LOG(FATAL) and the message of the code, and raises no typed
    planner error. *)
Theorem GenCreateForPattern_edge_redeclared pattern input_op
    (st : SymbolTable) bound first triples s0 tsyms i :
  atoms_ pattern = chain_atoms first triples →
  st !! Identifier_uid (NodeAtom_identifier_ first) = Some s0 →
  triples_symbols st triples tsyms →
  edge_redeclared bound s0 tsyms i →
  let result := GenCreateForPattern pattern input_op st bound in
  result = Abort (Fatal edge_redeclaration_msg)
  ∧ is_abort result = true
  ∧ is_planner_error result = false.
Proof.
  intros Hatoms Hs0 Hsyms (es & ns & Hi & Hre) result.
  assert (result = Abort (Fatal edge_redeclaration_msg)) as ->; [|done].
  unfold result, GenCreateForPattern, ReducePattern.
  rewrite Hatoms. unfold chain_atoms.
  rewrite (GenCreateForPattern_base_eq input_op st first bound s0 Hs0).
  simpl.
  rewrite (GenCreateForPattern_loop_fatal st triples tsyms first s0); [done..|].
  exists i, es, ns. split; [done|].
  destruct Hre as [?|Hre]; [by left|right].
  unfold bound_before_triple in Hre. set_solver.
Qed.

(** No path through [GenCreateForPattern] raises a typed planner error. *)
Lemma GenCreateForPattern_no_planner_error pattern input_op
    (st : SymbolTable) bound :
  is_planner_error (GenCreateForPattern pattern input_op st bound) = false.
Proof.
  assert (∀ uid, is_planner_error (SymbolTable_at st uid) = false) as Hat.
  { intros uid. unfold SymbolTable_at. by destruct (st !! uid). }
  assert (∀ last_op prev e n b,
             is_planner_error
               (GenCreateForPattern_collect st last_op prev e n b) = false)
    as Hcollect.
  { intros. unfold GenCreateForPattern_collect.
    repeat match goal with
           | |- context [SymbolTable_at st ?u] =>
               let H := fresh in
               pose proof (Hat u) as H;
               destruct (SymbolTable_at st u); simpl in *; try done; clear H
           end.
    by destruct (negb (negb _)). }
  assert (∀ atoms cur last_op b,
             is_planner_error
               (ReducePattern_loop (GenCreateForPattern_collect st) atoms cur
                  last_op b) = false) as Hloop.
  { intros atoms.
    cut ((∀ cur last_op b,
             is_planner_error
               (ReducePattern_loop (GenCreateForPattern_collect st) atoms cur
                  last_op b) = false)
         ∧ (∀ a cur last_op b,
             is_planner_error
               (ReducePattern_loop (GenCreateForPattern_collect st)
                  (a :: atoms) cur last_op b) = false)); [by intros []|].
    induction atoms as [|x atoms [IH1 IH2]].
    { split; [done|]. by intros [?|?]. }
    split; [by apply IH2|].
    intros [?|e] cur last_op b; [done|].
    destruct x as [n|?]; [|done]. cbn [ReducePattern_loop].
    pose proof (Hcollect last_op cur e n b) as Hc.
    destruct (GenCreateForPattern_collect st last_op cur e n b)
      as [[op' b']| |]; simpl in *; try done. }
  assert (∀ l acc,
             is_planner_error
               (for_each (λ path_elements atom,
                    symbol ← SymbolTable_at st
                               (Identifier_uid (PatternAtom_identifier_ atom));
                    Done (emplace_back path_elements symbol)) l acc) = false)
    as Hfe.
  { induction l as [|x l IHl]; intros acc; [done|].
    simpl. pose proof (Hat (Identifier_uid (PatternAtom_identifier_ x))).
    destruct (SymbolTable_at st _); simpl in *; first [done|apply IHl]. }
  unfold GenCreateForPattern.
  assert (is_planner_error
            (ReducePattern (GenCreateForPattern_base input_op st)
               (GenCreateForPattern_collect st) pattern bound) = false)
    as Hreduce.
  { unfold ReducePattern.
    destruct (atoms_ pattern) as [|[first|?] rest]; try done.
    unfold GenCreateForPattern_base.
    pose proof (Hat (Identifier_uid (NodeAtom_identifier_ first))) as H0.
    destruct (SymbolTable_at st _) as [s0| |]; simpl in *; try done.
    destruct (negb (bool_decide (s0 ∈ bound))); simpl; apply Hloop. }
  destruct (ReducePattern _ _ _ _) as [[last_op b']| |]; simpl in *; try done.
  destruct (Identifier_user_declared_ _); [|done].
  specialize (Hfe (atoms_ pattern) []).
  destruct (for_each _ _ _); simpl in *; try done.
  pose proof (Hat (Identifier_uid (Pattern_identifier_ pattern))).
  by destruct (SymbolTable_at st _).
Qed.

(** ** The classifier: members no visit writes to *)

Lemma bind_Done {A B} (m : Outcome A) (f : A → Outcome B) b :
  m ≫= f = Done b → ∃ a, m = Done a ∧ f a = Done b.
Proof. destruct m; simpl; [eauto|discriminate..]. Qed.

#[global] Instance same_outputs_refl : Reflexive same_outputs.
Proof. by intros c. Qed.

#[global] Instance same_outputs_trans : Transitive same_outputs.
Proof.
  unfold same_outputs. intros c1 c2 c3 H1 H2.
  destruct H1 as (?&?&?&?&?&?&?), H2 as (?&?&?&?&?&?&?).
  repeat split; congruence.
Qed.

Lemma pop_flag_same c c' : pop_flag c = Done c' → same_outputs c c'.
Proof.
  unfold pop_flag. destruct (has_aggregation_ c); [done|].
  by intros [= <-].
Qed.

Lemma set_back_flag_same flag c c' :
  set_back_flag flag c = Done c' → same_outputs c c'.
Proof.
  unfold set_back_flag. destruct (has_aggregation_ c); [done|].
  by intros [= <-].
Qed.

Lemma push_flag_same flag c : same_outputs c (push_flag flag c).
Proof. done. Qed.

Lemma push_group_by_same e c : same_outputs c (push_group_by e c).
Proof. done. Qed.

(** Splits the successful runs among the hypotheses into the successful
    runs of their steps. *)
Ltac run_inv :=
  repeat match goal with
    | H : (_ ≫= _) = Done _ |- _ => apply bind_Done in H as (? & ? & H)
    | H : (let '(_, _) := ?p in _) = Done _ |- _ => destruct p; simpl in H
    | H : (match ?x with _ => _ end) = Done _ |- _ =>
        destruct x eqn:?; simpl in H; try discriminate H
    | H : Done _ = Done _ |- _ => progress simplify_eq
    | H : Abort _ = Done _ |- _ => discriminate H
    end.

(** Closes a goal [same_outputs c c'] from the steps found by [run_inv]. *)
Ltac same_outputs_chain :=
  repeat match goal with
    | H : context [match ?b with _ => _ end] |- _ => destruct b
    | |- context [match ?b with _ => _ end] => destruct b
    end;
  repeat match goal with
    | H : pop_flag _ = Done _ |- _ => apply pop_flag_same in H
    | H : set_back_flag _ _ = Done _ |- _ => apply set_back_flag_same in H
    end;
  unfold same_outputs in *; simpl in *;
  repeat match goal with H : _ ∧ _ |- _ => destruct H end;
  repeat split; congruence.

Lemma fold_last_flags_keeps n msg : keeps_outputs (fold_last_flags n msg).
Proof.
  intros c b c' H. unfold fold_last_flags in H. run_inv. done.
Qed.

Lemma Visit_Identifier_keeps ident : keeps_outputs (Visit_Identifier ident).
Proof.
  intros c b c' H. unfold Visit_Identifier in H. run_inv.
  same_outputs_chain.
Qed.

Lemma PostVisit_All_keeps ident : keeps_outputs (PostVisit_All ident).
Proof.
  intros c b c' H. unfold PostVisit_All in H. run_inv.
  same_outputs_chain.
Qed.

Lemma PostVisit_BinaryOperator_keeps e1 e2 :
  keeps_outputs (PostVisit_BinaryOperator e1 e2).
Proof.
  intros c b c' H. unfold PostVisit_BinaryOperator in H. run_inv.
  same_outputs_chain.
Qed.

Lemma PostVisit_Aggregation_keeps uid op_ e1 e2 :
  keeps_outputs (PostVisit_Aggregation uid op_ e1 e2).
Proof.
  intros c b c' H. unfold PostVisit_Aggregation in H. run_inv;
    same_outputs_chain.
Qed.

Lemma PostVisit_NamedExpression_keeps ne :
  keeps_outputs (PostVisit_NamedExpression ne).
Proof.
  intros c b c' H. unfold PostVisit_NamedExpression in H. run_inv;
    same_outputs_chain.
Qed.

Lemma accept_each_keeps {A} (accept : A → Visitor) l :
  Forall (λ x, keeps_outputs (accept x)) l →
  keeps_outputs (accept_each accept l).
Proof.
  intros Hall. induction Hall as [|x l Hx _ IH]; intros c b c' Hrun;
    simpl in Hrun.
  { by simplify_eq. }
  apply bind_Done in Hrun as ([cont c1] & H1 & Hrun). simpl in Hrun.
  apply Hx in H1. destruct cont.
  - apply IH in Hrun. by etrans.
  - by simplify_eq.
Qed.

Lemma accept_option_keeps (o : option Expression) c b c' :
  from_option (λ e, keeps_outputs (Accept e)) True o →
  match o with
  | Some e => Accept e c
  | None => Done (true, c)
  end = Done (b, c') →
  same_outputs c c'.
Proof.
  destruct o as [e|]; simpl; intros Ho H.
  - by apply Ho in H.
  - by simplify_eq.
Qed.

Lemma PreVisit_ListSlicingOperator_keeps list_ lower upper :
  keeps_outputs (Accept list_) →
  from_option (λ e, keeps_outputs (Accept e)) True lower →
  from_option (λ e, keeps_outputs (Accept e)) True upper →
  keeps_outputs (PreVisit_ListSlicingOperator Accept list_ lower upper).
Proof.
  intros Hlist Hlower Hupper c b c' H.
  unfold PreVisit_ListSlicingOperator in H. run_inv;
    repeat match goal with
      | H : Accept _ _ = Done _ |- _ =>
          first [apply Hlist in H | apply Hlower in H | apply Hupper in H]
      end;
    same_outputs_chain.
Qed.

Lemma PreVisit_IfOperator_keeps e1 e2 e3 :
  keeps_outputs (Accept e1) → keeps_outputs (Accept e2) →
  keeps_outputs (Accept e3) →
  keeps_outputs (PreVisit_IfOperator Accept e1 e2 e3).
Proof.
  intros H1 H2 H3 c b c' H.
  unfold PreVisit_IfOperator in H. run_inv;
    repeat match goal with
      | H : Accept _ _ = Done _ |- _ =>
          first [apply H1 in H | apply H2 in H | apply H3 in H]
      end;
    same_outputs_chain.
Qed.

(** No visit of an expression writes to the symbol table, the storage, the
    output symbols or the named expressions. *)
Lemma Accept_keeps e : keeps_outputs (Accept e).
Proof.
  induction e as
    [ uid | uid l IHl | uid l IHl | ident | uid | uid e property IHe
    | uid kind e IHe | uid kind e1 e2 IHe1 IHe2
    | uid list_ lower upper IHlist IHlower IHupper
    | uid e1 e2 e3 IHe1 IHe2 IHe3 | uid nm l IHl | uid op_ o1 o2 IHo1 IHo2
    | uid ident e1 wuid e2 IHe1 IHe2 ] using Expression_induction;
    intros c b c' H; simpl in H.
  - unfold Visit_PrimitiveLiteral in H. by simplify_eq.
  - apply bind_Done in H as ([? c1] & H1 & H). simpl in H.
    apply accept_each_keeps in H1; [|done].
    apply fold_last_flags_keeps in H. by etrans.
  - apply bind_Done in H as ([? c1] & H1 & H). simpl in H.
    apply accept_each_keeps in H1; [|done].
    apply fold_last_flags_keeps in H. by etrans.
  - by apply Visit_Identifier_keeps in H.
  - unfold Visit_ParameterLookup in H. by simplify_eq.
  - apply bind_Done in H as ([? c1] & H1 & H). simpl in H.
    apply IHe in H1. by simplify_eq.
  - apply bind_Done in H as ([? c1] & H1 & H). simpl in H.
    apply IHe in H1. by simplify_eq.
  - apply bind_Done in H as ([cont c1] & H1 & H). simpl in H.
    apply IHe1 in H1.
    apply bind_Done in H as ([? c2] & H2 & H). simpl in H.
    apply PostVisit_BinaryOperator_keeps in H.
    destruct cont.
    + apply IHe2 in H2. etrans; [exact H1|]. etrans; [exact H2|exact H].
    + simplify_eq. etrans; [exact H1|exact H].
  - apply bind_Done in H as ([? c1] & H1 & H). simpl in H.
    apply PreVisit_ListSlicingOperator_keeps in H1; [|done..].
    by simplify_eq.
  - apply bind_Done in H as ([? c1] & H1 & H). simpl in H.
    apply PreVisit_IfOperator_keeps in H1; [|done..].
    by simplify_eq.
  - apply bind_Done in H as ([? c1] & H1 & H). simpl in H.
    apply accept_each_keeps in H1; [|done].
    apply fold_last_flags_keeps in H. by etrans.
  - apply bind_Done in H as ([? c1] & H1 & H). simpl in H.
    apply accept_option_keeps in H1; [|done].
    apply bind_Done in H as ([? c2] & H2 & H). simpl in H.
    apply accept_option_keeps in H2; [|done].
    apply PostVisit_Aggregation_keeps in H.
    etrans; [exact H1|]. etrans; [exact H2|exact H].
  - apply bind_Done in H as ([cont c1] & H1 & H). simpl in H.
    apply Visit_Identifier_keeps in H1.
    apply bind_Done in H as ([cont2 c2] & H2 & H). simpl in H.
    apply bind_Done in H as ([? c3] & H3 & H). simpl in H.
    apply PostVisit_All_keeps in H.
    assert (same_outputs c1 c2) as H12.
    { destruct cont; [by apply IHe1 in H2|by simplify_eq]. }
    assert (same_outputs c2 c3) as H23.
    { destruct cont2; [|by simplify_eq].
      apply bind_Done in H3 as ([? c4] & H3 & H4). simpl in H4.
      apply IHe2 in H3. by simplify_eq. }
    etrans; [exact H1|]. etrans; [exact H12|]. etrans; [exact H23|exact H].
Qed.

(** ** std::sort *)

Section std_sort.
Context {A : Type} (comp : A → A → bool) (R : A → A → Prop).
Hypothesis comp_true : ∀ x y, comp x y = true → R x y.
Hypothesis comp_false : ∀ x y, comp x y = false → R y x.

Lemma sort_insert_Permutation x l : sort_insert comp x l ≡ₚ x :: l.
Proof.
  induction l as [|y l IH]; simpl; [done|].
  destruct (comp x y); [done|]. rewrite IH. apply Permutation_swap.
Qed.

Lemma std_sort_Permutation l : std_sort comp l ≡ₚ l.
Proof.
  induction l as [|x l IH]; simpl; [done|].
  unfold std_sort in *. simpl. by rewrite sort_insert_Permutation, IH.
Qed.

Lemma sort_insert_HdRel a x l :
  R a x → HdRel R a l → HdRel R a (sort_insert comp x l).
Proof.
  intros Hax Hl. destruct l as [|y l]; simpl; [by constructor|].
  destruct (comp x y); constructor; [done|]. by inversion Hl.
Qed.

Lemma sort_insert_Sorted x l : Sorted R l → Sorted R (sort_insert comp x l).
Proof.
  induction 1 as [|y l Hl IH Hhd]; simpl; [by repeat constructor|].
  destruct (comp x y) eqn:Hxy.
  - repeat constructor; auto.
  - constructor; [done|]. apply sort_insert_HdRel; auto.
Qed.

Lemma std_sort_Sorted l : Sorted R (std_sort comp l).
Proof.
  induction l as [|x l IH]; [constructor|].
  unfold std_sort in *. simpl. by apply sort_insert_Sorted.
Qed.
End std_sort.

Lemma ltb_true_le s1 s2 : String.ltb s1 s2 = true → String.le s1 s2.
Proof.
  unfold String.ltb, String.le, String.leb.
  destruct (String.compare s1 s2); simpl; intros H;
    first [exact I | discriminate H].
Qed.

Lemma ltb_false_le s1 s2 : String.ltb s1 s2 = false → String.le s2 s1.
Proof.
  unfold String.ltb, String.le, String.leb.
  rewrite (String.compare_antisym s1 s2).
  destruct (String.compare s2 s1); simpl; intros H;
    first [exact I | discriminate H].
Qed.

#[global] Instance name_le_trans : Transitive name_le.
Proof. intros a b c. unfold name_le. apply transitivity. Qed.

#[global] Instance name__le_trans : Transitive name__le.
Proof. intros a b c. unfold name__le. apply transitivity. Qed.

Lemma sort_by_name_sorted (l : list Symbol) :
  StronglySorted name_le (std_sort (λ a b, String.ltb (name a) (name b)) l).
Proof.
  apply Sorted_StronglySorted; [apply _|].
  apply std_sort_Sorted; intros x y.
  - apply ltb_true_le.
  - apply ltb_false_le.
Qed.

Lemma sort_by_name__sorted (l : list NamedExpression) :
  StronglySorted name__le (std_sort (λ a b, String.ltb (name_ a) (name_ b)) l).
Proof.
  apply Sorted_StronglySorted; [apply _|].
  apply std_sort_Sorted; intros x y.
  - apply ltb_true_le.
  - apply ltb_false_le.
Qed.

(** ** The expansion of [*] *)

Lemma expanded_shift n0 i s : expanded n0 (S i) s = expanded (n0 + 2) i s.
Proof.
  unfold expanded.
  replace (n0 + 2 * S i) with (n0 + 2 + 2 * i) by lia. done.
Qed.

Lemma ExpandUserSymbols_body_skip c x :
  user_declared x = false → ExpandUserSymbols_body c x = c.
Proof. unfold ExpandUserSymbols_body. by intros ->. Qed.

Lemma ExpandUserSymbols_body_user c x :
  user_declared x = true →
  ExpandUserSymbols_body c x
  = mkReturnBodyContext (body_ c)
      (<[S (next_uid_ (storage_ c)) := x]>
         (<[next_uid_ (storage_ c) := x]> (symbol_table_ c)))
      (bound_symbols_ c) (mkStorage (S (S (next_uid_ (storage_ c)))))
      (where_ c) ({[x]} ∪ used_symbols_ c) (output_symbols_ c ++ [x])
      (aggregations_ c)
      (group_by_ c
       ++ [IdentifierExpr (mkIdentifier (next_uid_ (storage_ c)) (name x) true)])
      (has_aggregation_ c)
      (named_expressions_ c
       ++ [mkNamedExpression (S (next_uid_ (storage_ c))) (name x)
             (IdentifierExpr
                (mkIdentifier (next_uid_ (storage_ c)) (name x) true))]).
Proof. unfold ExpandUserSymbols_body. by intros ->. Qed.

Lemma expanded_0 n0 s :
  expanded n0 0 s
  = mkNamedExpression (S n0) (name s)
      (IdentifierExpr (mkIdentifier n0 (name s) true)).
Proof.
  unfold expanded. rewrite Nat.mul_0_r, Nat.add_0_r.
  by replace (n0 + 1) with (S n0) by lia.
Qed.

(** The loop of [ExpandUserSymbols], member by member. *)
Lemma ExpandUserSymbols_fold l : ∀ c,
  let us := filter (λ s, user_declared s = true) l in
  let n0 := next_uid_ (storage_ c) in
  let c' := foldl ExpandUserSymbols_body c l in
  output_symbols_ c' = output_symbols_ c ++ us
  ∧ named_expressions_ c' = named_expressions_ c ++ imap (expanded n0) us
  ∧ group_by_ c' = group_by_ c ++ (expression_of <$> imap (expanded n0) us)
  ∧ used_symbols_ c' = list_to_set us ∪ used_symbols_ c
  ∧ storage_ c' = mkStorage (n0 + 2 * length us)
  ∧ (∀ i s, us !! i = Some s →
       symbol_table_ c' !! (n0 + 2 * i) = Some s
       ∧ symbol_table_ c' !! (n0 + 2 * i + 1) = Some s)
  ∧ (∀ k, k < n0 → symbol_table_ c' !! k = symbol_table_ c !! k)
  ∧ body_ c' = body_ c
  ∧ bound_symbols_ c' = bound_symbols_ c
  ∧ where_ c' = where_ c
  ∧ aggregations_ c' = aggregations_ c
  ∧ has_aggregation_ c' = has_aggregation_ c.
Proof.
  induction l as [|x l IH]; intros c.
  { simpl. rewrite !app_nil_r, Nat.add_0_r, union_empty_l_L.
    destruct c as [? ? ? [?] ? ? ? ? ? ? ?]. simpl.
    repeat split; try done. all: intros i s; by rewrite lookup_nil. }
  simpl foldl.
  destruct (user_declared x) eqn:Hud.
  2:{ rewrite ExpandUserSymbols_body_skip by done.
      rewrite filter_cons_False by congruence. apply IH. }
  rewrite filter_cons_True by done.
  rewrite ExpandUserSymbols_body_user by done.
  set (n0 := next_uid_ (storage_ c)).
  set (us := filter (λ s, user_declared s = true) l).
  match goal with
  | |- context [foldl ExpandUserSymbols_body ?c1 l] =>
      destruct (IH c1)
        as (Hout & Hne & Hgb & Hused & Hsto & Hst & Hold & Hb & Hbs & Hw
            & Hag & Hha);
      set (c' := foldl ExpandUserSymbols_body c1 l) in *
  end.
  cbn [output_symbols_ named_expressions_ group_by_ used_symbols_ storage_
       symbol_table_ body_ bound_symbols_ where_ aggregations_
       has_aggregation_ next_uid_] in *.
  fold us in Hout, Hne, Hgb, Hused, Hsto, Hst.
  fold n0 in Hne, Hgb, Hsto, Hst, Hold.
  assert (imap (expanded n0) (x :: us)
          = expanded n0 0 x :: imap (expanded (S (S n0))) us) as Himap.
  { simpl. f_equal. apply imap_ext. intros i s _. simpl.
    rewrite expanded_shift. by replace (n0 + 2) with (S (S n0)) by lia. }
  cbv zeta. rewrite Himap, expanded_0.
  split. { rewrite Hout. by rewrite <- app_assoc. }
  split. { rewrite Hne. by rewrite <- app_assoc. }
  split. { rewrite Hgb. by rewrite <- app_assoc. }
  split. { rewrite Hused. simpl. set_solver. }
  split. { rewrite Hsto. simpl. f_equal. lia. }
  split.
  { intros [|i] s Hi; simpl in Hi.
    - simplify_eq. rewrite Nat.mul_0_r, Nat.add_0_r.
      rewrite !Hold by lia.
      split.
      + rewrite lookup_insert_ne by lia. by rewrite lookup_insert_eq.
      + replace (n0 + 1) with (S n0) by lia. by rewrite lookup_insert_eq.
    - destruct (Hst i s Hi) as [H1 H2].
      replace (n0 + 2 * S i) with (S (S n0) + 2 * i) by lia. done. }
  split.
  { intros k Hk. rewrite Hold by lia.
    rewrite !lookup_insert_ne by lia. done. }
  done.
Qed.

Lemma user_declared_symbols_set (bound : gset Symbol) :
  list_to_set (user_declared_symbols bound)
  = filter (λ s, user_declared s = true) bound.
Proof.
  apply set_eq. intros s. unfold user_declared_symbols.
  rewrite elem_of_list_to_set, list_elem_of_filter, elem_of_elements,
    elem_of_filter. done.
Qed.

(** C7. With [all_identifiers] set the constructor first runs
    [ExpandUserSymbols] on the empty context. It returns, having made one
    new identifier and one new named expression, both under uids the storage
    had not given out, for each user-declared symbol of the bound set and
    for no other symbol; the symbol table maps both new nodes to that symbol
    and keeps the symbols of the older nodes. The output symbols and the
    named expressions come out sorted ascending by name, and the set of the
    output symbols is the set of the user-declared bound symbols. *)
Theorem ExpandUserSymbols_spec body (st : SymbolTable) bound storage w :
  let c0 := mkReturnBodyContext body st bound storage w ∅ [] [] [] [] [] in
  let us := user_declared_symbols bound in
  let n0 := next_uid_ storage in
  ∃ c,
    ExpandUserSymbols c0 = Done c
    ∧ named_expressions_ c ≡ₚ imap (expanded n0) us
    ∧ output_symbols_ c ≡ₚ us
    ∧ group_by_ c = expression_of <$> imap (expanded n0) us
    ∧ storage_ c = mkStorage (n0 + 2 * length us)
    ∧ (∀ i s, us !! i = Some s →
         symbol_table_ c !! (n0 + 2 * i) = Some s
         ∧ symbol_table_ c !! (n0 + 2 * i + 1) = Some s)
    ∧ (∀ k, k < n0 → symbol_table_ c !! k = st !! k)
    ∧ StronglySorted name_le (output_symbols_ c)
    ∧ StronglySorted name__le (named_expressions_ c)
    ∧ list_to_set (output_symbols_ c)
      = filter (λ s, user_declared s = true) bound
    ∧ used_symbols_ c = filter (λ s, user_declared s = true) bound.
Proof.
  intros c0 us n0. unfold ExpandUserSymbols. simpl.
  destruct (ExpandUserSymbols_fold (elements bound) c0)
    as (Hout & Hne & Hgb & Hused & Hsto & Hst & Hold & _).
  fold (user_declared_symbols bound) in Hout, Hne, Hgb, Hused, Hsto, Hst.
  fold us in Hout, Hne, Hgb, Hused, Hsto, Hst.
  simpl in Hout, Hne, Hgb, Hused, Hsto, Hst, Hold. fold n0 in Hne, Hgb, Hsto, Hst, Hold.
  eexists. split; [reflexivity|]. simpl.
  split. { rewrite std_sort_Permutation. by rewrite Hne. }
  split. { rewrite std_sort_Permutation. by rewrite Hout. }
  split; [done|]. split; [done|]. split; [done|]. split; [done|].
  split; [apply sort_by_name_sorted|].
  split; [apply sort_by_name__sorted|].
  split.
  { rewrite (list_to_set_perm_L _ us).
    - apply user_declared_symbols_set.
    - rewrite std_sort_Permutation. by rewrite Hout. }
  rewrite Hused, union_empty_r_L. apply user_declared_symbols_set.
Qed.

(** ** The constructor of the classifier *)

Lemma SymbolTable_at_Done (st : SymbolTable) uid s :
  SymbolTable_at st uid = Done s → st !! uid = Some s.
Proof. unfold SymbolTable_at. destruct (st !! uid); by intros [= ->]. Qed.

Lemma Accept_NamedExpression_keeps ne :
  keeps_outputs (Accept_NamedExpression ne).
Proof.
  intros c b c' H. unfold Accept_NamedExpression in H.
  apply bind_Done in H as ([? c1] & H1 & H). simpl in H.
  apply Accept_keeps in H1. apply PostVisit_NamedExpression_keeps in H.
  by etrans.
Qed.

Lemma Accept_Where_keeps w : keeps_outputs (Accept_Where w).
Proof.
  intros c b c' H. unfold Accept_Where in H.
  apply bind_Done in H as ([? c1] & H1 & H). simpl in H.
  apply Accept_keeps in H1. by simplify_eq.
Qed.

Lemma visit_named_expression_spec c ne c' :
  visit_named_expression c ne = Done c' →
  ∃ s,
    symbol_table_ c !! NamedExpression_uid ne = Some s
    ∧ output_symbols_ c' = output_symbols_ c ++ [s]
    ∧ named_expressions_ c' = named_expressions_ c ++ [ne]
    ∧ body_ c' = body_ c
    ∧ symbol_table_ c' = symbol_table_ c
    ∧ bound_symbols_ c' = bound_symbols_ c
    ∧ storage_ c' = storage_ c
    ∧ where_ c' = where_ c.
Proof.
  unfold visit_named_expression. intros H.
  apply bind_Done in H as (s & Hs & H). apply SymbolTable_at_Done in Hs.
  apply bind_Done in H as ([? c1] & H1 & H). simpl in H.
  apply Accept_NamedExpression_keeps in H1.
  destruct H1 as (?&?&?&?&?&Hout&Hne). simpl in *. simplify_eq. simpl.
  exists s. rewrite Hout, Hne. unfold emplace_back. by repeat split.
Qed.

Lemma visit_named_expressions_spec nes : ∀ c c',
  for_each visit_named_expression nes c = Done c' →
  ∃ syms,
    Forall2 (λ ne s, symbol_table_ c !! NamedExpression_uid ne = Some s)
      nes syms
    ∧ output_symbols_ c' = output_symbols_ c ++ syms
    ∧ named_expressions_ c' = named_expressions_ c ++ nes
    ∧ body_ c' = body_ c
    ∧ symbol_table_ c' = symbol_table_ c
    ∧ bound_symbols_ c' = bound_symbols_ c
    ∧ storage_ c' = storage_ c
    ∧ where_ c' = where_ c.
Proof.
  induction nes as [|ne nes IH]; intros c c' H; simpl in H.
  { simplify_eq. exists []. rewrite !app_nil_r. by repeat split. }
  apply bind_Done in H as (c1 & H1 & H).
  apply visit_named_expression_spec in H1
    as (s & Hs & Hout1 & Hne1 & Hb1 & Hst1 & Hbs1 & Hsto1 & Hw1).
  apply IH in H as (syms & Hall & Hout & Hne & Hb & Hst & Hbs & Hsto & Hw).
  exists (s :: syms). rewrite Hst1 in Hall.
  split; [by constructor|].
  rewrite Hout, Hout1, Hne, Hne1, <- !app_assoc. simpl.
  repeat split; congruence.
Qed.

Lemma visit_order_by_and_where_keeps body w c c' :
  visit_order_by_and_where body w c = Done c' →
  same_outputs c c' ∧ aggregations_ c' = [].
Proof.
  unfold visit_order_by_and_where. intros H.
  apply bind_Done in H as (c1 & H1 & H).
  apply bind_Done in H as (c2 & H2 & H).
  apply bind_Done in H as ([] & H3 & H). simplify_eq.
  assert (same_outputs c c1) as H01.
  { clear H2 H3. revert c H1.
    induction (order_by body) as [|p l IH]; intros c H1; simpl in H1.
    - by simplify_eq.
    - apply bind_Done in H1 as (c0 & H0 & H1).
      apply bind_Done in H0 as ([? c3] & H0 & H4). simpl in H4. simplify_eq.
      apply Accept_keeps in H0. apply IH in H1. by etrans. }
  assert (same_outputs c1 c') as H12.
  { destruct w as [w|]; [|by simplify_eq].
    apply bind_Done in H2 as ([? c3] & H2 & H4). simpl in H4. simplify_eq.
    by apply Accept_Where_keeps in H2. }
  split; [by etrans|].
  unfold DCHECK in H3. destruct (bool_decide _) eqn:Hd; [|done].
  by apply bool_decide_eq_true in Hd.
Qed.

(** What the constructor leaves in the members that [GenReturnBody] and
    [GenWith] read, whenever it returns. *)
Lemma ReturnBodyContext_new_outputs body (st : SymbolTable) bound storage w c :
  ReturnBodyContext_new body st bound storage w = Done c →
  ∃ expansion syms,
    output_symbols_ c = expansion ++ syms
    ∧ expansion
      = (if all_identifiers body
         then std_sort (λ a b, String.ltb (name a) (name b))
                (user_declared_symbols bound)
         else [])
    ∧ Forall2 (λ ne s, symbol_table_ c !! NamedExpression_uid ne = Some s)
        (named_expressions body) syms
    ∧ body_ c = body
    ∧ where_ c = w
    ∧ bound_symbols_ c = bound.
Proof.
  unfold ReturnBodyContext_new. intros H.
  apply bind_Done in H as (c1 & H1 & H).
  assert (same_outputs c1 c) as Hsame.
  { destruct (bool_decide _); [|by simplify_eq].
    by apply visit_order_by_and_where_keeps in H as [? _]. }
  clear H. unfold collect_named_expressions in H1.
  apply bind_Done in H1 as (c0 & H0 & H1).
  apply visit_named_expressions_spec in H1
    as (syms & Hall & Hout & Hne & Hb & Hst & Hbs & Hsto & Hw).
  destruct Hsame as (Hb' & Hst' & Hbs' & Hsto' & Hw' & Hout' & Hne').
  exists (output_symbols_ c0), syms.
  split; [congruence|].
  destruct (all_identifiers body).
  - unfold ExpandUserSymbols in H0. simpl in H0. simplify_eq. simpl in *.
    destruct (ExpandUserSymbols_fold (elements bound)
                (mkReturnBodyContext body st bound storage w ∅ [] [] [] [] []))
      as (Hfo & _ & _ & _ & _ & _ & _ & Hfb & Hfbs & Hfw & _).
    simpl in Hfo, Hfb, Hfbs, Hfw.
    split. { rewrite Hfo. done. }
    split. { rewrite Hst', Hst. done. }
    repeat split; congruence.
  - simplify_eq. simpl in *. split; [done|].
    split. { by rewrite Hst', Hst. }
    repeat split; congruence.
Qed.

(** ** WITH and RETURN *)

Lemma foldl_insert_symbols (l : list Symbol) : ∀ X : gset Symbol,
  foldl (λ bound_symbols symbol, {[symbol]} ∪ bound_symbols) X l
  = list_to_set l ∪ X.
Proof.
  induction l as [|x l IH]; intros X; simpl.
  - by rewrite union_empty_l_L.
  - rewrite IH. set_solver.
Qed.

Lemma GenWith_eq with_ input_op (st : SymbolTable) is_write bound storage :
  GenWith with_ input_op st is_write bound storage =
  body ← ReturnBodyContext_new (With_body_ with_) st bound storage
           (With_where_ with_);
  Done (GenReturnBody input_op is_write body is_write,
        list_to_set (output_symbols_ body),
        symbol_table_ body, storage_ body).
Proof.
  unfold GenWith.
  destruct (ReturnBodyContext_new _ _ _ _ _) as [body| |]; simpl; [|done..].
  by rewrite foldl_insert_symbols, union_empty_r_L.
Qed.

(** C2. Whenever [GenWith] returns, the bound-symbol set it leaves is
    exactly the set of the output symbols of the WITH's return body (the
    user-declared bound symbols sorted by name if the body has [*],
    followed by the symbols of the body's named expressions): every output
    symbol is in it, nothing else is, and so a symbol that was bound before
    and is not in the output list is bound no more. *)
Theorem GenWith_bound_symbols with_ input_op (st : SymbolTable) is_write
    bound storage last_op bound' st' storage' :
  GenWith with_ input_op st is_write bound storage
  = Done (last_op, bound', st', storage') →
  ∃ body expansion syms,
    ReturnBodyContext_new (With_body_ with_) st bound storage
      (With_where_ with_) = Done body
    ∧ last_op = GenReturnBody input_op is_write body is_write
    ∧ output_symbols_ body = expansion ++ syms
    ∧ expansion
      = (if all_identifiers (With_body_ with_)
         then std_sort (λ a b, String.ltb (name a) (name b))
                (user_declared_symbols bound)
         else [])
    ∧ Forall2 (λ ne s, st' !! NamedExpression_uid ne = Some s)
        (named_expressions (With_body_ with_)) syms
    ∧ bound' = list_to_set (output_symbols_ body)
    ∧ (∀ s, s ∈ bound' ↔ s ∈ output_symbols_ body)
    ∧ (∀ s, s ∈ bound → s ∉ output_symbols_ body → s ∉ bound').
Proof.
  rewrite GenWith_eq. intros H.
  apply bind_Done in H as (body & Hbody & H). simplify_eq.
  destruct (ReturnBodyContext_new_outputs _ _ _ _ _ _ Hbody)
    as (expansion & syms & Hout & Hexp & Hall & _).
  exists body, expansion, syms.
  repeat split; try done.
  - by intros ?%elem_of_list_to_set.
  - intros Hin. by apply elem_of_list_to_set.
  - intros s _ Hnot ?%elem_of_list_to_set. done.
Qed.

Lemma Accumulate_in_pipeline advance_command body accumulate syms adv :
  Accumulate syms adv ∈ return_body_pipeline advance_command body accumulate
  ↔ accumulate = true ∧ adv = advance_command
    ∧ syms = elements (used_symbols_ body).
Proof.
  unfold return_body_pipeline, when, when_some.
  rewrite !elem_of_app. split.
  - intros [H|[H|[H|[H|[H|[H|[H|H]]]]]]];
      repeat match goal with
        | H : _ ∈ (if ?b then _ else _) |- _ => destruct b
        | H : _ ∈ match ?o with _ => _ end |- _ => destruct o
        | H : _ ∈ [] |- _ => by apply not_elem_of_nil in H
        | H : _ ∈ [_] |- _ => apply list_elem_of_singleton in H
        end; by simplify_eq.
  - intros (-> & -> & ->). left. apply list_elem_of_singleton. done.
Qed.

Lemma GenReturn_eq ret input_op (st : SymbolTable) is_write bound storage :
  GenReturn ret input_op st is_write bound storage =
  body ← ReturnBodyContext_new (Return_body_ ret) st bound storage None;
  Done (GenReturnBody input_op false body is_write,
        symbol_table_ body, storage_ body).
Proof. done. Qed.

(** C6. [GenReturn] builds the return body with [accumulate = is_write] and
    [advance_command = false]; [GenWith] builds it with both equal to
    [is_write]. Hence the operators either of them puts above its input
    contain an Accumulate exactly when [is_write] holds, and that
    Accumulate advances the command for WITH and does not for RETURN. *)
Theorem GenReturn_GenWith_accumulate ret with_ input_op (st : SymbolTable)
    is_write bound storage :
  GenReturn ret input_op st is_write bound storage
  = (body ← ReturnBodyContext_new (Return_body_ ret) st bound storage None;
     Done (GenReturnBody input_op false body is_write,
           symbol_table_ body, storage_ body))
  ∧ GenWith with_ input_op st is_write bound storage
    = (body ← ReturnBodyContext_new (With_body_ with_) st bound storage
                (With_where_ with_);
       Done (GenReturnBody input_op is_write body is_write,
             list_to_set (output_symbols_ body),
             symbol_table_ body, storage_ body))
  ∧ (∀ plan st' storage',
       GenReturn ret input_op st is_write bound storage
       = Done (plan, st', storage') →
       ∃ emitted,
         operators plan = rev emitted ++ operators input_op
         ∧ (KAccumulate ∈ kind_of <$> emitted ↔ is_write = true)
         ∧ ∀ syms adv, Accumulate syms adv ∈ emitted →
                       is_write = true ∧ adv = false)
  ∧ (∀ plan bound' st' storage',
       GenWith with_ input_op st is_write bound storage
       = Done (plan, bound', st', storage') →
       ∃ emitted,
         operators plan = rev emitted ++ operators input_op
         ∧ (KAccumulate ∈ kind_of <$> emitted ↔ is_write = true)
         ∧ ∀ syms adv, Accumulate syms adv ∈ emitted →
                       is_write = true ∧ adv = true).
Proof.
  assert (∀ adv body,
             KAccumulate ∈ kind_of <$> return_body_pipeline adv body is_write
             ↔ is_write = true) as Hkind.
  { intros adv body. rewrite kinds_return_body_pipeline.
    rewrite list_elem_of_filter. unfold return_body_order. simpl.
    split; [by intros []|]. intros ->. split; [done|]. left. }
  split; [apply GenReturn_eq|]. split; [apply GenWith_eq|]. split.
  - intros plan st' storage'. rewrite GenReturn_eq. intros H.
    apply bind_Done in H as (body & _ & H). simplify_eq.
    exists (return_body_pipeline false body is_write).
    split; [apply operators_GenReturnBody|]. split; [apply Hkind|].
    intros syms adv Hin. apply Accumulate_in_pipeline in Hin. naive_solver.
  - intros plan bound' st' storage'. rewrite GenWith_eq. intros H.
    apply bind_Done in H as (body & _ & H). simplify_eq.
    exists (return_body_pipeline is_write body is_write).
    split; [apply operators_GenReturnBody|]. split; [apply Hkind|].
    intros syms adv Hin. apply Accumulate_in_pipeline in Hin.
    destruct Hin as (-> & -> & _). done.
Qed.

(** ** The classifier does not read ORDER BY and WHERE unless it visits them *)

Lemma pop_flag_rebase body w c :
  pop_flag (with_clauses body w c)
  = c' ← pop_flag c; Done (with_clauses body w c').
Proof. unfold pop_flag. simpl. by destruct (has_aggregation_ c). Qed.

Lemma set_back_flag_rebase flag body w c :
  set_back_flag flag (with_clauses body w c)
  = c' ← set_back_flag flag c; Done (with_clauses body w c').
Proof. unfold set_back_flag. simpl. by destruct (has_aggregation_ c). Qed.

(** Moves [with_clauses] out of the reads and writes of the other members. *)
Ltac rebase_norm :=
  repeat match goal with
    | |- context [symbol_table_ (with_clauses ?b ?w ?c)] =>
        change (symbol_table_ (with_clauses b w c)) with (symbol_table_ c)
    | |- context [used_symbols_ (with_clauses ?b ?w ?c)] =>
        change (used_symbols_ (with_clauses b w c)) with (used_symbols_ c)
    | |- context [output_symbols_ (with_clauses ?b ?w ?c)] =>
        change (output_symbols_ (with_clauses b w c)) with (output_symbols_ c)
    | |- context [aggregations_ (with_clauses ?b ?w ?c)] =>
        change (aggregations_ (with_clauses b w c)) with (aggregations_ c)
    | |- context [group_by_ (with_clauses ?b ?w ?c)] =>
        change (group_by_ (with_clauses b w c)) with (group_by_ c)
    | |- context [has_aggregation_ (with_clauses ?b ?w ?c)] =>
        change (has_aggregation_ (with_clauses b w c))
          with (has_aggregation_ c)
    | |- context [named_expressions_ (with_clauses ?b ?w ?c)] =>
        change (named_expressions_ (with_clauses b w c))
          with (named_expressions_ c)
    | |- context [set_used_symbols_ ?x (with_clauses ?b ?w ?c)] =>
        change (set_used_symbols_ x (with_clauses b w c))
          with (with_clauses b w (set_used_symbols_ x c))
    | |- context [set_output_symbols_ ?x (with_clauses ?b ?w ?c)] =>
        change (set_output_symbols_ x (with_clauses b w c))
          with (with_clauses b w (set_output_symbols_ x c))
    | |- context [set_aggregations_ ?x (with_clauses ?b ?w ?c)] =>
        change (set_aggregations_ x (with_clauses b w c))
          with (with_clauses b w (set_aggregations_ x c))
    | |- context [set_has_aggregation_ ?x (with_clauses ?b ?w ?c)] =>
        change (set_has_aggregation_ x (with_clauses b w c))
          with (with_clauses b w (set_has_aggregation_ x c))
    | |- context [set_named_expressions_ ?x (with_clauses ?b ?w ?c)] =>
        change (set_named_expressions_ x (with_clauses b w c))
          with (with_clauses b w (set_named_expressions_ x c))
    | |- context [push_flag ?x (with_clauses ?b ?w ?c)] =>
        change (push_flag x (with_clauses b w c))
          with (with_clauses b w (push_flag x c))
    | |- context [push_group_by ?x (with_clauses ?b ?w ?c)] =>
        change (push_group_by x (with_clauses b w c))
          with (with_clauses b w (push_group_by x c))
    | |- context [back_flag (with_clauses ?b ?w ?c)] =>
        change (back_flag (with_clauses b w c)) with (back_flag c)
    end.

(** One step of a proof that a run does not read the two members: the next
    call is made on the original classifier, and its outcome is split. *)
Ltac ignores_step :=
  rebase_norm;
  match goal with
  | H : ignores_clauses (Accept ?e)
    |- context [Accept ?e (with_clauses ?b ?w ?c)] =>
      rewrite (H b w c); unfold rebased at 1;
      destruct (Accept e c) as [[? ?]| |]
  | |- context [pop_flag (with_clauses ?b ?w ?c)] =>
      rewrite (pop_flag_rebase b w c); destruct (pop_flag c)
  | |- context [set_back_flag ?f (with_clauses ?b ?w ?c)] =>
      rewrite (set_back_flag_rebase f b w c); destruct (set_back_flag f c)
  | |- context [SymbolTable_at ?st ?u] => destruct (SymbolTable_at st u)
  | |- context [DCHECK ?x ?m] => destruct (DCHECK x m) as [[]| |]
  | |- context [back_flag ?c] => destruct (back_flag c) as [[]| |]
  | |- context [match ?o with Some _ => _ | None => _ end] => destruct o
  | |- context [if ?x then _ else _] => destruct x
  end;
  simpl; try done.

Ltac ignores_run := intros body w c; unfold rebased; simpl; repeat ignores_step.

Lemma fold_last_flags_ignores n msg : ignores_clauses (fold_last_flags n msg).
Proof. unfold fold_last_flags. ignores_run. Qed.

Lemma Visit_Identifier_ignores ident : ignores_clauses (Visit_Identifier ident).
Proof. unfold Visit_Identifier. ignores_run. Qed.

Lemma PostVisit_All_ignores ident : ignores_clauses (PostVisit_All ident).
Proof. unfold PostVisit_All. ignores_run. Qed.

Lemma PostVisit_BinaryOperator_ignores e1 e2 :
  ignores_clauses (PostVisit_BinaryOperator e1 e2).
Proof. unfold PostVisit_BinaryOperator. ignores_run. Qed.

Lemma PostVisit_Aggregation_ignores uid op_ e1 e2 :
  ignores_clauses (PostVisit_Aggregation uid op_ e1 e2).
Proof. unfold PostVisit_Aggregation. ignores_run. Qed.

Lemma PostVisit_NamedExpression_ignores ne :
  ignores_clauses (PostVisit_NamedExpression ne).
Proof. unfold PostVisit_NamedExpression. ignores_run. Qed.

Lemma PreVisit_ListSlicingOperator_ignores list_ lower upper :
  ignores_clauses (Accept list_) →
  from_option (λ e, ignores_clauses (Accept e)) True lower →
  from_option (λ e, ignores_clauses (Accept e)) True upper →
  ignores_clauses (PreVisit_ListSlicingOperator Accept list_ lower upper).
Proof.
  intros Hlist Hlower Hupper. unfold PreVisit_ListSlicingOperator.
  destruct lower, upper; simpl in Hlower, Hupper; ignores_run.
Qed.

Lemma PreVisit_IfOperator_ignores e1 e2 e3 :
  ignores_clauses (Accept e1) → ignores_clauses (Accept e2) →
  ignores_clauses (Accept e3) →
  ignores_clauses (PreVisit_IfOperator Accept e1 e2 e3).
Proof. intros H1 H2 H3. unfold PreVisit_IfOperator. ignores_run. Qed.

Lemma accept_each_ignores {A} (accept : A → Visitor) l :
  Forall (λ x, ignores_clauses (accept x)) l →
  ignores_clauses (accept_each accept l).
Proof.
  intros Hall. induction Hall as [|x l Hx _ IH]; intros body w c; [done|].
  simpl. rewrite (Hx body w c). unfold rebased.
  destruct (accept x c) as [[[] c1]| |]; simpl;
    first [done | apply (IH body w c1)].
Qed.

Lemma accept_each_then_ignores {A} (accept : A → Visitor) l (k : Visitor) :
  Forall (λ x, ignores_clauses (accept x)) l →
  ignores_clauses k →
  ignores_clauses (λ c, '(_, c) ← accept_each accept l c; k c).
Proof.
  intros Hl Hk body w c. simpl.
  rewrite (accept_each_ignores accept l Hl body w c). unfold rebased at 1.
  destruct (accept_each accept l c) as [[? c1]| |]; simpl; [|done..].
  apply Hk.
Qed.

(** The next child is visited on the original classifier. *)
Ltac accept_step :=
  match goal with
  | H : ignores_clauses (Accept ?e)
    |- context [Accept ?e (with_clauses ?b ?w ?c)] =>
      rewrite (H b w c); unfold rebased at 1;
      destruct (Accept e c) as [[[] ?]| |]; simpl; try done
  end.

(** No visit of an expression reads the return body or the WHERE clause the
    classifier was constructed with. *)
Lemma Accept_ignores e : ignores_clauses (Accept e).
Proof.
  induction e as
    [ uid | uid l IHl | uid l IHl | ident | uid | uid e property IHe
    | uid kind e IHe | uid kind e1 e2 IHe1 IHe2
    | uid list_ lower upper IHlist IHlower IHupper
    | uid e1 e2 e3 IHe1 IHe2 IHe3 | uid nm l IHl | uid op_ o1 o2 IHo1 IHo2
    | uid ident e1 wuid e2 IHe1 IHe2 ] using Expression_induction;
    intros body w c; simpl.
  - done.
  - apply (accept_each_then_ignores Accept l (PostVisit_ListLiteral l));
      [done|apply fold_last_flags_ignores].
  - apply (accept_each_then_ignores (λ pair, Accept pair.2) l
             (PostVisit_MapLiteral l));
      [done|apply fold_last_flags_ignores].
  - apply Visit_Identifier_ignores.
  - done.
  - accept_step.
  - accept_step.
  - accept_step; try accept_step; apply PostVisit_BinaryOperator_ignores.
  - rewrite (PreVisit_ListSlicingOperator_ignores list_ lower upper IHlist
               IHlower IHupper body w c).
    unfold rebased.
    by destruct (PreVisit_ListSlicingOperator Accept list_ lower upper c)
      as [[? ?]| |].
  - rewrite (PreVisit_IfOperator_ignores e1 e2 e3 IHe1 IHe2 IHe3 body w c).
    unfold rebased.
    by destruct (PreVisit_IfOperator Accept e1 e2 e3 c) as [[? ?]| |].
  - apply (accept_each_then_ignores Accept l (PostVisit_Function l));
      [done|apply fold_last_flags_ignores].
  - destruct o1 as [x1|], o2 as [x2|]; simpl in IHo1, IHo2; simpl;
      repeat accept_step; apply PostVisit_Aggregation_ignores.
  - rewrite (Visit_Identifier_ignores ident body w c). unfold rebased at 1.
    destruct (Visit_Identifier ident c) as [[[] c1]| |]; simpl; try done.
    + accept_step.
      * accept_step; apply PostVisit_All_ignores.
      * apply PostVisit_All_ignores.
    + apply PostVisit_All_ignores.
Qed.

Lemma ExpandUserSymbols_body_rebase body w c symbol :
  ExpandUserSymbols_body (with_clauses body w c) symbol
  = with_clauses body w (ExpandUserSymbols_body c symbol).
Proof. unfold ExpandUserSymbols_body. by destruct (user_declared symbol). Qed.

Lemma ExpandUserSymbols_rebase body w c :
  ExpandUserSymbols (with_clauses body w c)
  = c' ← ExpandUserSymbols c; Done (with_clauses body w c').
Proof.
  unfold ExpandUserSymbols, DCHECK. simpl.
  destruct (bool_decide (named_expressions_ c = [])); [|done].
  destruct (bool_decide (output_symbols_ c = [])); [|done]. simpl.
  assert (∀ l c, foldl ExpandUserSymbols_body (with_clauses body w c) l
                 = with_clauses body w (foldl ExpandUserSymbols_body c l))
    as ->; [|done].
  induction l as [|x l IH]; intros c0; [done|]. simpl.
  by rewrite ExpandUserSymbols_body_rebase, IH.
Qed.

Lemma visit_named_expression_rebase body w c ne :
  visit_named_expression (with_clauses body w c) ne
  = c' ← visit_named_expression c ne; Done (with_clauses body w c').
Proof.
  unfold visit_named_expression, Accept_NamedExpression. simpl.
  destruct (SymbolTable_at (symbol_table_ c) (NamedExpression_uid ne));
    simpl; [|done..].
  match goal with
  | |- context [Accept ?e (?f (with_clauses body w c))] =>
      change (f (with_clauses body w c)) with (with_clauses body w (f c));
      rewrite (Accept_ignores e body w (f c)); unfold rebased;
      destruct (Accept e (f c)) as [[? c1]| |]; simpl; try done
  end.
  rewrite (PostVisit_NamedExpression_ignores ne body w c1). unfold rebased.
  by destruct (PostVisit_NamedExpression ne c1) as [[? c2]| |].
Qed.

Lemma visit_named_expressions_rebase body w nes : ∀ c,
  for_each visit_named_expression nes (with_clauses body w c)
  = c' ← for_each visit_named_expression nes c; Done (with_clauses body w c').
Proof.
  induction nes as [|ne nes IH]; intros c; [done|]. simpl.
  rewrite visit_named_expression_rebase.
  destruct (visit_named_expression c ne) as [c1| |]; simpl; [|done..].
  apply IH.
Qed.

(** The named expressions are collected without a look at the ORDER BY of
    the body or at the WHERE clause. *)
Lemma collect_named_expressions_rebase body (st : SymbolTable) bound storage w
    order w' :
  collect_named_expressions (with_order_by body order) st bound storage w'
  = c ← collect_named_expressions body st bound storage w;
    Done (with_clauses (with_order_by body order) w' c).
Proof.
  unfold collect_named_expressions.
  change (all_identifiers (with_order_by body order))
    with (all_identifiers body).
  change (named_expressions (with_order_by body order))
    with (named_expressions body).
  set (c0 := mkReturnBodyContext body st bound storage w ∅ [] [] [] [] []).
  change (mkReturnBodyContext (with_order_by body order) st bound storage w'
            ∅ [] [] [] [] [])
    with (with_clauses (with_order_by body order) w' c0).
  destruct (all_identifiers body).
  - rewrite ExpandUserSymbols_rebase.
    destruct (ExpandUserSymbols c0) as [c1| |]; [|done..].
    exact (visit_named_expressions_rebase _ _ _ c1).
  - exact (visit_named_expressions_rebase _ _ _ c0).
Qed.

(** ** The visit of ORDER BY and WHERE *)

Lemma at_state_id c : at_state c (used_symbols_ c) [] = c.
Proof. destruct c. unfold at_state. simpl. by rewrite app_nil_r. Qed.

Lemma at_state_at_state c used flags used' flags' :
  at_state (at_state c used flags) used' flags'
  = at_state c used' (flags ++ flags').
Proof. unfold at_state. simpl. by rewrite app_assoc. Qed.

Lemma push_flag_at_state b c used flags :
  push_flag b (at_state c used flags) = at_state c used (flags ++ [b]).
Proof.
  unfold push_flag, set_has_aggregation_, emplace_back, at_state. simpl.
  by rewrite app_assoc.
Qed.

Lemma back_flag_at_state c used flags b :
  back_flag (at_state c used (flags ++ [b])) = Done b.
Proof.
  unfold back_flag, at_state. simpl. by rewrite app_assoc, last_snoc.
Qed.

Lemma pop_flag_at_state c used flags b :
  pop_flag (at_state c used (flags ++ [b])) = Done (at_state c used flags).
Proof.
  unfold pop_flag, at_state, set_has_aggregation_. simpl.
  rewrite app_assoc.
  destruct ((has_aggregation_ c ++ flags) ++ [b]) eqn:Heq.
  { by destruct (has_aggregation_ c ++ flags). }
  by rewrite <- Heq, removelast_last.
Qed.

Lemma foldl_orb_replicate n :
  foldl (λ has_aggr flag : bool, has_aggr || flag) false (replicate n false)
  = false.
Proof. induction n as [|n IH]; [done|]. simpl. exact IH. Qed.

Lemma fold_last_flags_at_state n msg c used flags :
  fold_last_flags n msg (at_state c used (flags ++ replicate n false))
  = Done (true, at_state c used (flags ++ [false])).
Proof.
  unfold fold_last_flags, at_state, set_has_aggregation_, emplace_back. simpl.
  rewrite !app_assoc.
  set (l := has_aggregation_ c ++ flags).
  assert (length (l ++ replicate n false) - n = length l) as ->.
  { rewrite length_app, length_replicate. lia. }
  rewrite bool_decide_eq_true_2
    by (rewrite length_app, length_replicate; lia).
  simpl. by rewrite take_app_length, drop_app_length, foldl_orb_replicate.
Qed.

Lemma Visit_Identifier_at_state ident c used flags :
  is_Some (symbol_table_ c !! Identifier_uid ident) →
  Visit_Identifier ident (at_state c used flags)
  = Done (true,
          at_state c
            (use_identifier (symbol_table_ c) (output_symbols_ c) ident used)
            (flags ++ [false])).
Proof.
  intros [s Hs]. unfold Visit_Identifier, use_identifier, SymbolTable_at.
  change (symbol_table_ (at_state c used flags)) with (symbol_table_ c).
  rewrite Hs. simpl.
  change (output_symbols_ (at_state c used flags)) with (output_symbols_ c).
  destruct (bool_decide (s ∈ output_symbols_ c));
    by rewrite <- push_flag_at_state.
Qed.

Lemma PostVisit_BinaryOperator_at_state e1 e2 c used flags :
  PostVisit_BinaryOperator e1 e2
    (at_state c used ((flags ++ [false]) ++ [false]))
  = Done (true, at_state c used (flags ++ [false])).
Proof.
  unfold PostVisit_BinaryOperator.
  rewrite bool_decide_eq_true_2.
  2:{ unfold at_state. simpl. rewrite !length_app. simpl. lia. }
  simpl. rewrite back_flag_at_state. simpl. rewrite pop_flag_at_state. simpl.
  rewrite back_flag_at_state. simpl. rewrite pop_flag_at_state. simpl.
  by rewrite push_flag_at_state.
Qed.

Lemma PostVisit_All_at_state ident c used flags s :
  symbol_table_ c !! Identifier_uid ident = Some s →
  PostVisit_All ident
    (at_state c used (((flags ++ [false]) ++ [false]) ++ [false]))
  = Done (true, at_state c (used ∖ {[s]}) (flags ++ [false])).
Proof.
  intros Hs. unfold PostVisit_All, SymbolTable_at.
  change (symbol_table_ (at_state c used _)) with (symbol_table_ c).
  rewrite Hs. simpl.
  change (set_used_symbols_ _ (at_state c used ?f))
    with (at_state c (used ∖ {[s]}) f).
  rewrite bool_decide_eq_true_2.
  2:{ unfold at_state. simpl. rewrite !length_app. simpl. lia. }
  simpl. rewrite back_flag_at_state. simpl. rewrite pop_flag_at_state. simpl.
  rewrite back_flag_at_state. simpl. rewrite pop_flag_at_state. simpl.
  rewrite back_flag_at_state. simpl. rewrite pop_flag_at_state. simpl.
  by rewrite push_flag_at_state.
Qed.

Lemma accept_each_at_state {A} (accept : A → Visitor)
    (after : A → gset Symbol → gset Symbol) c l :
  Forall (λ x, ∀ used flags,
            accept x (at_state c used flags)
            = Done (true, at_state c (after x used) (flags ++ [false]))) l →
  ∀ used flags,
    accept_each accept l (at_state c used flags)
    = Done (true,
            at_state c (foldl (λ used x, after x used) used l)
              (flags ++ replicate (length l) false)).
Proof.
  induction 1 as [|x l Hx _ IH]; intros used flags; simpl.
  { by rewrite app_nil_r. }
  rewrite Hx. simpl. rewrite IH. by rewrite <- app_assoc.
Qed.

Lemma plain_each st c (l : list Expression) :
  symbol_table_ c = st →
  Forall visits_plain l → forallb (plain st) l = true →
  Forall (λ e, ∀ used flags,
            Accept e (at_state c used flags)
            = Done (true,
                    at_state c (used_after st (output_symbols_ c) e used)
                      (flags ++ [false]))) l.
Proof.
  intros <- Hall Hp. rewrite forallb_forall in Hp.
  rewrite Forall_forall in Hall. apply Forall_forall. intros e He used flags.
  apply (Hall e He). apply Hp. by apply list_elem_of_In.
Qed.

Lemma plain_each_snd st c (l : list (string * Expression)) :
  symbol_table_ c = st →
  Forall (λ pair, visits_plain (snd pair)) l →
  forallb (λ pair, plain st (snd pair)) l = true →
  Forall (λ pair, ∀ used flags,
            Accept (snd pair) (at_state c used flags)
            = Done (true,
                    at_state c
                      (used_after st (output_symbols_ c) (snd pair) used)
                      (flags ++ [false]))) l.
Proof.
  intros <- Hall Hp. rewrite forallb_forall in Hp.
  rewrite Forall_forall in Hall. apply Forall_forall. intros e He used flags.
  apply (Hall e He). apply (Hp e). by apply list_elem_of_In.
Qed.

Lemma optional_at_state c (o : option Expression) used flags (has_aggr : bool) :
  from_option visits_plain True o →
  from_option (plain (symbol_table_ c)) true o = true →
  match o with
  | Some e =>
      '(_, c') ← Accept e (at_state c used flags);
      b ← back_flag c';
      c' ← pop_flag c';
      Done (has_aggr || b, c')
  | None => Done (has_aggr, at_state c used flags)
  end
  = Done (has_aggr,
          at_state c
            (from_option
               (λ e, used_after (symbol_table_ c) (output_symbols_ c) e used)
               used o)
            flags).
Proof.
  destruct o as [e|]; simpl; [|done]. intros He Hp.
  rewrite (He c used flags Hp). simpl.
  rewrite back_flag_at_state. simpl. rewrite pop_flag_at_state. simpl.
  by rewrite orb_false_r.
Qed.

(** A plain expression is visited to the end: the visit returns, takes up
    the identifiers, pushes the flag [false] and leaves the rest of the
    classifier as it is. *)
Lemma Accept_plain e : visits_plain e.
Proof.
  induction e as
    [ uid | uid l IHl | uid l IHl | ident | uid | uid e property IHe
    | uid kind e IHe | uid kind e1 e2 IHe1 IHe2
    | uid list_ lower upper IHlist IHlower IHupper
    | uid e1 e2 e3 IHe1 IHe2 IHe3 | uid nm l IHl | uid op_ o1 o2 IHo1 IHo2
    | uid ident e1 wuid e2 IHe1 IHe2 ] using Expression_induction;
    intros c used flags Hp; simpl in Hp; simpl.
  - unfold Visit_PrimitiveLiteral. by rewrite push_flag_at_state.
  - rewrite (accept_each_at_state Accept
               (used_after (symbol_table_ c) (output_symbols_ c)) c l)
      by (by apply plain_each).
    simpl. apply fold_last_flags_at_state.
  - rewrite (accept_each_at_state (λ pair, Accept (snd pair))
               (λ pair, used_after (symbol_table_ c) (output_symbols_ c)
                          (snd pair)) c l)
      by (by apply plain_each_snd).
    simpl. apply fold_last_flags_at_state.
  - apply Visit_Identifier_at_state. by apply bool_decide_eq_true in Hp.
  - unfold Visit_ParameterLookup. by rewrite push_flag_at_state.
  - by rewrite (IHe c used flags Hp).
  - by rewrite (IHe c used flags Hp).
  - apply andb_true_iff in Hp as [Hp1 Hp2].
    rewrite (IHe1 c used flags Hp1). simpl.
    rewrite (IHe2 c _ _ Hp2). simpl.
    apply PostVisit_BinaryOperator_at_state.
  - apply andb_true_iff in Hp as [[Hp1 Hp2]%andb_true_iff Hp3].
    unfold PreVisit_ListSlicingOperator.
    rewrite (IHlist c used flags Hp1). simpl.
    rewrite back_flag_at_state. simpl. rewrite pop_flag_at_state. simpl.
    rewrite (optional_at_state c lower _ flags false IHlower Hp2). simpl.
    rewrite (optional_at_state c upper _ flags false IHupper Hp3). simpl.
    by rewrite push_flag_at_state.
  - apply andb_true_iff in Hp as [[Hp1 Hp2]%andb_true_iff Hp3].
    unfold PreVisit_IfOperator.
    rewrite (IHe1 c used flags Hp1). simpl.
    rewrite back_flag_at_state. simpl. rewrite pop_flag_at_state. simpl.
    rewrite (IHe2 c _ flags Hp2). simpl.
    rewrite back_flag_at_state. simpl. rewrite pop_flag_at_state. simpl.
    rewrite (IHe3 c _ flags Hp3). simpl.
    rewrite back_flag_at_state. simpl. rewrite pop_flag_at_state. simpl.
    by rewrite push_flag_at_state.
  - rewrite (accept_each_at_state Accept
               (used_after (symbol_table_ c) (output_symbols_ c)) c l)
      by (by apply plain_each).
    simpl. apply fold_last_flags_at_state.
  - discriminate Hp.
  - apply andb_true_iff in Hp as [[Hp0 Hp1]%andb_true_iff Hp2].
    apply bool_decide_eq_true in Hp0. pose proof Hp0 as [s Hs].
    rewrite (Visit_Identifier_at_state ident c used flags Hp0). simpl.
    rewrite (IHe1 c _ _ Hp1). simpl.
    rewrite (IHe2 c _ _ Hp2). simpl.
    rewrite Hs. by apply PostVisit_All_at_state.
Qed.

Lemma pop_flag_Done c c' :
  pop_flag c = Done c' →
  c' = set_has_aggregation_ (removelast (has_aggregation_ c)) c.
Proof. unfold pop_flag. destruct (has_aggregation_ c); by intros [= <-]. Qed.

Lemma set_back_flag_Done flag c c' :
  set_back_flag flag c = Done c' →
  c' = set_has_aggregation_
         (emplace_back (removelast (has_aggregation_ c)) flag) c.
Proof.
  unfold set_back_flag. destruct (has_aggregation_ c); by intros [= <-].
Qed.

(** Replaces the results of [pop_flag] by what they are. *)
Ltac pop_inv :=
  repeat match goal with
    | H : pop_flag _ = Done _ |- _ => apply pop_flag_Done in H; subst
    | H : set_back_flag _ _ = Done _ |- _ =>
        apply set_back_flag_Done in H; subst
    end.

Lemma fold_last_flags_quiet n msg : quiet (fold_last_flags n msg).
Proof. intros c b c' H. unfold fold_last_flags in H. run_inv. done. Qed.

Lemma Visit_Identifier_quiet ident c b c' :
  Visit_Identifier ident c = Done (b, c') →
  b = true ∧ symbol_table_ c' = symbol_table_ c
  ∧ aggregations_ c' = aggregations_ c
  ∧ is_Some (symbol_table_ c !! Identifier_uid ident).
Proof.
  unfold Visit_Identifier. intros H.
  apply bind_Done in H as (s & Hs%SymbolTable_at_Done & H). simpl in H.
  simplify_eq. by destruct (bool_decide _).
Qed.

Lemma PostVisit_BinaryOperator_quiet e1 e2 :
  quiet (PostVisit_BinaryOperator e1 e2).
Proof.
  intros c b c' H. unfold PostVisit_BinaryOperator in H. run_inv; pop_inv.
  by destruct (_ && _).
Qed.

Lemma PostVisit_All_quiet ident : quiet (PostVisit_All ident).
Proof.
  intros c b c' H. unfold PostVisit_All in H. run_inv; pop_inv. done.
Qed.

Lemma plain_or_grown (p1 p2 : bool) {A} (aggs1 aggs2 : list A) :
  p1 = true ∨ aggs1 ≠ [] → p2 = true ∨ aggs2 ≠ [] →
  p1 && p2 = true ∨ aggs1 ++ aggs2 ≠ [].
Proof.
  intros [->|H1] [->|H2]; [by left|right..];
    intros [? ?]%app_eq_nil; done.
Qed.

Lemma accept_each_returns_plain {A} (accept : A → Visitor)
    (p : SymbolTable → A → bool) l :
  Forall (λ x, ∀ c b c', accept x c = Done (b, c') →
            b = true ∧ symbol_table_ c' = symbol_table_ c
            ∧ ∃ aggs, aggregations_ c' = aggregations_ c ++ aggs
                      ∧ (p (symbol_table_ c) x = true ∨ aggs ≠ [])) l →
  ∀ c b c', accept_each accept l c = Done (b, c') →
    b = true ∧ symbol_table_ c' = symbol_table_ c
    ∧ ∃ aggs, aggregations_ c' = aggregations_ c ++ aggs
              ∧ (forallb (p (symbol_table_ c)) l = true ∨ aggs ≠ []).
Proof.
  induction 1 as [|x l Hx _ IH]; intros c b c' H; simpl in H.
  { simplify_eq. split; [done|]. split; [done|]. exists [].
    rewrite app_nil_r. split; [done|]. by left. }
  apply bind_Done in H as ([cont c1] & H1 & H). simpl in H.
  apply Hx in H1 as (-> & Hst1 & aggs1 & Ha1 & Hp1).
  apply IH in H as (-> & Hst & aggs & Ha & Hp). rewrite Hst1 in Hst, Hp.
  split; [done|]. split; [done|]. exists (aggs1 ++ aggs).
  split; [by rewrite Ha, Ha1, app_assoc|]. simpl.
  by apply plain_or_grown.
Qed.

Lemma optional_returns_plain (o : option Expression) c b c' :
  from_option returns_plain True o →
  match o with
  | Some e => Accept e c
  | None => Done (true, c)
  end = Done (b, c') →
  symbol_table_ c' = symbol_table_ c
  ∧ ∃ aggs, aggregations_ c' = aggregations_ c ++ aggs
            ∧ (from_option (plain (symbol_table_ c)) true o = true
               ∨ aggs ≠ []).
Proof.
  destruct o as [e|]; simpl; intros Ho H.
  - by apply Ho in H as (_ & ? & ?).
  - simplify_eq. split; [done|]. exists []. rewrite app_nil_r.
    split; [done|]. by left.
Qed.

Lemma Accept_returns_plain e : returns_plain e.
Proof.
  induction e as
    [ uid | uid l IHl | uid l IHl | ident | uid | uid e property IHe
    | uid kind e IHe | uid kind e1 e2 IHe1 IHe2
    | uid list_ lower upper IHlist IHlower IHupper
    | uid e1 e2 e3 IHe1 IHe2 IHe3 | uid nm l IHl | uid op_ o1 o2 IHo1 IHo2
    | uid ident e1 wuid e2 IHe1 IHe2 ] using Expression_induction;
    intros c b c' H; simpl in H.
  - unfold Visit_PrimitiveLiteral in H. simplify_eq.
    split; [done|]. split; [done|]. exists []. rewrite app_nil_r.
    split; [done|]. by left.
  - apply bind_Done in H as ([? c1] & H1 & H). simpl in H.
    apply (accept_each_returns_plain Accept plain) in H1
      as (_ & Hst1 & aggs & Ha & Hp); [|done].
    apply fold_last_flags_quiet in H as (-> & Hst & Hagg).
    split; [done|]. split; [congruence|]. exists aggs.
    split; [congruence|done].
  - apply bind_Done in H as ([? c1] & H1 & H). simpl in H.
    apply (accept_each_returns_plain (λ pair, Accept (snd pair))
             (λ st pair, plain st (snd pair))) in H1
      as (_ & Hst1 & aggs & Ha & Hp); [|done].
    apply fold_last_flags_quiet in H as (-> & Hst & Hagg).
    split; [done|]. split; [congruence|]. exists aggs.
    split; [congruence|done].
  - apply Visit_Identifier_quiet in H as (-> & Hst & Hagg & Hs).
    split; [done|]. split; [done|]. exists []. rewrite app_nil_r.
    split; [done|]. left. simpl. by apply bool_decide_eq_true_2.
  - unfold Visit_ParameterLookup in H. simplify_eq.
    split; [done|]. split; [done|]. exists []. rewrite app_nil_r.
    split; [done|]. by left.
  - apply bind_Done in H as ([? c1] & H1 & H). simpl in H. simplify_eq.
    apply IHe in H1 as (_ & ? & ?). done.
  - apply bind_Done in H as ([? c1] & H1 & H). simpl in H. simplify_eq.
    apply IHe in H1 as (_ & ? & ?). done.
  - apply bind_Done in H as ([cont c1] & H1 & H). simpl in H.
    apply IHe1 in H1 as (-> & Hst1 & aggs1 & Ha1 & Hp1).
    apply bind_Done in H as ([? c2] & H2 & H). simpl in H.
    apply IHe2 in H2 as (_ & Hst2 & aggs2 & Ha2 & Hp2).
    apply PostVisit_BinaryOperator_quiet in H as (-> & Hst & Hagg).
    rewrite Hst1 in Hp2.
    split; [done|]. split; [congruence|]. exists (aggs1 ++ aggs2).
    split; [by rewrite Hagg, Ha2, Ha1, app_assoc|]. simpl.
    by apply plain_or_grown.
  - apply bind_Done in H as ([? c1] & H1 & H). simpl in H. simplify_eq.
    split; [done|].
    unfold PreVisit_ListSlicingOperator in H1.
    apply bind_Done in H1 as ([? c1] & H1 & H).
    apply IHlist in H1 as (_ & Hst1 & aggs1 & Ha1 & Hp1). simpl in H.
    apply bind_Done in H as (f1 & _ & H).
    apply bind_Done in H as (c2 & ->%pop_flag_Done & H).
    apply bind_Done in H as ([h2 c3] & H2 & H). simpl in H.
    apply bind_Done in H as ([h3 c4] & H3 & H). simpl in H. simplify_eq.
    assert (symbol_table_ c3 = symbol_table_ c
            ∧ ∃ aggs, aggregations_ c3 = aggregations_ c1 ++ aggs
                      ∧ (from_option (plain (symbol_table_ c)) true lower
                         = true ∨ aggs ≠ [])) as (Hst3 & aggs2 & Ha2 & Hp2).
    { destruct lower as [lo|]; simpl in *.
      - apply bind_Done in H2 as ([? c5] & H2 & H). simpl in H.
        apply IHlower in H2 as (_ & Hst & aggs & Ha & Hp).
        apply bind_Done in H as (? & _ & H).
        apply bind_Done in H as (? & ->%pop_flag_Done & H). simplify_eq.
        simpl in *. rewrite Hst1 in Hst, Hp. eauto.
      - simplify_eq. simpl. split; [done|]. exists [].
        rewrite app_nil_r. split; [done|]. by left. }
    assert (symbol_table_ c4 = symbol_table_ c
            ∧ ∃ aggs, aggregations_ c4 = aggregations_ c3 ++ aggs
                      ∧ (from_option (plain (symbol_table_ c)) true upper
                         = true ∨ aggs ≠ [])) as (Hst4 & aggs3 & Ha3 & Hp3).
    { destruct upper as [up|]; simpl in *.
      - apply bind_Done in H3 as ([? c5] & H3 & H). simpl in H.
        apply IHupper in H3 as (_ & Hst & aggs & Ha & Hp).
        apply bind_Done in H as (? & _ & H).
        apply bind_Done in H as (? & ->%pop_flag_Done & H). simplify_eq.
        simpl in *. rewrite Hst3 in Hst, Hp. split; [congruence|]. eauto.
      - simplify_eq. split; [done|]. exists [].
        rewrite app_nil_r. split; [done|]. by left. }
    assert (∀ (b : bool) x,
              symbol_table_ (push_flag x (if b then push_group_by list_ c4
                                          else c4)) = symbol_table_ c4
              ∧ aggregations_ (push_flag x (if b then push_group_by list_ c4
                                            else c4)) = aggregations_ c4)
      as Hend by (by intros []).
    destruct (Hend (h3 && negb f1) h3) as [-> ->].
    split; [done|]. exists (aggs1 ++ aggs2 ++ aggs3).
    split; [by rewrite Ha3, Ha2, Ha1, !app_assoc|].
    simpl. rewrite <- andb_assoc.
    apply plain_or_grown; [done|]. by apply plain_or_grown.
  - apply bind_Done in H as ([? c1] & H1 & H). simpl in H. simplify_eq.
    split; [done|].
    unfold PreVisit_IfOperator in H1.
    apply bind_Done in H1 as ([? c1] & H1 & H).
    apply IHe1 in H1 as (_ & Hst1 & aggs1 & Ha1 & Hp1). simpl in H.
    apply bind_Done in H as (f1 & _ & H).
    apply bind_Done in H as (c2 & ->%pop_flag_Done & H).
    apply bind_Done in H as ([? c3] & H2 & H).
    apply IHe2 in H2 as (_ & Hst2 & aggs2 & Ha2 & Hp2). simpl in H.
    apply bind_Done in H as (f2 & _ & H).
    apply bind_Done in H as (c4 & ->%pop_flag_Done & H).
    apply bind_Done in H as ([? c5] & H3 & H).
    apply IHe3 in H3 as (_ & Hst3 & aggs3 & Ha3 & Hp3). simpl in H.
    apply bind_Done in H as (f3 & _ & H).
    apply bind_Done in H as (c6 & ->%pop_flag_Done & H).
    apply bind_Done in H as ([] & _ & H). simplify_eq. simpl in *.
    rewrite Hst1 in Hp2. rewrite Hst2, Hst1 in Hp3.
    split; [congruence|]. exists (aggs1 ++ aggs2 ++ aggs3).
    split; [by rewrite Ha3, Ha2, Ha1, !app_assoc|].
    simpl. rewrite <- andb_assoc.
    apply plain_or_grown; [done|]. by apply plain_or_grown.
  - apply bind_Done in H as ([? c1] & H1 & H). simpl in H.
    apply (accept_each_returns_plain Accept plain) in H1
      as (_ & Hst1 & aggs & Ha & Hp); [|done].
    apply fold_last_flags_quiet in H as (-> & Hst & Hagg).
    split; [done|]. split; [congruence|]. exists aggs.
    split; [congruence|done].
  - apply bind_Done in H as ([? c1] & H1 & H). simpl in H.
    apply optional_returns_plain in H1 as (Hst1 & aggs1 & Ha1 & _);
      [|done].
    apply bind_Done in H as ([? c2] & H2 & H). simpl in H.
    apply optional_returns_plain in H2 as (Hst2 & aggs2 & Ha2 & _);
      [|done].
    unfold PostVisit_Aggregation in H.
    apply bind_Done in H as (s & _ & H). simpl in H.
    apply bind_Done in H as (c3 & H3 & H).
    apply bind_Done in H as (c4 & H4 & H). simplify_eq.
    assert (symbol_table_ c' = symbol_table_ c2
            ∧ aggregations_ c'
              = aggregations_ c2 ++ [mkElement o1 o2 op_ s]) as [Hst Hagg].
    { destruct (bool_decide (op_ = COLLECT_MAP)), o1; pop_inv;
        simplify_eq; done. }
    split; [done|]. split; [congruence|].
    exists (aggs1 ++ aggs2 ++ [mkElement o1 o2 op_ s]).
    split; [by rewrite Hagg, Ha2, Ha1, !app_assoc|].
    right. intros [_ [_ ?]%app_eq_nil]%app_eq_nil. done.
  - apply bind_Done in H as ([cont c1] & H1 & H). simpl in H.
    apply Visit_Identifier_quiet in H1 as (-> & Hst1 & Ha1 & Hs).
    apply bind_Done in H as ([cont2 c2] & H2 & H). simpl in H.
    apply IHe1 in H2 as (-> & Hst2 & aggs2 & Ha2 & Hp2).
    apply bind_Done in H as ([? c3] & H3 & H). simpl in H.
    apply bind_Done in H3 as ([? c4] & H3 & H4). simpl in H4. simplify_eq.
    apply IHe2 in H3 as (_ & Hst3 & aggs3 & Ha3 & Hp3).
    apply PostVisit_All_quiet in H as (-> & Hst & Hagg).
    rewrite Hst1 in Hp2. rewrite Hst2, Hst1 in Hp3.
    split; [done|]. split; [congruence|]. exists (aggs2 ++ aggs3).
    split; [by rewrite Hagg, Ha3, Ha2, Ha1, app_assoc|]. simpl.
    rewrite (bool_decide_eq_true_2 _ Hs). simpl.
    by apply plain_or_grown.
Qed.

(** ** The symbols taken up from ORDER BY and WHERE *)

Lemma taken_up_nil st out s : taken_up st out [] s ↔ False.
Proof. split; [|done]. by intros (_ & ident & ?%not_elem_of_nil & _). Qed.

Lemma taken_up_app st out ids1 ids2 s :
  taken_up st out (ids1 ++ ids2) s
  ↔ taken_up st out ids1 s ∨ taken_up st out ids2 s.
Proof.
  unfold taken_up. setoid_rewrite elem_of_app. naive_solver.
Qed.

Lemma taken_up_concat {A} st out (f : A → list Identifier) l s :
  taken_up st out (concat (f <$> l)) s ↔ ∃ x, x ∈ l ∧ taken_up st out (f x) s.
Proof.
  induction l as [|x l IH]; simpl.
  - rewrite taken_up_nil. split; [done|]. by intros (x & ?%not_elem_of_nil & _).
  - rewrite taken_up_app, IH. setoid_rewrite elem_of_cons. naive_solver.
Qed.

Lemma use_identifier_elem st out ident used s :
  s ∈ use_identifier st out ident used
  ↔ s ∈ used ∨ taken_up st out [ident] s.
Proof.
  unfold use_identifier, taken_up.
  setoid_rewrite list_elem_of_singleton.
  destruct (st !! Identifier_uid ident) as [s'|] eqn:Hs.
  - destruct (bool_decide (s' ∈ out)) eqn:Hout.
    + apply bool_decide_eq_true in Hout. naive_solver.
    + apply bool_decide_eq_false in Hout.
      rewrite elem_of_union, elem_of_singleton. naive_solver.
  - naive_solver.
Qed.

Lemma foldl_used_elem {A} (after : A → gset Symbol → gset Symbol)
    (Q : A → Symbol → Prop) l :
  Forall (λ x, ∀ used s, s ∈ after x used ↔ s ∈ used ∨ Q x s) l →
  ∀ used s,
    s ∈ foldl (λ used x, after x used) used l
    ↔ s ∈ used ∨ ∃ x, x ∈ l ∧ Q x s.
Proof.
  induction 1 as [|x l Hx _ IH]; intros used s; simpl.
  - split; [by left|]. by intros [?|(x & ?%not_elem_of_nil & _)].
  - rewrite IH, Hx. setoid_rewrite elem_of_cons. naive_solver.
Qed.

Lemma from_option_used_elem st out (o : option Expression) used s :
  from_option
    (λ e, quantifier_free e = true →
          ∀ used s, s ∈ used_after st out e used
                    ↔ s ∈ used ∨ taken_up st out (identifiers e) s)
    True o →
  from_option quantifier_free true o = true →
  s ∈ from_option (λ e, used_after st out e used) used o
  ↔ s ∈ used ∨ taken_up st out (from_option identifiers [] o) s.
Proof.
  destruct o as [e|]; simpl.
  - intros IH Hq. by apply IH.
  - intros _ _. rewrite taken_up_nil. naive_solver.
Qed.

(** On an expression without quantifiers the visit only adds to the used
    symbols, namely the symbols of the identifiers that are no output
    symbols. *)
Lemma used_after_elem st out e :
  quantifier_free e = true →
  ∀ used s,
    s ∈ used_after st out e used
    ↔ s ∈ used ∨ taken_up st out (identifiers e) s.
Proof.
  induction e as
    [ uid | uid l IHl | uid l IHl | ident | uid | uid e property IHe
    | uid kind e IHe | uid kind e1 e2 IHe1 IHe2
    | uid list_ lower upper IHlist IHlower IHupper
    | uid e1 e2 e3 IHe1 IHe2 IHe3 | uid nm l IHl | uid op_ o1 o2 IHo1 IHo2
    | uid ident e1 wuid e2 IHe1 IHe2 ] using Expression_induction;
    intros Hq used s; simpl in Hq; simpl.
  - rewrite taken_up_nil. naive_solver.
  - rewrite (foldl_used_elem (used_after st out)
               (λ e, taken_up st out (identifiers e))), taken_up_concat;
      [done|].
    rewrite forallb_forall in Hq. rewrite Forall_forall in IHl.
    apply Forall_forall. intros e He. apply (IHl e He), Hq.
    by apply list_elem_of_In.
  - rewrite (foldl_used_elem
               (λ pair : string * Expression, used_after st out (snd pair))
               (λ pair, taken_up st out (identifiers (snd pair)))),
      taken_up_concat; [done|].
    rewrite forallb_forall in Hq. rewrite Forall_forall in IHl.
    apply Forall_forall. intros e He. apply (IHl e He), (Hq e).
    by apply list_elem_of_In.
  - apply use_identifier_elem.
  - rewrite taken_up_nil. naive_solver.
  - by apply IHe.
  - by apply IHe.
  - apply andb_true_iff in Hq as [Hq1 Hq2].
    rewrite (IHe2 Hq2), (IHe1 Hq1), taken_up_app. naive_solver.
  - apply andb_true_iff in Hq as [[Hq1 Hq2]%andb_true_iff Hq3].
    rewrite (from_option_used_elem st out upper _ s IHupper Hq3).
    rewrite (from_option_used_elem st out lower _ s IHlower Hq2).
    rewrite (IHlist Hq1), !taken_up_app. naive_solver.
  - apply andb_true_iff in Hq as [[Hq1 Hq2]%andb_true_iff Hq3].
    rewrite (IHe3 Hq3), (IHe2 Hq2), (IHe1 Hq1), !taken_up_app. naive_solver.
  - rewrite (foldl_used_elem (used_after st out)
               (λ e, taken_up st out (identifiers e))), taken_up_concat;
      [done|].
    rewrite forallb_forall in Hq. rewrite Forall_forall in IHl.
    apply Forall_forall. intros e He. apply (IHl e He), Hq.
    by apply list_elem_of_In.
  - apply andb_true_iff in Hq as [Hq1 Hq2].
    rewrite (from_option_used_elem st out o2 _ s IHo2 Hq2).
    rewrite (from_option_used_elem st out o1 _ s IHo1 Hq1).
    rewrite taken_up_app. naive_solver.
  - discriminate Hq.
Qed.

Lemma used_after_each_elem st out l used s :
  Forall (λ e, quantifier_free e = true) l →
  s ∈ used_after_each st out l used
  ↔ s ∈ used
    ∨ ((s ∉ out)
       ∧ ∃ e ident, e ∈ l ∧ ident ∈ identifiers e
                    ∧ st !! Identifier_uid ident = Some s).
Proof.
  intros Hq. unfold used_after_each.
  rewrite (foldl_used_elem (used_after st out)
             (λ e, taken_up st out (identifiers e))).
  - unfold taken_up. naive_solver.
  - eapply Forall_impl; [exact Hq|]. intros e He. by apply used_after_elem.
Qed.

(** ** The block that visits ORDER BY and WHERE *)

Lemma visit_order_by_at_state c (l : list (Ordering * Expression)) :
  Forall (λ e, plain (symbol_table_ c) e = true) (snd <$> l) →
  ∀ used flags,
    for_each (λ c order_pair, '(_, c) ← Accept (snd order_pair) c; Done c) l
      (at_state c used flags)
    = Done (at_state c
              (used_after_each (symbol_table_ c) (output_symbols_ c)
                 (snd <$> l) used)
              (flags ++ replicate (length l) false)).
Proof.
  induction l as [|p l IH]; intros Hp used flags; simpl.
  { by rewrite app_nil_r. }
  rewrite fmap_cons in Hp. apply Forall_cons in Hp as [Hp1 Hp].
  rewrite (Accept_plain (snd p) c used flags Hp1). simpl.
  rewrite (IH Hp). by rewrite <- app_assoc.
Qed.

Lemma visit_order_by_and_where_plain body w c :
  aggregations_ c = [] →
  Forall (λ e, plain (symbol_table_ c) e = true) (clause_expressions body w) →
  visit_order_by_and_where body w c
  = Done (at_state c
            (used_after_each (symbol_table_ c) (output_symbols_ c)
               (clause_expressions body w) (used_symbols_ c))
            (replicate (length (clause_expressions body w)) false)).
Proof.
  intros Hagg Hp. unfold clause_expressions in *.
  apply Forall_app in Hp as [Hp1 Hp2].
  unfold visit_order_by_and_where.
  rewrite <- (at_state_id c) at 1.
  rewrite (visit_order_by_at_state c (order_by body) Hp1). simpl.
  unfold used_after_each. rewrite foldl_app, length_app, replicate_add.
  rewrite length_fmap.
  destruct w as [w|]; simpl in Hp2 |- *.
  - apply Forall_inv in Hp2. unfold Accept_Where.
    rewrite (Accept_plain (Where_expression_ w) c _ _ Hp2). simpl.
    change (aggregations_ (at_state c ?u ?f)) with (aggregations_ c).
    by rewrite bool_decide_eq_true_2.
  - change (aggregations_ (at_state c ?u ?f)) with (aggregations_ c).
    rewrite bool_decide_eq_true_2 by done. simpl. by rewrite app_nil_r.
Qed.

Lemma visit_order_by_returns_plain (l : list (Ordering * Expression)) :
  ∀ c c',
    for_each (λ c order_pair, '(_, c) ← Accept (snd order_pair) c; Done c) l c
    = Done c' →
    symbol_table_ c' = symbol_table_ c
    ∧ ∃ aggs, aggregations_ c' = aggregations_ c ++ aggs
              ∧ (Forall (λ e, plain (symbol_table_ c) e = true) (snd <$> l)
                 ∨ aggs ≠ []).
Proof.
  induction l as [|p l IH]; intros c c' H; simpl in H.
  { simplify_eq. split; [done|]. exists []. rewrite app_nil_r.
    split; [done|]. by left. }
  apply bind_Done in H as (c1 & H1 & H).
  apply bind_Done in H1 as ([? c2] & H1 & H2). simpl in H2. simplify_eq.
  apply Accept_returns_plain in H1 as (_ & Hst1 & aggs1 & Ha1 & Hp1).
  apply IH in H as (Hst & aggs & Ha & Hp). rewrite Hst1 in Hst, Hp.
  split; [done|]. exists (aggs1 ++ aggs).
  split; [by rewrite Ha, Ha1, app_assoc|].
  destruct Hp1 as [Hp1|Hne]; [|right; by intros [? _]%app_eq_nil].
  destruct Hp as [Hp|Hne]; [|right; by intros [_ ?]%app_eq_nil].
  left. rewrite fmap_cons. by constructor.
Qed.

Lemma visit_order_by_and_where_returns_plain body w c c' :
  aggregations_ c = [] →
  visit_order_by_and_where body w c = Done c' →
  Forall (λ e, plain (symbol_table_ c) e = true) (clause_expressions body w).
Proof.
  intros Hagg H. unfold visit_order_by_and_where in H.
  apply bind_Done in H as (c1 & H1 & H).
  apply bind_Done in H as (c2 & H2 & H).
  apply bind_Done in H as ([] & Hd & H). simplify_eq.
  unfold DCHECK in Hd.
  destruct (bool_decide (aggregations_ c' = [])) eqn:Hend; [|done].
  apply bool_decide_eq_true in Hend.
  unfold clause_expressions. apply Forall_app.
  destruct w as [w|]; simpl in *.
  - apply bind_Done in H2 as ([? c3] & H2 & H3). simpl in H3. simplify_eq.
    unfold Accept_Where in H2.
    apply bind_Done in H2 as ([? c4] & H2 & H3). simpl in H3. simplify_eq.
    apply visit_order_by_returns_plain in H1 as (Hst1 & aggs1 & Ha1 & Hp1).
    apply Accept_returns_plain in H2 as (_ & Hst2 & aggs2 & Ha2 & Hp2).
    rewrite Ha1, Hagg, Hend in Ha2. simpl in Ha2.
    symmetry in Ha2. apply app_eq_nil in Ha2 as [-> ->].
    rewrite Hst1 in Hp2.
    destruct Hp1 as [Hp1|?]; [|done]. destruct Hp2 as [Hp2|?]; [|done].
    split; [done|]. by apply Forall_singleton.
  - simplify_eq.
    apply visit_order_by_returns_plain in H1 as (Hst1 & aggs1 & Ha1 & Hp1).
    rewrite Hagg, Hend in Ha1. simpl in Ha1. subst aggs1.
    destruct Hp1 as [Hp1|?]; [|done]. split; [done|]. constructor.
Qed.

(** C9. Let [c] be the classifier after the named expressions of the body
    (and the expansion of [*]) have been visited. If [c] has an aggregation,
    the constructor returns [c] whatever the ORDER BY expressions and the
    WHERE clause are: they are not visited, and the used symbols, the
    group-by list and every other member collected are the same for any
    other ORDER BY and WHERE. If [c] has no aggregation, the constructor
    visits the ORDER BY expressions and then the WHERE clause from [c]: it
    returns exactly when each of them is plain (no aggregation in it, a
    symbol for every identifier), and then the used symbols are those of
    [c] after the visit of these expressions in order; when no quantifier
    occurs in them, these are the used symbols of [c] together with the
    symbols of the identifiers of ORDER BY and WHERE that are no output
    symbols. The output symbols, the named expressions, the symbol table
    and the group-by list stay as in [c], and there is still no
    aggregation. *)
Theorem ReturnBodyContext_new_order_by_where body (st : SymbolTable) bound
    storage w c :
  collect_named_expressions body st bound storage w = Done c →
  (aggregations_ c ≠ [] →
   ReturnBodyContext_new body st bound storage w = Done c
   ∧ ∀ order w',
       ReturnBodyContext_new (with_order_by body order) st bound storage w'
       = Done (with_clauses (with_order_by body order) w' c))
  ∧ (aggregations_ c = [] →
     ReturnBodyContext_new body st bound storage w
     = visit_order_by_and_where body w c
     ∧ (is_done (ReturnBodyContext_new body st bound storage w) = true
        ↔ Forall (λ e, plain (symbol_table_ c) e = true)
            (clause_expressions body w))
     ∧ ∀ c',
         ReturnBodyContext_new body st bound storage w = Done c' →
         used_symbols_ c'
         = used_after_each (symbol_table_ c) (output_symbols_ c)
             (clause_expressions body w) (used_symbols_ c)
         ∧ (Forall (λ e, quantifier_free e = true)
              (clause_expressions body w) →
            ∀ s, s ∈ used_symbols_ c'
                 ↔ s ∈ used_symbols_ c
                   ∨ ((s ∉ output_symbols_ c)
                      ∧ ∃ e ident,
                          e ∈ clause_expressions body w
                          ∧ ident ∈ identifiers e
                          ∧ symbol_table_ c !! Identifier_uid ident
                            = Some s))
         ∧ same_outputs c c'
         ∧ aggregations_ c' = []
         ∧ group_by_ c' = group_by_ c).
Proof.
  intros Hc. split.
  - intros Hagg. split.
    + unfold ReturnBodyContext_new. rewrite Hc. simpl.
      by rewrite bool_decide_eq_false_2.
    + intros order w'. unfold ReturnBodyContext_new.
      rewrite (collect_named_expressions_rebase body st bound storage w).
      rewrite Hc. simpl. by rewrite bool_decide_eq_false_2.
  - intros Hagg.
    assert (ReturnBodyContext_new body st bound storage w
            = visit_order_by_and_where body w c) as Hnew.
    { unfold ReturnBodyContext_new. rewrite Hc. simpl.
      by rewrite bool_decide_eq_true_2. }
    split; [exact Hnew|]. rewrite Hnew. split.
    + split.
      * intros Hd.
        destruct (visit_order_by_and_where body w c) as [c'| |] eqn:Hv;
          [|done..].
        by eapply visit_order_by_and_where_returns_plain.
      * intros Hp. by rewrite visit_order_by_and_where_plain.
    + intros c' Hc'.
      pose proof (visit_order_by_and_where_returns_plain _ _ _ _ Hagg Hc')
        as Hp.
      rewrite (visit_order_by_and_where_plain body w c Hagg Hp) in Hc'.
      injection Hc' as <-.
      split; [done|]. split; [|done].
      intros Hq s. by apply used_after_each_elem.
Qed.

(** ** The examples *)

(** C4 on the code. In [RETURN n.k AS k, <column> AS s] the column
    [n.k + sum(n.v)] makes the classifier group by [n.k] twice, once for
    each column; with the list [[sum(n.v), n.k]], the call [f(sum(n.v), n.k)]
    or the map [{x: sum(n.v), y: n.k}] in its place, the child [n.k] of the
    composite, whose flag is false while the combined flag is true, is not
    appended: the group-by list holds [n.k] once, for the first column. *)
Theorem literal_and_call_children_not_grouped :
  group_by_of (returning column_plus) = Done [n_k; n_k]
  ∧ group_by_of (returning column_list) = Done [n_k]
  ∧ group_by_of (returning column_call) = Done [n_k]
  ∧ group_by_of (returning column_map) = Done [n_k].
Proof. repeat split; vm_compute; reflexivity. Qed.

Lemma GenCreateForPattern_plan_witness :
  ∃ plan expands,
    GenCreateForPattern create_pattern NoInput create_table ∅
    = Done (plan, ∅ ∪ {[sym_a]} ∪ list_to_set [sym_e; sym_b])
    ∧ operators plan = rev expands ++ [CreateNode node_a]
    ∧ expands !! 0 = Some (CreateExpand node_b edge_e sym_a false).
Proof.
  destruct (GenCreateForPattern_plan create_pattern NoInput create_table ∅
              node_a [(edge_e, node_b)] sym_a [(sym_e, sym_b)] sym_path)
    as (plan & expands & Hrun & Hops & Hlen & Hith).
  - reflexivity.
  - reflexivity.
  - repeat constructor.
  - discriminate.
  - intros i (es & ns & Hi & Hre). destruct i as [|i]; [|discriminate Hi].
    injection Hi as <- <-. destruct Hre as [Hre|Hre]; [discriminate Hre|].
    assert (bool_decide (sym_e ∈ bound_before_triple ∅ sym_a
                                   [(sym_e, sym_b)] 0) = false) as Hn
      by (vm_compute; reflexivity).
    apply bool_decide_eq_false in Hn. exact (Hn Hre).
  - exists plan, expands. split; [exact Hrun|]. split; [exact Hops|].
    destruct (Hith 0 edge_e node_b sym_e sym_b eq_refl eq_refl)
      as (prev & Hprev & Hexp).
    injection Hprev as <-. exact Hexp.
Defined.

Lemma GenCreateForPattern_edge_redeclared_witness :
  edge_redeclared {[sym_e]} sym_a [(sym_e, sym_b)] 0
  ∧ GenCreateForPattern create_pattern NoInput create_table {[sym_e]}
    = Abort (Fatal edge_redeclaration_msg).
Proof.
  assert (edge_redeclared {[sym_e]} sym_a [(sym_e, sym_b)] 0) as Hre.
  { exists sym_e, sym_b. split; [reflexivity|]. right.
    apply (bool_decide_unpack _). vm_compute. exact I. }
  split; [exact Hre|].
  apply (GenCreateForPattern_edge_redeclared create_pattern NoInput create_table
           {[sym_e]} node_a [(edge_e, node_b)] sym_a [(sym_e, sym_b)] 0).
  - reflexivity.
  - reflexivity.
  - repeat constructor.
  - exact Hre.
Defined.

(** C5 as stated fails: with [e] already bound, [CREATE (a)-[e:R]->(b)]
    re-declares the edge symbol, and the planner aborts the process instead
    of raising a typed planner error. *)
Lemma edge_redeclaration_is_no_planner_error :
  edge_redeclared {[sym_e]} sym_a [(sym_e, sym_b)] 0
  ∧ ¬ (is_planner_error
         (GenCreateForPattern create_pattern NoInput create_table {[sym_e]})
       = true
       ∧ is_abort
           (GenCreateForPattern create_pattern NoInput create_table {[sym_e]})
         = false).
Proof.
  split.
  - exists sym_e, sym_b. split; [reflexivity|]. right.
    apply (bool_decide_unpack _). vm_compute. exact I.
  - vm_compute. intros [H _]. discriminate H.
Qed.

Lemma GenNamedPaths_entry_witness :
  let result :=
    GenNamedPaths NoInput {[sym_a; sym_e; sym_b]}
      [(sym_path, [sym_a; sym_e; sym_b])] in
  sym_path ∈ result.1.2 ∧ sym_path ∉ result.2.*1.
Proof.
  destruct (GenNamedPaths_entry NoInput {[sym_a; sym_e; sym_b]} []
              sym_path [sym_a; sym_e; sym_b] [])
    as (_ & _ & Hemit & _).
  - apply (bool_decide_unpack _). vm_compute. exact I.
  - destruct Hemit as (_ & Hin & Hout).
    + intros s Hs. apply list_elem_of_In in Hs.
      destruct Hs as [<-|[<-|[<-|[]]]]; apply (bool_decide_unpack _);
        vm_compute; exact I.
    + split; [exact Hin|exact Hout].
Defined.

Lemma GenWith_bound_symbols_witness :
  ∃ body,
    ReturnBodyContext_new (With_body_ with_n_as_m) with_table
      {[sym_n; sym_a]} (mkStorage 100) None = Done body
    ∧ output_symbols_ body = [sym_m]
    ∧ sym_n ∉ ({[sym_m]} : gset Symbol).
Proof.
  assert (GenWith with_n_as_m NoInput with_table false {[sym_n; sym_a]}
            (mkStorage 100)
          = Done (New (Produce (named_expressions (With_body_ with_n_as_m)))
                    NoInput,
                  {[sym_m]}, with_table, mkStorage 100)) as Hrun.
  { vm_compute. reflexivity. }
  destruct (GenWith_bound_symbols _ _ _ _ _ _ _ _ _ _ Hrun)
    as (body & expansion & syms & Hbody & _ & Hout & Hexp & Hsyms & _ & _
        & Hgone).
  exists body. split; [exact Hbody|].
  assert (output_symbols_ body = [sym_m]) as Hm.
  { clear -Hbody. vm_compute in Hbody. injection Hbody as <-. reflexivity. }
  split; [exact Hm|].
  apply Hgone.
  - apply (bool_decide_unpack _). vm_compute. exact I.
  - rewrite Hm. intros Hin. apply list_elem_of_In in Hin.
    destruct Hin as [Hin|[]]. discriminate Hin.
Defined.

Lemma ReturnBodyContext_new_order_by_where_witness :
  (∃ c,
     collect_named_expressions return_k_sum return_table {[sym_n]}
       (mkStorage 100) None = Done c
     ∧ ReturnBodyContext_new return_k_sum return_table {[sym_n]}
         (mkStorage 100) None = Done c
     ∧ ReturnBodyContext_new
         (with_order_by return_k_sum [(ASC, n_v)]) return_table {[sym_n]}
         (mkStorage 100) (Some (mkWhere 30 n_k))
       = Done (with_clauses (with_order_by return_k_sum [(ASC, n_v)])
                 (Some (mkWhere 30 n_k)) c))
  ∧ ∃ c c',
      collect_named_expressions return_k_by_m return_by_m_table {[sym_n]}
        (mkStorage 100) None = Done c
      ∧ ReturnBodyContext_new return_k_by_m return_by_m_table {[sym_n]}
          (mkStorage 100) None = Done c'
      ∧ (sym_m ∉ used_symbols_ c)
      ∧ sym_m ∈ used_symbols_ c'.
Proof.
  split.
  - destruct (collect_named_expressions return_k_sum return_table {[sym_n]}
                (mkStorage 100) None) as [c| |] eqn:Hc;
      [|vm_compute in Hc; discriminate Hc..].
    exists c. split; [reflexivity|].
    destruct (ReturnBodyContext_new_order_by_where _ _ _ _ _ _ Hc) as [Hagg _].
    destruct Hagg as [Hnew Hany].
    + vm_compute in Hc. injection Hc as <-. discriminate.
    + split; [exact Hnew|apply Hany].
  - destruct (collect_named_expressions return_k_by_m return_by_m_table
                {[sym_n]} (mkStorage 100) None) as [c| |] eqn:Hc;
      [|vm_compute in Hc; discriminate Hc..].
    destruct (ReturnBodyContext_new_order_by_where _ _ _ _ _ _ Hc) as [_ Hvisit].
    assert (aggregations_ c = [] ∧ symbol_table_ c = return_by_m_table
            ∧ output_symbols_ c = [sym_k] ∧ used_symbols_ c = {[sym_n]})
      as (Hagg & Hst & Hout & Hused).
    { clear Hvisit. vm_compute in Hc. injection Hc as <-.
      repeat split; reflexivity. }
    destruct (Hvisit Hagg) as (_ & Hreturns & Hused').
    destruct (ReturnBodyContext_new return_k_by_m return_by_m_table
                {[sym_n]} (mkStorage 100) None) as [c'| |] eqn:Hc'.
    2,3: exfalso; cut (false = true); [discriminate|];
         apply Hreturns; rewrite Hst; repeat constructor.
    exists c, c'. split; [reflexivity|]. split; [reflexivity|].
    rewrite Hused. split.
    + apply (bool_decide_unpack _). vm_compute. exact I.
    + destruct (Hused' c' eq_refl) as (_ & Helem & _).
      apply Helem; [repeat constructor|]. right. rewrite Hout, Hst. split.
      * apply (bool_decide_unpack _). vm_compute. exact I.
      * exists m_v, (mkIdentifier 31 "m" true).
        split; [repeat constructor|]. split; [repeat constructor|].
        reflexivity.
Defined.

(** * Further properties *)

(** ** The pattern reducer *)

Lemma list_pair_ind {A} (P : list A → Prop) :
  P [] → (∀ a, P [a]) → (∀ a b l, P l → P (a :: b :: l)) → ∀ l, P l.
Proof.
  intros Hnil Hone Hstep l.
  cut (P l ∧ ∀ a, P (a :: l)); [by intros []|].
  induction l as [|b l [IH1 IH2]]; [by split|].
  split; [apply IH2|]. intros a. by apply Hstep.
Qed.

Section ReducePattern_properties.
Context {T S : Type}.
Variable base : NodeAtom → S → Outcome (T * S).
Variable collect : T → NodeAtom → EdgeAtom → NodeAtom → S → Outcome (T * S).
Hypothesis base_returns : ∀ n s, is_done (base n s) = true.
Hypothesis collect_returns : ∀ t p e n s, is_done (collect t p e n s) = true.

Lemma ReducePattern_loop_shape atoms : ∀ cur t s,
  (is_done (ReducePattern_loop collect atoms cur t s) = true
   ∧ ∃ triples, atoms = triples_atoms triples)
  ∨ ((∃ msg, ReducePattern_loop collect atoms cur t s
             = Abort (CheckFailed msg))
     ∧ ¬ ∃ triples, atoms = triples_atoms triples).
Proof.
  induction atoms as [|a|a b atoms IH] using list_pair_ind; intros cur t s.
  - left. split; [done|]. by exists [].
  - right. split.
    + destruct a; simpl; eauto.
    + intros ([|[e n] triples] & Heq); discriminate Heq.
  - destruct a as [n|e].
    { right. split; [simpl; eauto|].
      intros ([|[e' n'] triples] & Heq); discriminate Heq. }
    destruct b as [n|e'].
    2:{ right. split; [simpl; eauto|].
        intros ([|[e'' n'] triples] & Heq); discriminate Heq. }
    cbn [ReducePattern_loop].
    pose proof (collect_returns t cur e n s) as Hc.
    destruct (collect t cur e n s) as [[t' s']| |]; [|done..]. simpl.
    destruct (IH n t' s') as [[Hd (triples & ->)]|[Hab Hno]].
    + left. split; [done|]. by exists ((e, n) :: triples).
    + right. split; [done|].
      intros ([|[e' n'] triples] & Heq); [discriminate Heq|].
      apply Hno. exists triples. simpl in Heq. congruence.
Qed.

(** X1. With closures that always return, [ReducePattern] returns exactly on
    the patterns of the shape [node (edge node)*]; on every other pattern
    (no atom, an edge first, an edge last, two nodes or two edges in a row)
    it stops on a failed check. *)
Theorem ReducePattern_shape pattern s :
  (is_done (ReducePattern base collect pattern s) = true
   ∧ ∃ first triples, atoms_ pattern = chain_atoms first triples)
  ∨ ((∃ msg, ReducePattern base collect pattern s = Abort (CheckFailed msg))
     ∧ ¬ ∃ first triples, atoms_ pattern = chain_atoms first triples).
Proof.
  unfold ReducePattern, chain_atoms.
  destruct (atoms_ pattern) as [|[first|e] atoms].
  - right. split; [eauto|]. intros (? & ? & Heq). discriminate Heq.
  - pose proof (base_returns first s) as Hb.
    destruct (base first s) as [[t s']| |]; [|done..]. simpl.
    destruct (ReducePattern_loop_shape atoms first t s')
      as [[Hd (triples & ->)]|[Hab Hno]].
    + left. split; [done|]. by exists first, triples.
    + right. split; [done|]. intros (first' & triples & Heq).
      apply Hno. exists triples. congruence.
  - right. split; [eauto|]. intros (? & ? & Heq). discriminate Heq.
Qed.
End ReducePattern_properties.

Lemma ReducePattern_shape_witness :
  is_done (ReducePattern count_base count_collect create_pattern tt) = true.
Proof.
  destruct (ReducePattern_shape count_base count_collect
              (λ _ _, eq_refl) (λ _ _ _ _ _, eq_refl) create_pattern tt)
    as [[Hd _]|[_ Hno]].
  - exact Hd.
  - destruct Hno. exists node_a, [(edge_e, node_b)]. reflexivity.
Defined.

Lemma ReducePattern_loop_triples {T St}
    (collect : T → NodeAtom → EdgeAtom → NodeAtom → St → Outcome (T * St))
    triples : ∀ cur last_res s,
  ReducePattern_loop collect (triples_atoms triples) cur last_res s
  = collect_triples collect (triples_with_prev cur triples) last_res s.
Proof.
  induction triples as [|[e n] triples IH]; intros cur last_res s; [done|].
  cbn [triples_atoms triples_with_prev ReducePattern_loop collect_triples].
  destruct (collect last_res cur e n s) as [[t s']| |]; simpl; [|done..].
  apply IH.
Qed.

Lemma record_triples triples : ∀ k log,
  collect_triples record_collect triples k log
  = Done (k + length triples,
          log ++ imap (λ i '(prev, edge, node),
                         CollectCall (k + i) prev edge node) triples).
Proof.
  induction triples as [|[[p e] n] triples IH]; intros k log.
  - simpl. by rewrite Nat.add_0_r, app_nil_r.
  - cbn [collect_triples record_collect]. simpl. rewrite IH.
    rewrite <- app_assoc. simpl. rewrite Nat.add_0_r.
    f_equal. f_equal; [lia|]. do 2 f_equal. apply imap_ext.
    intros i [[p' e'] n'] _. simpl. f_equal. lia.
Qed.

Lemma count_triples triples : ∀ acc,
  collect_triples count_collect triples acc tt
  = Done (acc + length triples, tt).
Proof.
  induction triples as [|[[p e] n] triples IH]; intros acc; simpl.
  - by rewrite Nat.add_0_r.
  - rewrite IH. do 2 f_equal. lia.
Qed.

Lemma triples_with_prev_length triples : ∀ cur,
  length (triples_with_prev cur triples) = length triples.
Proof.
  induction triples as [|[e n] triples IH]; intros cur; [done|].
  simpl. by rewrite IH.
Qed.

Lemma edge_atoms_of_triples triples :
  length (filter (λ a, is_edge_atom a = true) (triples_atoms triples))
  = length triples.
Proof.
  induction triples as [|[e n] triples IH]; [done|].
  cbn [triples_atoms].
  rewrite filter_cons_True by reflexivity.
  rewrite filter_cons_False by (simpl; discriminate).
  simpl. by rewrite IH.
Qed.

(** X2. On a pattern [first (e1 n1) ... (ek nk)], whatever the closures
    are, [ReducePattern] is one call of [base] on the first node followed
    by one call of [collect] per edge, in pattern order, each on the result
    and the state of the call before it and on the node before the edge,
    the edge and the node after it. So closures that log their calls log
    [base first] and then the [k] calls of [collect], and the closures of
    the usage example in the comment count the edge atoms of the
    pattern. *)
Theorem ReducePattern_triples {T St} (base : NodeAtom → St → Outcome (T * St))
    (collect : T → NodeAtom → EdgeAtom → NodeAtom → St → Outcome (T * St))
    pattern first triples s :
  atoms_ pattern = chain_atoms first triples →
  ReducePattern base collect pattern s
  = ('(last_res, s) ← base first s;
     collect_triples collect (triples_with_prev first triples) last_res s)
  ∧ ReducePattern record_base record_collect pattern []
    = Done (length triples,
            BaseCall first
            :: imap (λ i '(prev, edge, node), CollectCall i prev edge node)
                 (triples_with_prev first triples))
  ∧ ReducePattern count_base count_collect pattern tt
    = Done (length (filter (λ a, is_edge_atom a = true) (atoms_ pattern)),
            tt).
Proof.
  intros Hatoms. unfold ReducePattern. rewrite Hatoms. unfold chain_atoms.
  split; [|split].
  - destruct (base first s) as [[t s']| |]; simpl; [|done..].
    apply ReducePattern_loop_triples.
  - simpl. rewrite ReducePattern_loop_triples, record_triples.
    by rewrite triples_with_prev_length.
  - simpl. rewrite ReducePattern_loop_triples, count_triples.
    rewrite filter_cons_False by (simpl; discriminate).
    by rewrite triples_with_prev_length, edge_atoms_of_triples.
Qed.

Lemma ReducePattern_triples_witness :
  ReducePattern record_base record_collect create_pattern []
  = Done (1, [BaseCall node_a; CollectCall 0 node_a edge_e node_b])
  ∧ ReducePattern count_base count_collect create_pattern tt = Done (1, tt).
Proof.
  destruct (ReducePattern_triples count_base count_collect create_pattern
              node_a [(edge_e, node_b)] tt eq_refl) as (_ & Hlog & Hcount).
  split; [exact Hlog|exact Hcount].
Defined.

(** ** The filter store, further *)

(** X3. [HasBoundFilterSymbols] answers whether every symbol the filter
    uses is bound: it is true for a filter that uses no symbol, and once
    true it stays true when more symbols get bound. *)
Theorem HasBoundFilterSymbols_spec bound_symbols f :
  (HasBoundFilterSymbols bound_symbols f = true
   ↔ ∀ s, s ∈ FilterInfo_used_symbols f → s ∈ bound_symbols)
  ∧ (FilterInfo_used_symbols f = ∅ →
     HasBoundFilterSymbols bound_symbols f = true)
  ∧ (∀ more : gset Symbol,
       HasBoundFilterSymbols bound_symbols f = true →
       HasBoundFilterSymbols (bound_symbols ∪ more) f = true).
Proof.
  split; [apply HasBoundFilterSymbols_subseteq|]. split.
  - intros Hempty. apply HasBoundFilterSymbols_subseteq.
    unfold bound_filter. rewrite Hempty. set_solver.
  - intros more H. apply HasBoundFilterSymbols_subseteq in H.
    apply HasBoundFilterSymbols_subseteq. unfold bound_filter in *.
    set_solver.
Qed.

Lemma ExtractFilters_eq bound_symbols filters storage :
  ExtractFilters bound_symbols filters storage
  = ((AndJoin storage
        (FilterInfo_expression <$> filter (bound_filter bound_symbols) filters)).1,
     filter (λ f, ¬ bound_filter bound_symbols f) filters,
     (AndJoin storage
        (FilterInfo_expression <$> filter (bound_filter bound_symbols) filters)).2).
Proof.
  unfold ExtractFilters. rewrite ExtractFilters_loop_spec.
  simpl. by rewrite join_onto_None.
Qed.

Lemma filter_not_bound_twice bound_symbols (filters : list FilterInfo) :
  filter (bound_filter bound_symbols)
    (filter (λ f, ¬ bound_filter bound_symbols f) filters) = [].
Proof.
  apply no_bound_filter. intros f Hf. by apply list_elem_of_filter in Hf as [? _].
Qed.

Lemma filter_not_bound_idem bound_symbols (filters : list FilterInfo) :
  filter (λ f, ¬ bound_filter bound_symbols f)
    (filter (λ f, ¬ bound_filter bound_symbols f) filters)
  = filter (λ f, ¬ bound_filter bound_symbols f) filters.
Proof.
  induction filters as [|f l IH]; [done|].
  destruct (decide (bound_filter bound_symbols f)) as [Hb|Hb].
  - rewrite filter_cons_False by (by intros Hn). apply IH.
  - rewrite filter_cons_True by done. rewrite filter_cons_True by done.
    by rewrite IH.
Qed.

(** X4. [ExtractFilters] splits the store and leaves nothing to extract: the
    filters it joined together with the ones it left are the store it was
    given, up to order; every filter left uses an unbound symbol; and a
    second call with the same bound symbols returns no predicate and leaves
    store and storage as they are. *)
Theorem ExtractFilters_again bound_symbols filters storage :
  let result := ExtractFilters bound_symbols filters storage in
  filter (bound_filter bound_symbols) filters ++ result.1.2 ≡ₚ filters
  ∧ (∀ f, f ∈ result.1.2 → ¬ bound_filter bound_symbols f)
  ∧ ExtractFilters bound_symbols result.1.2 result.2
    = (None, result.1.2, result.2).
Proof.
  intros result. unfold result. rewrite ExtractFilters_eq. simpl.
  split; [apply filter_app_complement|]. split.
  - intros f Hf. by apply list_elem_of_filter in Hf as [? _].
  - rewrite ExtractFilters_eq.
    rewrite filter_not_bound_twice, filter_not_bound_idem. done.
Qed.

(** X5. [GenFilters] puts one Filter on the plan when some stored filter has
    all its symbols bound, and returns the plan, the store and the storage
    untouched when none has; it never adds anything else. *)
Theorem GenFilters_spec last_op bound_symbols filters storage :
  let result := GenFilters last_op bound_symbols filters storage in
  ((∀ f, f ∈ filters → ¬ bound_filter bound_symbols f) →
   result = (last_op, filters, storage))
  ∧ ((∃ f, f ∈ filters ∧ bound_filter bound_symbols f) →
     ∃ e, operators result.1.1 = Filter e :: operators last_op
          ∧ (ExtractFilters bound_symbols filters storage).1.1 = Some e)
  ∧ (∀ f, f ∈ result.1.2 → ¬ bound_filter bound_symbols f).
Proof.
  intros result. unfold result, GenFilters. rewrite ExtractFilters_eq.
  split; [|split].
  - intros Hnone. rewrite (no_bound_filter _ _ Hnone). simpl.
    f_equal. f_equal.
    clear result. induction filters as [|f l IH]; [done|].
    rewrite filter_cons_True by (apply Hnone; left).
    f_equal. apply IH. intros g Hg. apply Hnone. by right.
  - intros (f & Hf & Hb).
    destruct (filter (bound_filter bound_symbols) filters) as [|g l] eqn:Hq.
    { exfalso. by apply (filter_nil_not_elem_of _ _ f Hq Hb). }
    simpl. destruct (foldl _ _ _) as [joined storage']. simpl.
    by exists joined.
  - destruct (AndJoin storage _) as [[e|] storage']; simpl;
      intros f Hf; by apply list_elem_of_filter in Hf as [? _].
Qed.

(** ** The named-path builder, further *)

Lemma GenNamedPaths_loop_accounting l : ∀ last_op bound_symbols,
  let r := GenNamedPaths_loop last_op bound_symbols [] l in
  ∃ emitted,
    operators r.1.1
    = rev ((λ p, ConstructNamedPath p.1 p.2) <$> emitted) ++ operators last_op
    ∧ r.1.2 = list_to_set emitted.*1 ∪ bound_symbols
    ∧ emitted ++ r.2 ≡ₚ l
    ∧ (∀ p s, p ∈ emitted → s ∈ p.2 → s ∈ r.1.2).
Proof.
  induction l as [|x l IH]; intros last_op bound_symbols.
  { exists []. simpl. split; [done|]. split; [set_solver|]. split; [done|].
    intros p s Hp. by apply not_elem_of_nil in Hp. }
  simpl. destruct (all_are_bound bound_symbols x.2) eqn:Hall.
  - destruct (IH (New (ConstructNamedPath x.1 x.2) last_op)
                ({[x.1]} ∪ bound_symbols))
      as (emitted & Hops & Hb & Hperm & Hatoms).
    exists (x :: emitted). split.
    { rewrite Hops. simpl. by rewrite <- app_assoc. }
    split. { rewrite Hb. simpl. set_solver. }
    split. { simpl. by apply Permutation_skip. }
    intros p s [->|Hp]%elem_of_cons Hs; [|by eapply Hatoms].
    rewrite Hb. pose proof (proj1 (all_are_bound_true _ _) Hall s Hs).
    set_solver.
  - rewrite GenNamedPaths_loop_kept. simpl.
    destruct (IH last_op bound_symbols)
      as (emitted & Hops & Hb & Hperm & Hatoms).
    exists emitted. split; [done|]. split; [done|]. split; [|done].
    etrans; [symmetry; apply Permutation_middle|].
    by apply Permutation_skip.
Qed.

(** X6. [GenNamedPaths] only moves entries out of the pending map: the
    entries it removed and the ones it left are the map it was given; it
    puts one ConstructNamedPath on the plan per removed entry, in the order
    of removal, and nothing else; the bound set grows by exactly the path
    symbols of the removed entries; and all atoms of every path constructed
    are bound. *)
Theorem GenNamedPaths_accounting last_op bound_symbols named_paths :
  let result := GenNamedPaths last_op bound_symbols named_paths in
  ∃ emitted,
    operators result.1.1
    = rev ((λ p, ConstructNamedPath p.1 p.2) <$> emitted) ++ operators last_op
    ∧ result.1.2 = list_to_set emitted.*1 ∪ bound_symbols
    ∧ emitted ++ result.2 ≡ₚ named_paths
    ∧ (∀ p s, p ∈ emitted → s ∈ p.2 → s ∈ result.1.2).
Proof. apply GenNamedPaths_loop_accounting. Qed.

(** ** CREATE, further *)

Lemma for_each_app {A St} (body : St → A → Outcome St) l1 : ∀ l2 s,
  for_each body (l1 ++ l2) s = s' ← for_each body l1 s; for_each body l2 s'.
Proof.
  induction l1 as [|x l1 IH]; intros l2 s; [done|]. simpl.
  destruct (body s x) as [s'| |]; simpl; [apply IH|done..].
Qed.

Lemma create_grows_refl input_op bound : create_grows input_op bound (input_op, bound).
Proof. split; [done|]. by exists []. Qed.

Lemma create_grows_trans op1 b1 op2 b2 r :
  create_grows op1 b1 (op2, b2) → create_grows op2 b2 r →
  create_grows op1 b1 r.
Proof.
  intros [Hb1 (a1 & Ho1 & Hf1)] [Hb2 (a2 & Ho2 & Hf2)]. simpl in *.
  split; [set_solver|]. exists (a2 ++ a1). split.
  - rewrite Ho2, Ho1. by rewrite <- app_assoc.
  - by apply Forall_app.
Qed.

Lemma GenCreateForPattern_collect_grows (st : SymbolTable) last_op prev e n
    bound r :
  GenCreateForPattern_collect st last_op prev e n bound = Done r →
  create_grows last_op bound r.
Proof.
  unfold GenCreateForPattern_collect, insert_symbol. intros H.
  apply bind_Done in H as (s1 & _ & H).
  apply bind_Done in H as (s2 & _ & H).
  apply bind_Done in H as (s3 & _ & H). simpl in H.
  destruct (negb (negb _)); [done|]. simplify_eq.
  split; [simpl; set_solver|].
  eexists [_]. split; [reflexivity|]. by repeat constructor.
Qed.

Lemma GenCreateForPattern_loop_grows (st : SymbolTable) atoms :
  ∀ cur last_op bound r,
    ReducePattern_loop (GenCreateForPattern_collect st) atoms cur last_op bound
    = Done r →
    create_grows last_op bound r.
Proof.
  induction atoms as [|a|a b atoms IH] using list_pair_ind;
    intros cur last_op bound r H.
  - simpl in H. simplify_eq. apply create_grows_refl.
  - by destruct a.
  - destruct a as [?|e]; [done|]. destruct b as [n|?]; [|done].
    cbn [ReducePattern_loop] in H.
    apply bind_Done in H as ([op1 b1] & H1 & H). simpl in H.
    apply GenCreateForPattern_collect_grows in H1. apply IH in H.
    by eapply create_grows_trans.
Qed.

Lemma GenCreateForPattern_grows pattern input_op (st : SymbolTable) bound r :
  GenCreateForPattern pattern input_op st bound = Done r →
  create_grows input_op bound r.
Proof.
  unfold GenCreateForPattern, ReducePattern. intros H.
  apply bind_Done in H as ([op1 b1] & H1 & H). simpl in H.
  assert (create_grows input_op bound (op1, b1)) as Hg.
  { destruct (atoms_ pattern) as [|[first|?] rest]; [done| |done].
    apply bind_Done in H1 as ([op0 b0] & H0 & H1). simpl in H1.
    apply GenCreateForPattern_loop_grows in H1.
    eapply create_grows_trans; [|exact H1].
    unfold GenCreateForPattern_base, insert_symbol in H0.
    apply bind_Done in H0 as (s0 & _ & H0). simpl in H0.
    destruct (negb _); simplify_eq.
    - split; [simpl; set_solver|]. eexists [_].
      split; [reflexivity|]. by repeat constructor.
    - split; [simpl; set_solver|]. by exists []. }
  destruct (Identifier_user_declared_ _).
  - apply bind_Done in H as (elems & _ & H).
    apply bind_Done in H as (ps & _ & H). simplify_eq.
    eapply create_grows_trans; [exact Hg|].
    split; [done|]. eexists [_]. split; [reflexivity|]. by repeat constructor.
  - by simplify_eq.
Qed.

Lemma count_CreateExpand_New op input_op :
  count_CreateExpand (New op input_op)
  = (if is_CreateExpand op then 1 else 0) + count_CreateExpand input_op.
Proof.
  unfold count_CreateExpand. simpl. destruct (is_CreateExpand op) eqn:Hop.
  - by rewrite filter_cons_True by done.
  - by rewrite filter_cons_False by congruence.
Qed.

(** What a returning run of the loop of [ReducePattern] under the closures
    of [GenCreateForPattern] has done: every atom it went through has its
    symbol bound, and it has put one CreateExpand on the plan per edge. *)
Lemma GenCreateForPattern_loop_binds (st : SymbolTable) atoms :
  ∀ cur last_op bound r,
    ReducePattern_loop (GenCreateForPattern_collect st) atoms cur last_op bound
    = Done r →
    bound ⊆ r.2
    ∧ (∀ atom, atom ∈ atoms →
         ∃ s, st !! Identifier_uid (PatternAtom_identifier_ atom) = Some s
              ∧ s ∈ r.2)
    ∧ count_CreateExpand r.1
      = count_CreateExpand last_op
        + length (filter (λ a, is_edge_atom a = true) atoms).
Proof.
  induction atoms as [|a|a b atoms IH] using list_pair_ind;
    intros cur last_op bound r H.
  - simpl in H. simplify_eq. simpl. split; [done|].
    split; [|by rewrite Nat.add_0_r]. by intros atom ?%not_elem_of_nil.
  - by destruct a.
  - destruct a as [?|e]; [done|]. destruct b as [n|?]; [|done].
    cbn [ReducePattern_loop] in H.
    apply bind_Done in H as ([op1 b1] & H1 & H). simpl in H.
    apply IH in H as (Hsub & Hatoms & Hcount).
    unfold GenCreateForPattern_collect, insert_symbol in H1.
    apply bind_Done in H1 as (s1 & _ & H1).
    apply bind_Done in H1 as (s2 & Hs2%SymbolTable_at_Done & H1).
    apply bind_Done in H1 as (s3 & Hs3%SymbolTable_at_Done & H1).
    simpl in H1. destruct (negb (negb _)); [done|]. simplify_eq.
    split; [set_solver|]. split.
    + intros atom [->|[->|Hin]%elem_of_cons]%elem_of_cons.
      * exists s3. split; [done|]. set_solver.
      * exists s2. split; [done|]. set_solver.
      * by apply Hatoms.
    + rewrite Hcount, count_CreateExpand_New. cbn [is_CreateExpand].
      rewrite filter_cons_True by reflexivity.
      rewrite filter_cons_False by (simpl; discriminate).
      simpl. lia.
Qed.

Lemma GenCreateForPattern_binds pattern input_op (st : SymbolTable) bound r :
  GenCreateForPattern pattern input_op st bound = Done r →
  bound ⊆ r.2
  ∧ (∀ atom, atom ∈ atoms_ pattern →
       ∃ s, st !! Identifier_uid (PatternAtom_identifier_ atom) = Some s
            ∧ s ∈ r.2)
  ∧ count_CreateExpand r.1
    = count_CreateExpand input_op
      + length (filter (λ a, is_edge_atom a = true) (atoms_ pattern)).
Proof.
  unfold GenCreateForPattern, ReducePattern. intros H.
  apply bind_Done in H as ([op1 b1] & H1 & H). simpl in H.
  assert (r.2 = b1 ∧ count_CreateExpand r.1 = count_CreateExpand op1)
    as [-> ->].
  { destruct (Identifier_user_declared_ _).
    - apply bind_Done in H as (elems & _ & H).
      apply bind_Done in H as (ps & _ & H). simplify_eq. simpl.
      by rewrite count_CreateExpand_New.
    - by simplify_eq. }
  clear H. destruct (atoms_ pattern) as [|[first|?] rest]; [done| |done].
  apply bind_Done in H1 as ([op0 b0] & H0 & H1). simpl in H1.
  apply GenCreateForPattern_loop_binds in H1 as (Hsub & Hatoms & Hcount).
  simpl in Hsub, Hatoms, Hcount.
  unfold GenCreateForPattern_base, insert_symbol in H0.
  apply bind_Done in H0 as (s0 & Hs0%SymbolTable_at_Done & H0). simpl in H0.
  assert (b0 = {[s0]} ∪ bound
          ∧ count_CreateExpand op0 = count_CreateExpand input_op)
    as [-> Hc0].
  { destruct (negb _); simplify_eq; [|done].
    by rewrite count_CreateExpand_New. }
  split; [set_solver|]. split.
  - intros atom [->|Hin]%elem_of_cons; [|by apply Hatoms].
    exists s0. split; [done|]. set_solver.
  - rewrite Hcount, Hc0. by rewrite filter_cons_False by (simpl; discriminate).
Qed.

(** X7. [GenCreate] plans the patterns of a CREATE clause one after the
    other with [GenCreateForPattern], each on the plan and the bound
    symbols the previous one left (so a clause without patterns returns its
    input). Whenever it returns, it has only added CreateNode, CreateExpand
    and ConstructNamedPath operators above its input, exactly one
    CreateExpand per edge atom of the patterns; no symbol was unbound, and
    the symbol of every atom of every pattern is bound. *)
Theorem GenCreate_grows pattern patterns1 patterns2 input_op
    (st : SymbolTable) bound :
  GenCreate (mkCreate (pattern :: patterns1)) input_op st bound
  = ('(last_op, bound1) ← GenCreateForPattern pattern input_op st bound;
     GenCreate (mkCreate patterns1) last_op st bound1)
  ∧ GenCreate (mkCreate (patterns1 ++ patterns2)) input_op st bound
    = ('(last_op, bound1) ← GenCreate (mkCreate patterns1) input_op st bound;
       GenCreate (mkCreate patterns2) last_op st bound1)
  ∧ GenCreate (mkCreate []) input_op st bound = Done (input_op, bound)
  ∧ ∀ r, GenCreate (mkCreate patterns1) input_op st bound = Done r →
         create_grows input_op bound r
         ∧ (∀ p atom, p ∈ patterns1 → atom ∈ atoms_ p →
              ∃ s, st !! Identifier_uid (PatternAtom_identifier_ atom)
                   = Some s
                   ∧ s ∈ r.2)
         ∧ count_CreateExpand r.1
           = count_CreateExpand input_op + count_edges patterns1.
Proof.
  split; [|split; [|split; [done|]]].
  - unfold GenCreate. simpl.
    by destruct (GenCreateForPattern pattern input_op st bound)
      as [[? ?]| |].
  - unfold GenCreate. simpl. rewrite for_each_app.
    by destruct (for_each _ patterns1 _) as [[? ?]| |].
  - unfold GenCreate, count_edges. simpl. revert input_op bound.
    induction patterns1 as [|p ps IH]; intros input_op bound r H; simpl in H.
    { simplify_eq. split; [apply create_grows_refl|]. simpl.
      split; [|by rewrite Nat.add_0_r]. by intros p atom ?%not_elem_of_nil. }
    apply bind_Done in H as ([op1 b1] & H1 & H).
    pose proof (GenCreateForPattern_grows _ _ _ _ _ H1) as Hg1.
    apply GenCreateForPattern_binds in H1 as (Hsub1 & Hatoms1 & Hcount1).
    apply IH in H as (Hg & Hatoms & Hcount). simpl in *.
    split; [by eapply create_grows_trans|]. split.
    + intros p' atom [->|Hin]%elem_of_cons Hatom.
      * destruct (Hatoms1 atom Hatom) as (s & Hs & Hb).
        exists s. split; [done|]. destruct Hg as [Hsub _]. set_solver.
      * by eapply Hatoms.
    + rewrite Hcount, Hcount1, filter_app, length_app.
      symmetry. apply Nat.add_assoc.
Qed.

Lemma GenCreate_grows_witness :
  ∃ r,
    GenCreate (mkCreate [create_pattern]) NoInput create_table ∅ = Done r
    ∧ count_CreateExpand r.1 = 1
    ∧ ∃ s, create_table !! 3 = Some s ∧ s ∈ r.2.
Proof.
  assert (GenCreate (mkCreate [create_pattern]) NoInput create_table ∅
          = Done (New (CreateExpand node_b edge_e sym_a false)
                    (New (CreateNode node_a) NoInput),
                  {[sym_e]} ∪ ({[sym_b]} ∪ ({[sym_a]} ∪ ∅)))) as Hrun.
  { vm_compute. reflexivity. }
  destruct (GenCreate_grows create_pattern [create_pattern] [] NoInput
              create_table ∅) as (_ & _ & _ & Hr).
  destruct (Hr _ Hrun) as (_ & Hatoms & Hcount).
  eexists. split; [exact Hrun|]. split; [exact Hcount|].
  apply (Hatoms create_pattern (PatternEdge edge_e)).
  - apply list_elem_of_here.
  - apply list_elem_of_further, list_elem_of_here.
Defined.

(** ** The classifier's flags *)

Lemma extends_refl c : extends c c [] false.
Proof.
  unfold extends. rewrite app_nil_r. split; [done|].
  split; exists []; by rewrite app_nil_r.
Qed.

Lemma extends_trans c c1 c2 f1 h1 f2 h2 :
  extends c c1 f1 h1 → extends c1 c2 f2 h2 →
  extends c c2 (f1 ++ f2) (h1 || h2).
Proof.
  intros (Hs1 & (gb1 & Hg1 & Hc1) & (a1 & Ha1 & Hh1))
         (Hs2 & (gb2 & Hg2 & Hc2) & (a2 & Ha2 & Hh2)).
  split; [by rewrite Hs2, Hs1, app_assoc|]. split.
  - exists (gb1 ++ gb2). split; [by rewrite Hg2, Hg1, app_assoc|].
    by apply Forall_app.
  - exists (a1 ++ a2). split; [by rewrite Ha2, Ha1, app_assoc|].
    rewrite orb_false_iff, <- Hh1, <- Hh2. split.
    + by intros [-> ->]%app_eq_nil.
    + by intros [-> ->].
Qed.

Lemma extends_push c c1 fl h x :
  extends c c1 fl h → extends c (push_flag x c1) (fl ++ [x]) h.
Proof.
  intros (Hs & Hg & Ha). split; [|done].
  simpl. unfold emplace_back. by rewrite Hs, app_assoc.
Qed.

Lemma extends_push_group_by c c1 fl h e :
  contains_aggregation e = false →
  extends c c1 fl h → extends c (push_group_by e c1) fl h.
Proof.
  intros He (Hs & (gb & Hg & Hc) & Ha). split; [done|]. split; [|done].
  exists (gb ++ [e]). simpl. unfold emplace_back.
  split; [by rewrite Hg, app_assoc|]. apply Forall_app. by repeat constructor.
Qed.

Lemma extends_set_used c c1 fl h u :
  extends c c1 fl h → extends c (set_used_symbols_ u c1) fl h.
Proof. done. Qed.

(** [back()] and [pop_back()] on a classifier that pushed at least a flag. *)
Lemma extends_pop c c1 fl x h :
  extends c c1 (fl ++ [x]) h →
  back_flag c1 = Done x
  ∧ ∃ c2, pop_flag c1 = Done c2 ∧ extends c c2 fl h.
Proof.
  intros (Hs & Hg & Ha). rewrite app_assoc in Hs. split.
  - unfold back_flag. by rewrite Hs, last_snoc.
  - unfold pop_flag. rewrite Hs.
    destruct ((has_aggregation_ c ++ fl) ++ [x]) as [|y l] eqn:Heq.
    { by apply app_nil in Heq as [_ ?]. }
    rewrite <- Heq. eexists. split; [reflexivity|].
    split; [|done]. simpl. by rewrite removelast_last.
Qed.

Lemma foldl_orb_existsb (flags : list bool) : ∀ acc,
  foldl (λ has_aggr flag, has_aggr || flag) acc flags
  = acc || existsb id flags.
Proof.
  induction flags as [|x l IH]; intros acc; simpl.
  - by rewrite orb_false_r.
  - rewrite IH. by rewrite orb_assoc.
Qed.

Lemma extends_fold_last_flags c c1 flags h msg b c' :
  extends c c1 flags h →
  fold_last_flags (length flags) msg c1 = Done (b, c') →
  b = true ∧ extends c c' [existsb id flags] h.
Proof.
  intros (Hs & Hg & Ha). unfold fold_last_flags, DCHECK.
  rewrite Hs, length_app.
  rewrite bool_decide_eq_true_2 by lia. simpl.
  replace (length (has_aggregation_ c) + length flags - length flags)
    with (length (has_aggregation_ c)) by lia.
  rewrite drop_app_length, take_app_length, foldl_orb_existsb.
  intros [= <- <-]. split; [done|]. by split.
Qed.

Lemma extends_set_back c c1 fl x h y :
  extends c c1 (fl ++ [x]) h →
  ∃ c2, set_back_flag y c1 = Done c2 ∧ extends c c2 (fl ++ [y]) h.
Proof.
  intros (Hs & Hg & Ha). rewrite app_assoc in Hs.
  unfold set_back_flag. rewrite Hs.
  destruct ((has_aggregation_ c ++ fl) ++ [x]) as [|z l] eqn:Heq.
  { by apply app_nil in Heq as [_ ?]. }
  rewrite <- Heq. eexists. split; [reflexivity|].
  split; [|done]. simpl. unfold emplace_back.
  by rewrite removelast_last, app_assoc.
Qed.

Lemma extends_add_aggregation c c1 fl h x :
  extends c c1 fl h →
  extends c (set_aggregations_ (emplace_back (aggregations_ c1) x) c1) fl true.
Proof.
  intros (Hs & Hg & (aggs & Ha & _)). split; [done|]. split; [done|].
  exists (aggs ++ [x]). simpl. unfold emplace_back.
  split; [by rewrite Ha, app_assoc|].
  split; [|done]. intros Hnil. by apply app_nil in Hnil as [_ ?].
Qed.

Lemma Visit_Identifier_extends ident c b c' :
  Visit_Identifier ident c = Done (b, c') →
  b = true ∧ extends c c' [false] false.
Proof.
  unfold Visit_Identifier. intros H.
  apply bind_Done in H as (s & _ & H). simpl in H. simplify_eq.
  split; [done|]. apply (extends_push c _ [] false false).
  destruct (bool_decide _); [apply extends_refl|].
  apply extends_set_used, extends_refl.
Qed.

Lemma PostVisit_BinaryOperator_extends c c2 e1 e2 h b c' :
  extends c c2 [contains_aggregation e1; contains_aggregation e2] h →
  PostVisit_BinaryOperator e1 e2 c2 = Done (b, c') →
  b = true
  ∧ extends c c' [contains_aggregation e1 || contains_aggregation e2] h.
Proof.
  intros Hext H. unfold PostVisit_BinaryOperator in H.
  apply bind_Done in H as ([] & _ & H).
  destruct (extends_pop c c2 [contains_aggregation e1]
              (contains_aggregation e2) h Hext) as (Hb2 & c3 & Hp2 & Hext3).
  rewrite Hb2 in H. simpl in H. rewrite Hp2 in H. simpl in H.
  destruct (extends_pop c c3 [] (contains_aggregation e1) h Hext3)
    as (Hb1 & c4 & Hp1 & Hext4).
  rewrite Hb1 in H. simpl in H. rewrite Hp1 in H. simpl in H.
  simplify_eq. split; [done|].
  apply (extends_push c _ [] h). 
  destruct (contains_aggregation e1) eqn:H1,
           (contains_aggregation e2) eqn:H2; simpl; try done;
    by apply extends_push_group_by.
Qed.

Lemma accept_each_extends {A} (accept : A → Visitor) (f : A → Expression) l :
  Forall (λ x, visited (f x) (accept x)) l →
  ∀ c b c',
    accept_each accept l c = Done (b, c') →
    b = true
    ∧ extends c c' ((λ x, contains_aggregation (f x)) <$> l)
        (existsb (λ x, contains_aggregation (f x)) l).
Proof.
  intros Hall. induction Hall as [|x l Hx _ IH]; intros c b c' Hrun;
    simpl in Hrun.
  { simplify_eq. split; [done|]. apply extends_refl. }
  apply bind_Done in Hrun as ([cont c1] & H1 & Hrun). simpl in Hrun.
  apply Hx in H1 as [-> Hext1].
  apply IH in Hrun as [-> Hext2]. split; [done|].
  apply (extends_trans _ _ _ _ _ _ _ Hext1 Hext2).
Qed.

Lemma existsb_id_fmap {A} (g : A → bool) l :
  existsb id (g <$> l) = existsb g l.
Proof.
  induction l as [|x l IH]; [done|].
  rewrite fmap_cons. cbn [existsb]. by rewrite IH.
Qed.

Lemma accept_each_fold_extends {A} (accept : A → Visitor) (f : A → Expression)
    l msg c b c' :
  Forall (λ x, visited (f x) (accept x)) l →
  ('(_, c1) ← accept_each accept l c; fold_last_flags (length l) msg c1)
  = Done (b, c') →
  b = true
  ∧ extends c c' [existsb (λ x, contains_aggregation (f x)) l]
      (existsb (λ x, contains_aggregation (f x)) l).
Proof.
  intros Hall H.
  apply bind_Done in H as ([? c1] & H1 & H). simpl in H.
  apply (accept_each_extends accept f l Hall) in H1 as [_ Hext].
  rewrite <- (length_fmap (λ x, contains_aggregation (f x)) l) in H.
  apply (extends_fold_last_flags c c1 _ _ _ _ _ Hext) in H as [-> Hext'].
  split; [done|]. by rewrite existsb_id_fmap in Hext'.
Qed.

(** A child visited by hand: [Accept], [back()], [pop_back()]. *)
Lemma Accept_back_pop e c c1 h (k : bool → ReturnBodyContext →
                                   Outcome (bool * ReturnBodyContext)) r :
  visited e (Accept e) →
  extends c c1 [] h →
  ('(_, c2) ← Accept e c1; b ← back_flag c2; c3 ← pop_flag c2; k b c3)
  = Done r →
  ∃ c3, extends c c3 [] (h || contains_aggregation e)
        ∧ k (contains_aggregation e) c3 = Done r.
Proof.
  intros He Hext H.
  apply bind_Done in H as ([? c2] & H2 & H). simpl in H.
  apply He in H2 as [_ Hext2].
  pose proof (extends_trans _ _ _ _ _ _ _ Hext Hext2) as Hext'.
  destruct (extends_pop c c2 [] _ _ Hext') as (Hb & c3 & Hp & Hext3).
  rewrite Hb in H. simpl in H. rewrite Hp in H. simpl in H.
  by exists c3.
Qed.

Lemma optional_bound_extends (o : option Expression) c c1 h (acc : bool)
    r c' :
  from_option (λ e, visited e (Accept e)) True o →
  extends c c1 [] h →
  match o with
  | Some e =>
      '(_, c2) ← Accept e c1;
      b ← back_flag c2;
      c3 ← pop_flag c2;
      Done (acc || b, c3)
  | None => Done (acc, c1)
  end = Done (r, c') →
  r = acc || from_option contains_aggregation false o
  ∧ extends c c' [] (h || from_option contains_aggregation false o).
Proof.
  destruct o as [e|]; simpl; intros He Hext H.
  - apply (Accept_back_pop e c c1 h (λ b c3, Done (acc || b, c3)) _ He Hext)
      in H as (c3 & Hext3 & H).
    by simplify_eq.
  - simplify_eq. by rewrite !orb_false_r.
Qed.

Lemma PreVisit_ListSlicingOperator_extends uid list_ lower upper c b c' :
  visited list_ (Accept list_) →
  from_option (λ e, visited e (Accept e)) True lower →
  from_option (λ e, visited e (Accept e)) True upper →
  PreVisit_ListSlicingOperator Accept list_ lower upper c = Done (b, c') →
  extends c c'
    [contains_aggregation (ListSlicingOperator uid list_ lower upper)]
    (contains_aggregation (ListSlicingOperator uid list_ lower upper)).
Proof.
  intros Hlist Hlower Hupper H. unfold PreVisit_ListSlicingOperator in H.
  apply (Accept_back_pop list_ c c false _ _ Hlist (extends_refl c)) in H
    as (c2 & Hext2 & H). simpl in Hext2.
  apply bind_Done in H as ([r1 c3] & H1 & H). simpl in H.
  apply (optional_bound_extends lower c c2 _ _ _ _ Hlower Hext2) in H1
    as [-> Hext3].
  apply bind_Done in H as ([r2 c4] & H2 & H). simpl in H.
  apply (optional_bound_extends upper c c3 _ _ _ _ Hupper Hext3) in H2
    as [-> Hext4].
  simplify_eq. simpl.
  apply (extends_push c _ [] _ _).
  destruct (contains_aggregation list_) eqn:Hl; simpl in *.
  { done. }
  rewrite andb_true_r.
  destruct (from_option contains_aggregation false lower
            || from_option contains_aggregation false upper); [|done].
  by apply extends_push_group_by.
Qed.

Lemma PreVisit_IfOperator_extends uid e1 e2 e3 c b c' :
  visited e1 (Accept e1) → visited e2 (Accept e2) → visited e3 (Accept e3) →
  PreVisit_IfOperator Accept e1 e2 e3 c = Done (b, c') →
  contains_aggregation (IfOperator uid e1 e2 e3) = false
  ∧ extends c c' [false] false.
Proof.
  intros H1 H2 H3 H. unfold PreVisit_IfOperator in H.
  apply (Accept_back_pop e1 c c false _ _ H1 (extends_refl c)) in H
    as (c2 & Hext2 & H). simpl in Hext2.
  apply bind_Done in H as ([? c3] & Ha & H). simpl in H.
  apply H2 in Ha as [_ Hext3].
  pose proof (extends_trans _ _ _ _ _ _ _ Hext2 Hext3) as Hext3'.
  destruct (extends_pop c c3 [] _ _ Hext3') as (Hb3 & c4 & Hp3 & Hext4).
  rewrite Hb3 in H. simpl in H. rewrite Hp3 in H. simpl in H.
  apply bind_Done in H as ([? c5] & Hb & H). simpl in H.
  apply H3 in Hb as [_ Hext5].
  pose proof (extends_trans _ _ _ _ _ _ _ Hext4 Hext5) as Hext5'.
  destruct (extends_pop c c5 [] _ _ Hext5') as (Hb5 & c6 & Hp5 & Hext6).
  rewrite Hb5 in H. simpl in H. rewrite Hp5 in H. simpl in H.
  unfold DCHECK in H.
  destruct (contains_aggregation e1 || contains_aggregation e2
            || contains_aggregation e3) eqn:Hh; simpl in H; [done|].
  simplify_eq. simpl. split; [done|].
  by apply (extends_push c _ [] _ _).
Qed.

Lemma optional_child_extends (o : option Expression) c b c' :
  from_option (λ e, visited e (Accept e)) True o →
  match o with
  | Some e => Accept e c
  | None => Done (true, c)
  end = Done (b, c') →
  extends c c' (from_option (λ e, [contains_aggregation e]) [] o)
    (from_option contains_aggregation false o).
Proof.
  destruct o as [e|]; simpl; intros Ho H.
  - by apply Ho in H as [_ ?].
  - simplify_eq. apply extends_refl.
Qed.

Lemma Aggregation_extends uid op_ o1 o2 c b c' :
  aggregation_arity op_ o1 o2 = true →
  from_option (λ e, visited e (Accept e)) True o1 →
  from_option (λ e, visited e (Accept e)) True o2 →
  Accept (Aggregation uid op_ o1 o2) c = Done (b, c') →
  b = true ∧ extends c c' [true] true.
Proof.
  intros Harity H1 H2 H. simpl in H.
  apply bind_Done in H as ([? c1] & Ha & H). simpl in H.
  apply (optional_child_extends o1 _ _ _ H1) in Ha.
  apply bind_Done in H as ([? c2] & Hb & H). simpl in H.
  apply (optional_child_extends o2 _ _ _ H2) in Hb.
  pose proof (extends_trans _ _ _ _ _ _ _ Ha Hb) as Hext.
  unfold PostVisit_Aggregation in H.
  apply bind_Done in H as (symbol & _ & H). simpl in H.
  apply (extends_add_aggregation c c2 _ _
           (mkElement o1 o2 op_ symbol)) in Hext.
  unfold aggregation_arity in Harity.
  destruct (bool_decide (op_ = COLLECT_MAP)) eqn:Hop.
  - apply andb_true_iff in Harity as [[e1 ->]%bool_decide_eq_true
                                        [e2 ->]%bool_decide_eq_true].
    simpl in Hext, H.
    destruct (extends_pop c _ [contains_aggregation e1] _ _ Hext)
      as (_ & c3 & Hp & Hext3).
    rewrite Hp in H. simpl in H.
    destruct (extends_set_back c c3 [] _ _ true Hext3) as (c4 & Hs & Hext4).
    rewrite Hs in H. simpl in H. by simplify_eq.
  - apply bool_decide_eq_true in Harity as ->. simpl in Hext, H.
    destruct o1 as [e1|]; simpl in Hext, H.
    + destruct (extends_set_back c _ [] _ _ true Hext) as (c4 & Hs & Hext4).
      rewrite Hs in H. simpl in H. by simplify_eq.
    + simplify_eq. split; [done|]. by apply (extends_push c _ [] _ _).
Qed.

Lemma PostVisit_All_extends ident c c3 a1 aw h b c' :
  extends c c3 [false; a1; aw] h →
  PostVisit_All ident c3 = Done (b, c') →
  b = true ∧ extends c c' [a1 || aw] h.
Proof.
  intros Hext H. unfold PostVisit_All in H.
  apply bind_Done in H as (symbol & _ & H). simpl in H.
  apply bind_Done in H as ([] & _ & H).
  apply (extends_set_used c c3 _ _
           (used_symbols_ c3 ∖ {[symbol]})) in Hext.
  destruct (extends_pop c _ [false; a1] _ _ Hext) as (Hb1 & c4 & Hp1 & Hext4).
  rewrite Hb1 in H. simpl in H. rewrite Hp1 in H. simpl in H.
  destruct (extends_pop c _ [false] _ _ Hext4) as (Hb2 & c5 & Hp2 & Hext5).
  rewrite Hb2 in H. simpl in H. rewrite Hp2 in H. simpl in H.
  destruct (extends_pop c _ [] _ _ Hext5) as (Hb3 & c6 & Hp3 & Hext6).
  rewrite Hb3 in H. simpl in H. rewrite Hp3 in H. simpl in H.
  simplify_eq. split; [done|].
  replace (a1 || aw) with (aw || a1 || false)
    by (by destruct a1, aw).
  by apply (extends_push c _ [] _ _).
Qed.

Lemma forallb_Forall_visited l :
  Forall (λ x, well_formed x = true → visited x (Accept x)) l →
  forallb well_formed l = true →
  Forall (λ x, visited (id x) (Accept x)) l.
Proof.
  intros Hall Hwf. induction Hall as [|x l Hx _ IH]; [constructor|].
  simpl in Hwf. apply andb_true_iff in Hwf as [Hx' Hl].
  constructor; [by apply Hx|by apply IH].
Qed.

Lemma forallb_Forall_visited_snd (l : list (string * Expression)) :
  Forall (λ p, well_formed p.2 = true → visited p.2 (Accept p.2)) l →
  forallb (λ p, well_formed p.2) l = true →
  Forall (λ p, visited (snd p) (λ c, Accept p.2 c)) l.
Proof.
  intros Hall Hwf. induction Hall as [|x l Hx _ IH]; [constructor|].
  simpl in Hwf. apply andb_true_iff in Hwf as [Hx' Hl].
  constructor; [by apply Hx|by apply IH].
Qed.

Lemma from_option_visited (o : option Expression) :
  from_option (λ e, well_formed e = true → visited e (Accept e)) True o →
  from_option well_formed true o = true →
  from_option (λ e, visited e (Accept e)) True o.
Proof. destruct o; simpl; auto. Qed.

(** On an expression whose aggregations have the expected arity, a visit
    that returns has pushed one flag, which tells whether the expression
    contains an aggregation. *)
Lemma Accept_visited e : well_formed e = true → visited e (Accept e).
Proof.
  induction e as
    [ uid | uid l IHl | uid l IHl | ident | uid | uid e property IHe
    | uid kind e IHe | uid kind e1 e2 IHe1 IHe2
    | uid list_ lower upper IHlist IHlower IHupper
    | uid e1 e2 e3 IHe1 IHe2 IHe3 | uid nm l IHl | uid op_ o1 o2 IHo1 IHo2
    | uid ident e1 wuid e2 IHe1 IHe2 ] using Expression_induction;
    intros Hwf c b c' H; simpl in Hwf.
  - simpl in H. unfold Visit_PrimitiveLiteral in H. simplify_eq.
    split; [done|]. apply (extends_push c c [] false false), extends_refl.
  - simpl in H.
    by apply (accept_each_fold_extends Accept id l _ c b c'
                (forallb_Forall_visited l IHl Hwf)) in H.
  - simpl in H.
    by apply (accept_each_fold_extends (λ p c, Accept p.2 c) snd l _ c b c'
                (forallb_Forall_visited_snd l IHl Hwf)) in H.
  - simpl in H. by apply Visit_Identifier_extends in H.
  - simpl in H. unfold Visit_ParameterLookup in H. simplify_eq.
    split; [done|]. apply (extends_push c c [] false false), extends_refl.
  - simpl in H. apply bind_Done in H as ([? c1] & H1 & H). simpl in H.
    apply (IHe Hwf) in H1 as [_ Hext]. by simplify_eq.
  - simpl in H. apply bind_Done in H as ([? c1] & H1 & H). simpl in H.
    apply (IHe Hwf) in H1 as [_ Hext]. by simplify_eq.
  - apply andb_true_iff in Hwf as [Hwf1 Hwf2]. simpl in H.
    apply bind_Done in H as ([cont c1] & H1 & H). simpl in H.
    apply (IHe1 Hwf1) in H1 as [-> Hext1].
    apply bind_Done in H as ([? c2] & H2 & H). simpl in H.
    apply (IHe2 Hwf2) in H2 as [_ Hext2].
    pose proof (extends_trans _ _ _ _ _ _ _ Hext1 Hext2) as Hext.
    by apply (PostVisit_BinaryOperator_extends c c2 e1 e2 _ _ _ Hext) in H.
  - apply andb_true_iff in Hwf as [[Hwf1 Hwf2]%andb_true_iff Hwf3].
    simpl in H. apply bind_Done in H as ([? c1] & H1 & H). simpl in H.
    simplify_eq. split; [done|].
    by apply (PreVisit_ListSlicingOperator_extends uid) in H1;
      [|auto using from_option_visited..].
  - apply andb_true_iff in Hwf as [[Hwf1 Hwf2]%andb_true_iff Hwf3].
    simpl in H. apply bind_Done in H as ([? c1] & H1 & H). simpl in H.
    simplify_eq. split; [done|].
    apply (PreVisit_IfOperator_extends uid) in H1 as [Hno Hext]; [|auto..].
    simpl in Hno. simpl. by rewrite Hno.
  - simpl in H.
    by apply (accept_each_fold_extends Accept id l _ c b c'
                (forallb_Forall_visited l IHl Hwf)) in H.
  - apply andb_true_iff in Hwf as [[Hwf1 Hwf2]%andb_true_iff Hwf3].
    by apply (Aggregation_extends uid op_ o1 o2 c b c' Hwf1) in H;
      [|auto using from_option_visited..].
  - apply andb_true_iff in Hwf as [Hwf1 Hwf2]. simpl in H.
    apply bind_Done in H as ([cont c1] & H1 & H). simpl in H.
    apply Visit_Identifier_extends in H1 as [-> Hext1].
    apply bind_Done in H as ([cont2 c2] & H2 & H). simpl in H.
    apply (IHe1 Hwf1) in H2 as [-> Hext2].
    apply bind_Done in H as ([? c3] & H3 & H). simpl in H.
    apply bind_Done in H3 as ([? c4] & H3 & H4). simpl in H4. simplify_eq.
    apply (IHe2 Hwf2) in H3 as [_ Hext3].
    pose proof (extends_trans _ _ _ _ _ _ _ Hext1 Hext2) as Hext12.
    pose proof (extends_trans _ _ _ _ _ _ _ Hext12 Hext3) as Hext.
    simpl in Hext.
    by apply (PostVisit_All_extends ident c c3 _ _ _ _ _ Hext) in H.
Qed.

(** X8. On an expression whose aggregations have the arity the code counts
    on, a visit that returns has pushed exactly one flag on
    [has_aggregation_], the flag says whether the expression contains an
    aggregation, [aggregations_] has grown exactly if it does, and no
    child was skipped ([Accept] returned [true]). *)
Theorem Accept_pushes_one_flag e c b c' :
  well_formed e = true →
  Accept e c = Done (b, c') →
  b = true
  ∧ has_aggregation_ c' = has_aggregation_ c ++ [contains_aggregation e]
  ∧ ∃ aggs, aggregations_ c' = aggregations_ c ++ aggs
            ∧ (aggs = [] ↔ contains_aggregation e = false).
Proof.
  intros Hwf H. apply (Accept_visited e Hwf) in H as [-> (Hs & _ & Ha)].
  done.
Qed.

Lemma Accept_pushes_one_flag_witness :
  ∃ c',
    Accept column_plus
      (mkReturnBodyContext return_k_sum return_table {[sym_n]} (mkStorage 100)
         None ∅ [] [] [] [] [])
    = Done (true, c')
    ∧ has_aggregation_ c' = [true].
Proof.
  destruct (Accept column_plus
              (mkReturnBodyContext return_k_sum return_table {[sym_n]}
                 (mkStorage 100) None ∅ [] [] [] [] []))
    as [[b c']| |] eqn:Hrun; [|vm_compute in Hrun; discriminate Hrun..].
  destruct (Accept_pushes_one_flag column_plus _ _ _ eq_refl Hrun)
    as (-> & Hs & _).
  exists c'. split; [reflexivity|exact Hs].
Defined.

(** X9. A CASE expression with an aggregation inside never gets through
    the classifier: if the visit of a well-formed [IfOperator] returns, no
    aggregation occurs in its condition or its branches. *)
Theorem Accept_IfOperator_no_aggregation uid e1 e2 e3 c b c' :
  well_formed (IfOperator uid e1 e2 e3) = true →
  Accept (IfOperator uid e1 e2 e3) c = Done (b, c') →
  contains_aggregation e1 = false
  ∧ contains_aggregation e2 = false
  ∧ contains_aggregation e3 = false.
Proof.
  intros Hwf H. simpl in Hwf.
  apply andb_true_iff in Hwf as [[Hwf1 Hwf2]%andb_true_iff Hwf3].
  simpl in H. apply bind_Done in H as ([? c1] & H1 & _).
  apply (PreVisit_IfOperator_extends uid) in H1 as [Hno _];
    [|by apply Accept_visited..].
  simpl in Hno.
  apply orb_false_iff in Hno as [[? ?]%orb_false_iff ?]. done.
Qed.

Lemma Accept_IfOperator_no_aggregation_witness :
  ∃ c',
    Accept (IfOperator 40 n_k n_k n_v)
      (mkReturnBodyContext return_k_sum return_table {[sym_n]} (mkStorage 100)
         None ∅ [] [] [] [] [])
    = Done (true, c')
    ∧ contains_aggregation n_v = false.
Proof.
  destruct (Accept (IfOperator 40 n_k n_k n_v)
              (mkReturnBodyContext return_k_sum return_table {[sym_n]}
                 (mkStorage 100) None ∅ [] [] [] [] []))
    as [[b c']| |] eqn:Hrun; [|vm_compute in Hrun; discriminate Hrun..].
  destruct (Accept_IfOperator_no_aggregation 40 n_k n_k n_v _ _ _ eq_refl Hrun)
    as (_ & _ & H3).
  exists c'. split; [|exact H3].
  vm_compute in Hrun. injection Hrun as <- <-. reflexivity.
Defined.

(** ** The classifier as a whole *)

Lemma visit_named_expression_extends c ne c' :
  well_formed (expression_of ne) = true →
  visit_named_expression c ne = Done c' →
  extends c c' [] (contains_aggregation (expression_of ne)).
Proof.
  intros Hwf H. unfold visit_named_expression in H.
  apply bind_Done in H as (s & _ & H). simpl in H.
  apply bind_Done in H as ([? c1] & H1 & H). simpl in H. simplify_eq.
  unfold Accept_NamedExpression in H1.
  apply bind_Done in H1 as ([? c2] & H2 & H1). simpl in H1.
  apply (Accept_visited _ Hwf) in H2 as [_ Hext].
  assert (extends c c2 [contains_aggregation (expression_of ne)]
            (contains_aggregation (expression_of ne))) as Hext' by exact Hext.
  clear Hext. unfold PostVisit_NamedExpression in H1.
  apply bind_Done in H1 as ([] & _ & H1).
  destruct (extends_pop c c2 [] _ _ Hext') as (Hb & _).
  rewrite Hb in H1. simpl in H1.
  apply bind_Done in H1 as (c3 & Hp & H1). simplify_eq.
  destruct (contains_aggregation (expression_of ne)) eqn:Ha.
  - destruct (extends_pop c c2 [] _ _ Hext') as (_ & c4 & Hp' & Hext4).
    rewrite Hp in Hp'. by simplify_eq.
  - apply (extends_push_group_by c c2 _ _ (expression_of ne) Ha) in Hext'.
    destruct (extends_pop c _ [] _ _ Hext') as (_ & c4 & Hp' & Hext4).
    rewrite Hp in Hp'. by simplify_eq.
Qed.

Lemma visit_named_expressions_extends nes : ∀ c c',
  Forall (λ ne, well_formed (expression_of ne) = true) nes →
  for_each visit_named_expression nes c = Done c' →
  extends c c' []
    (existsb (λ ne, contains_aggregation (expression_of ne)) nes).
Proof.
  induction nes as [|ne nes IH]; intros c c' Hwf H; simpl in H.
  { simplify_eq. apply extends_refl. }
  apply Forall_cons in Hwf as [Hwf1 Hwf].
  apply bind_Done in H as (c1 & H1 & H).
  apply (visit_named_expression_extends _ _ _ Hwf1) in H1.
  apply (IH _ _ Hwf) in H.
  apply (extends_trans _ _ _ _ _ _ _ H1 H).
Qed.

Lemma ExpandUserSymbols_extends c c' :
  ExpandUserSymbols c = Done c' → extends c c' [] false.
Proof.
  unfold ExpandUserSymbols. intros H.
  apply bind_Done in H as ([] & _ & H).
  apply bind_Done in H as ([] & _ & H). simpl in H. simplify_eq.
  destruct (ExpandUserSymbols_fold (elements (bound_symbols_ c)) c)
    as (_ & _ & Hgb & _ & _ & _ & _ & _ & _ & _ & Hag & Hha).
  split; [simpl; by rewrite Hha, app_nil_r|]. split.
  - eexists. split; [exact Hgb|].
    apply Forall_fmap, Forall_forall. intros ne Hne.
    apply list_elem_of_lookup in Hne as (i & Hi).
    apply list_lookup_imap_Some in Hi as (s & _ & ->). done.
  - exists []. simpl. by rewrite Hag, app_nil_r.
Qed.

Lemma visit_order_by_extends (l : list (Ordering * Expression)) : ∀ c c',
  Forall (λ p, well_formed p.2 = true) l →
  for_each (λ c order_pair, '(_, c) ← Accept order_pair.2 c; Done c) l c
  = Done c' →
  ∃ flags, extends c c' flags (existsb (λ p, contains_aggregation p.2) l).
Proof.
  induction l as [|p l IH]; intros c c' Hwf H; simpl in H.
  { simplify_eq. exists []. apply extends_refl. }
  apply Forall_cons in Hwf as [Hwf1 Hwf].
  apply bind_Done in H as (c1 & H1 & H).
  apply bind_Done in H1 as ([? c2] & H1 & H2). simpl in H2. simplify_eq.
  apply (Accept_visited _ Hwf1) in H1 as [_ Hext1].
  apply (IH _ _ Hwf) in H as (flags & Hext).
  eexists. apply (extends_trans _ _ _ _ _ _ _ Hext1 Hext).
Qed.

(** What the constructor has collected when it returns on a well-formed
    body. *)
Lemma ReturnBodyContext_new_collected body (st : SymbolTable) bound storage
    w c :
  well_formed_body body w →
  ReturnBodyContext_new body st bound storage w = Done c →
  Forall (λ g, contains_aggregation g = false) (group_by_ c)
  ∧ (aggregations_ c = [] ↔ body_aggregates body = false)
  ∧ (aggregations_ c = [] →
     existsb (λ p, contains_aggregation p.2) (order_by body) = false
     ∧ from_option (λ w, contains_aggregation (Where_expression_ w)) false w
       = false).
Proof.
  intros (Hwf1 & Hwf2 & Hwf3) H. unfold ReturnBodyContext_new in H.
  apply bind_Done in H as (c1 & H1 & H).
  unfold collect_named_expressions in H1.
  apply bind_Done in H1 as (c0 & H0 & H1).
  set (ci := mkReturnBodyContext body st bound storage w ∅ [] [] [] [] [])
    in *.
  assert (extends ci c0 [] false) as Hext0.
  { destruct (all_identifiers body).
    - by apply ExpandUserSymbols_extends.
    - simplify_eq. apply extends_refl. }
  apply (visit_named_expressions_extends _ _ _ Hwf1) in H1.
  pose proof (extends_trans _ _ _ _ _ _ _ Hext0 H1) as Hext1.
  simpl in Hext1. fold (body_aggregates body) in Hext1.
  destruct (bool_decide (aggregations_ c1 = [])) eqn:Hagg.
  - apply bool_decide_eq_true in Hagg.
    unfold visit_order_by_and_where in H.
    apply bind_Done in H as (c2 & H2 & H).
    apply bind_Done in H as (c3 & H3 & H).
    apply bind_Done in H as ([] & Hd & H). simplify_eq.
    unfold DCHECK in Hd.
    destruct (bool_decide (aggregations_ c = [])) eqn:Hend; [|done].
    apply bool_decide_eq_true in Hend.
    apply (visit_order_by_extends _ _ _ Hwf2) in H2 as (flags & Hext2).
    assert (∃ flags',
               extends c2 c flags'
                 (from_option
                    (λ w, contains_aggregation (Where_expression_ w)) false w))
      as (flags' & Hext3).
    { destruct w as [w|]; simpl in *.
      - apply bind_Done in H3 as ([? c4] & H3 & H4). simpl in H4.
        simplify_eq. unfold Accept_Where in H3.
        apply bind_Done in H3 as ([? c5] & H3 & H4). simpl in H4.
        simplify_eq.
        apply (Accept_visited _ Hwf3) in H3 as [_ Hext]. by eexists.
      - simplify_eq. exists []. apply extends_refl. }
    pose proof (extends_trans _ _ _ _ _ _ _ Hext2 Hext3) as Hext23.
    pose proof (extends_trans _ _ _ _ _ _ _ Hext1 Hext23) as Hext.
    destruct Hext1 as (_ & _ & (a1 & Ha1 & Hh1)).
    destruct Hext23 as (_ & _ & (a2 & Ha2 & Hh2)).
    destruct Hext as (_ & (gb & Hgb & Hclean) & _).
    simpl in Ha1, Hgb. rewrite Hagg in Ha1. subst a1.
    rewrite Hagg in Ha2. simpl in Ha2. rewrite Hend in Ha2. subst a2.
    split; [by rewrite Hgb|]. split.
    + split; [intros _; by apply Hh1|done].
    + intros _. apply orb_false_iff. by apply Hh2.
  - apply bool_decide_eq_false in Hagg. simplify_eq.
    destruct Hext1 as (_ & (gb & Hgb & Hclean) & (a1 & Ha1 & Hh1)).
    simpl in Ha1, Hgb. split; [by rewrite Hgb|].
    split; [|done]. rewrite Ha1. done.
Qed.

(** ** Aggregation in the plans of RETURN and WITH *)

Lemma Aggregate_in_pipeline advance_command body accumulate aggs gb rem :
  Aggregate aggs gb rem ∈ return_body_pipeline advance_command body accumulate
  ↔ aggregations_ body ≠ [] ∧ aggs = aggregations_ body
    ∧ gb = group_by_ body ∧ rem = elements (used_symbols_ body).
Proof.
  unfold return_body_pipeline, when, when_some.
  rewrite !elem_of_app. split.
  - intros [H|[H|[H|[H|[H|[H|[H|H]]]]]]];
      repeat match goal with
        | H : _ ∈ (if ?b then _ else _) |- _ => destruct b eqn:?
        | H : _ ∈ match ?o with _ => _ end |- _ => destruct o
        | H : _ ∈ [] |- _ => by apply not_elem_of_nil in H
        | H : _ ∈ [_] |- _ => apply list_elem_of_singleton in H
        end; simplify_eq.
    split; [|done]. by eapply bool_decide_eq_true_1.
  - intros (Hne & -> & -> & ->). right. left.
    rewrite bool_decide_eq_true_2 by done. by apply list_elem_of_singleton.
Qed.

(** The Aggregate of a return body whose classifier ran on a well-formed
    body. *)
Lemma return_body_Aggregate body (st : SymbolTable) bound storage w c
    advance_command accumulate :
  well_formed_body body w →
  ReturnBodyContext_new body st bound storage w = Done c →
  let emitted := return_body_pipeline advance_command c accumulate in
  ((∃ aggs gb rem, Aggregate aggs gb rem ∈ emitted)
   ↔ body_aggregates body = true)
  ∧ (∀ aggs gb rem,
       Aggregate aggs gb rem ∈ emitted →
       aggs ≠ [] ∧ Forall (λ g, contains_aggregation g = false) gb).
Proof.
  intros Hwf Hc emitted.
  destruct (ReturnBodyContext_new_collected _ _ _ _ _ _ Hwf Hc)
    as (Hclean & Hiff & _).
  split.
  - split.
    + intros (aggs & gb & rem & Hin).
      apply Aggregate_in_pipeline in Hin as (Hne & _).
      destruct (body_aggregates body); [done|]. destruct Hne. by apply Hiff.
    + intros Hagg. eexists _, _, _. apply Aggregate_in_pipeline.
      split; [|done]. intros Hnil. apply Hiff in Hnil. congruence.
  - intros aggs gb rem Hin.
    apply Aggregate_in_pipeline in Hin as (Hne & -> & -> & _). done.
Qed.

(** X10. The plan of a RETURN with well-formed expressions has an
    Aggregate operator exactly when one of its named expressions contains
    an aggregation, and that operator has at least one aggregation and
    groups by expressions without an aggregation in them. *)
Theorem GenReturn_Aggregate ret input_op (st : SymbolTable) is_write bound
    storage plan st' storage' :
  well_formed_body (Return_body_ ret) None →
  GenReturn ret input_op st is_write bound storage
  = Done (plan, st', storage') →
  ∃ emitted,
    operators plan = rev emitted ++ operators input_op
    ∧ ((∃ aggs gb rem, Aggregate aggs gb rem ∈ emitted)
       ↔ body_aggregates (Return_body_ ret) = true)
    ∧ (∀ aggs gb rem,
         Aggregate aggs gb rem ∈ emitted →
         aggs ≠ [] ∧ Forall (λ g, contains_aggregation g = false) gb).
Proof.
  intros Hwf H. rewrite GenReturn_eq in H.
  apply bind_Done in H as (c & Hc & H). simplify_eq.
  exists (return_body_pipeline false c is_write).
  split; [apply operators_GenReturnBody|].
  by apply (return_body_Aggregate _ _ _ _ _ _ false is_write Hwf Hc).
Qed.

Lemma GenReturn_Aggregate_witness :
  ∃ plan st' storage' emitted aggs gb rem,
    GenReturn (mkReturn return_k_sum) NoInput return_table false {[sym_n]}
      (mkStorage 100) = Done (plan, st', storage')
    ∧ operators plan = rev emitted ++ []
    ∧ Aggregate aggs gb rem ∈ emitted
    ∧ Forall (λ g, contains_aggregation g = false) gb.
Proof.
  destruct (GenReturn (mkReturn return_k_sum) NoInput return_table false
              {[sym_n]} (mkStorage 100)) as [[[plan st'] storage']| |] eqn:Hrun;
    [|vm_compute in Hrun; discriminate Hrun..].
  assert (well_formed_body return_k_sum None) as Hwf.
  { split; [|split]; [repeat constructor..|exact I]. }
  destruct (GenReturn_Aggregate (mkReturn return_k_sum) _ _ _ _ _ _ _ _ Hwf
              Hrun) as (emitted & Hops & Hiff & Hclean).
  destruct (proj2 Hiff eq_refl) as (aggs & gb & rem & Hin).
  exists plan, st', storage', emitted, aggs, gb, rem.
  split; [reflexivity|]. split; [exact Hops|]. split; [exact Hin|].
  exact (proj2 (Hclean _ _ _ Hin)).
Defined.

(** X11. The same for WITH: its plan has an Aggregate operator exactly
    when one of the named expressions of the WITH contains an aggregation,
    and the operator groups by expressions without an aggregation. *)
Theorem GenWith_Aggregate with_ input_op (st : SymbolTable) is_write bound
    storage plan bound' st' storage' :
  well_formed_body (With_body_ with_) (With_where_ with_) →
  GenWith with_ input_op st is_write bound storage
  = Done (plan, bound', st', storage') →
  ∃ emitted,
    operators plan = rev emitted ++ operators input_op
    ∧ ((∃ aggs gb rem, Aggregate aggs gb rem ∈ emitted)
       ↔ body_aggregates (With_body_ with_) = true)
    ∧ (∀ aggs gb rem,
         Aggregate aggs gb rem ∈ emitted →
         aggs ≠ [] ∧ Forall (λ g, contains_aggregation g = false) gb).
Proof.
  intros Hwf H. rewrite GenWith_eq in H.
  apply bind_Done in H as (c & Hc & H). simplify_eq.
  exists (return_body_pipeline is_write c is_write).
  split; [apply operators_GenReturnBody|].
  by apply (return_body_Aggregate _ _ _ _ _ _ is_write is_write Hwf Hc).
Qed.

Lemma GenWith_Aggregate_witness :
  ∃ plan emitted,
    GenWith with_n_as_m NoInput with_table false {[sym_n; sym_a]}
      (mkStorage 100)
    = Done (plan, {[sym_m]}, with_table, mkStorage 100)
    ∧ operators plan = rev emitted ++ []
    ∧ ¬ ∃ aggs gb rem, Aggregate aggs gb rem ∈ emitted.
Proof.
  assert (GenWith with_n_as_m NoInput with_table false {[sym_n; sym_a]}
            (mkStorage 100)
          = Done (New (Produce (named_expressions (With_body_ with_n_as_m)))
                    NoInput,
                  {[sym_m]}, with_table, mkStorage 100)) as Hrun.
  { vm_compute. reflexivity. }
  assert (well_formed_body (With_body_ with_n_as_m)
            (With_where_ with_n_as_m)) as Hwf.
  { split; [|split]; [repeat constructor..|exact I]. }
  destruct (GenWith_Aggregate with_n_as_m _ _ _ _ _ _ _ _ _ Hwf Hrun)
    as (emitted & Hops & Hiff & _).
  eexists _, emitted. split; [exact Hrun|]. split; [exact Hops|].
  intros Hex. apply Hiff in Hex. discriminate Hex.
Defined.

(** X12. When the classifier returns on a well-formed body none of whose
    named expressions contains an aggregation, no ORDER BY expression and
    no WHERE expression contains one either: the check after the visit of
    ORDER BY and WHERE stops every other run. *)
Theorem ReturnBodyContext_new_no_late_aggregation body (st : SymbolTable)
    bound storage w c :
  well_formed_body body w →
  ReturnBodyContext_new body st bound storage w = Done c →
  body_aggregates body = false →
  Forall (λ p, contains_aggregation (snd p) = false) (order_by body)
  ∧ from_option (λ w, contains_aggregation (Where_expression_ w) = false)
      True w.
Proof.
  intros Hwf Hc Hno.
  destruct (ReturnBodyContext_new_collected _ _ _ _ _ _ Hwf Hc)
    as (_ & Hiff & Hlate).
  apply Hiff in Hno. destruct (Hlate Hno) as [Hob Hw]. split.
  - apply Forall_forall. intros p Hp.
    destruct (contains_aggregation p.2) eqn:Hagg; [|done].
    assert (existsb (λ p, contains_aggregation p.2) (order_by body) = true)
      as Hex; [|congruence].
    apply existsb_exists. exists p. split; [|done].
    by apply list_elem_of_In.
  - by destruct w.
Qed.

Lemma ReturnBodyContext_new_no_late_aggregation_witness :
  ∃ c,
    ReturnBodyContext_new return_k_v_ordered return_table {[sym_n]}
      (mkStorage 100) (Some (mkWhere 30 n_k)) = Done c
    ∧ Forall (λ p, contains_aggregation (snd p) = false)
        (order_by return_k_v_ordered).
Proof.
  destruct (ReturnBodyContext_new return_k_v_ordered return_table {[sym_n]}
              (mkStorage 100) (Some (mkWhere 30 n_k))) as [c| |] eqn:Hc;
    [|vm_compute in Hc; discriminate Hc..].
  assert (well_formed_body return_k_v_ordered (Some (mkWhere 30 n_k)))
    as Hwf.
  { split; [|split]; [repeat constructor..|reflexivity]. }
  destruct (ReturnBodyContext_new_no_late_aggregation return_k_v_ordered
              _ _ _ _ _ Hwf Hc eq_refl) as [Hob _].
  exists c. split; [reflexivity|exact Hob].
Defined.

(** X13. Without [*] the classifier writes neither to the symbol table nor
    to the storage: when it returns, both are the ones it was given, the
    named expressions it hands to Produce are the ones of the body in
    their order, and there is one output symbol for each of them. *)
Theorem ReturnBodyContext_new_without_star body (st : SymbolTable) bound
    storage w c :
  all_identifiers body = false →
  ReturnBodyContext_new body st bound storage w = Done c →
  symbol_table_ c = st
  ∧ storage_ c = storage
  ∧ named_expressions_ c = named_expressions body
  ∧ Forall2 (λ ne s, st !! NamedExpression_uid ne = Some s)
      (named_expressions body) (output_symbols_ c).
Proof.
  intros Hstar H. unfold ReturnBodyContext_new in H.
  apply bind_Done in H as (c1 & H1 & H).
  assert (same_outputs c1 c) as Hsame.
  { destruct (bool_decide _); [|by simplify_eq].
    by apply visit_order_by_and_where_keeps in H as [? _]. }
  clear H. unfold collect_named_expressions in H1. rewrite Hstar in H1.
  simpl in H1.
  apply visit_named_expressions_spec in H1
    as (syms & Hall & Hout & Hne & Hb & Hst & Hbs & Hsto & Hw).
  destruct Hsame as (Hb' & Hst' & Hbs' & Hsto' & Hw' & Hout' & Hne').
  simpl in *.
  split; [congruence|]. split; [congruence|]. split; [congruence|].
  by rewrite Hout', Hout.
Qed.

Lemma ReturnBodyContext_new_without_star_witness :
  ∃ c,
    ReturnBodyContext_new return_k_sum return_table {[sym_n]} (mkStorage 100)
      None = Done c
    ∧ symbol_table_ c = return_table
    ∧ storage_ c = mkStorage 100.
Proof.
  destruct (ReturnBodyContext_new return_k_sum return_table {[sym_n]}
              (mkStorage 100) None) as [c| |] eqn:Hc;
    [|vm_compute in Hc; discriminate Hc..].
  destruct (ReturnBodyContext_new_without_star return_k_sum _ _ _ _ _
              eq_refl Hc) as (Hst & Hsto & _).
  exists c. split; [reflexivity|]. split; [exact Hst|exact Hsto].
Defined.

Lemma ExpandUserSymbols_returns c :
  named_expressions_ c = [] → output_symbols_ c = [] →
  ∃ c', ExpandUserSymbols c = Done c' ∧ aggregations_ c' = aggregations_ c.
Proof.
  intros Hne Hout. unfold ExpandUserSymbols.
  rewrite !bool_decide_eq_true_2 by done. simpl.
  eexists. split; [reflexivity|]. simpl.
  by destruct (ExpandUserSymbols_fold (elements (bound_symbols_ c)) c)
    as (_ & _ & _ & _ & _ & _ & _ & _ & _ & _ & Hag & _).
Qed.

Lemma GenWith_star_returns input_op (st : SymbolTable) is_write bound storage :
  ∃ plan bound' st' storage',
    GenWith with_star input_op st is_write bound storage
    = Done (plan, bound', st', storage').
Proof.
  rewrite GenWith_eq.
  unfold ReturnBodyContext_new, collect_named_expressions, with_star.
  cbn [With_body_ With_where_ all_identifiers named_expressions for_each].
  destruct (ExpandUserSymbols_returns
              (mkReturnBodyContext (mkReturnBody false true [] [] None None)
                 st bound storage None ∅ [] [] [] [] []) eq_refl eq_refl)
    as (c' & -> & Hagg).
  simpl in Hagg. simpl. rewrite bool_decide_eq_true_2 by done.
  unfold visit_order_by_and_where. simpl.
  rewrite bool_decide_eq_true_2 by done. simpl. by eexists _, _, _, _.
Qed.

(** X14. [WITH *] keeps every user-declared symbol bound: whenever
    [GenWith] returns on a body with [*], each user-declared symbol that
    was bound before is bound afterwards. *)
Theorem GenWith_star_keeps_bound with_ input_op (st : SymbolTable) is_write
    bound storage plan bound' st' storage' s :
  all_identifiers (With_body_ with_) = true →
  GenWith with_ input_op st is_write bound storage
  = Done (plan, bound', st', storage') →
  s ∈ bound → user_declared s = true → s ∈ bound'.
Proof.
  intros Hstar H Hs Hud. rewrite GenWith_eq in H.
  apply bind_Done in H as (c & Hc & H). simplify_eq.
  destruct (ReturnBodyContext_new_outputs _ _ _ _ _ _ Hc)
    as (expansion & syms & Hout & Hexp & _).
  rewrite Hstar in Hexp. apply elem_of_list_to_set.
  rewrite Hout, Hexp. apply elem_of_app. left.
  rewrite std_sort_Permutation. unfold user_declared_symbols.
  apply list_elem_of_filter. split; [done|]. by apply elem_of_elements.
Qed.

Lemma GenWith_star_keeps_bound_witness :
  ∃ plan bound' st' storage',
    GenWith with_star NoInput ∅ false {[sym_n]} (mkStorage 100)
    = Done (plan, bound', st', storage')
    ∧ sym_n ∈ bound'.
Proof.
  destruct (GenWith_star_returns NoInput ∅ false {[sym_n]} (mkStorage 100))
    as (plan & bound' & st' & storage' & Hrun).
  exists plan, bound', st', storage'. split; [exact Hrun|].
  apply (GenWith_star_keeps_bound with_star _ _ _ _ _ _ _ _ _ sym_n eq_refl
           Hrun).
  - apply elem_of_singleton. reflexivity.
  - reflexivity.
Defined.
